(** * Member-data question answering: a shallow embedding

    The development follows the two Python modules of the repository:
    [main.py] (the [/ask] endpoint and [answer_question_simple]) and
    [analyze_data.py] (the offline report builder).

    Modelling conventions.
    - A Python [str] is a [string] whose characters are read as the code
      points U+0000..U+00FF.  Case mapping, [\d], [\s], [\w] and
      [str.isspace] are the Unicode ones restricted to that range.
    - A decoded JSON document is a [pyval].  A dict keeps its insertion
      order and is an association list with string keys.
    - A raised exception is the [Raise] branch of [result].
    - An [int] is unbounded; converting between an [int] and its
      decimal text is subject to the interpreter's limit on the number
      of digits and raises [ValueError] beyond it.
    - Iterating a Python [set] of strings has no specified order; the
      order is a parameter ([set_iter]) of the definitions that use it. *)

From Stdlib Require Import Bool Arith ZArith NArith Lia List Ascii String
  QArith Permutation Sorted DecimalString DecimalZ DecimalPos OrdersEx.
Import ListNotations.
Close Scope Q_scope.
Open Scope string_scope.

Set Implicit Arguments.
#[local] Set Warnings "-register-all".

(** ** Exceptions *)

Inductive exn : Type :=
| AttributeError
| TypeError
| ValueError.

Inductive result (A : Type) : Type :=
| Ok (a : A)
| Raise (e : exn).
Arguments Ok {A} a.
Arguments Raise {A} e.

Definition bind {A B : Type} (m : result A) (f : A -> result B) : result B :=
  match m with
  | Ok a => f a
  | Raise e => Raise e
  end.

Notation "x <- m ;; k" := (bind m (fun x => k))
  (at level 61, m at next level, right associativity).

(** ** Characters and strings *)

Module Chr.

Definition ord (c : ascii) : N := N_of_ascii c.

Definition between (lo hi : N) (c : ascii) : bool :=
  ((lo <=? ord c) && (ord c <=? hi))%N.

(** [[A-Z]] and [[a-z]] of the patterns. *)
Definition is_AZ (c : ascii) : bool := between 65 90 c.
Definition is_az (c : ascii) : bool := between 97 122 c.

(** [\d]: the decimal digits below U+0100 are [0-9]. *)
Definition is_digit (c : ascii) : bool := between 48 57 c.

(** [\s] and [str.isspace]: TAB..CR, FS..US, SPACE, NEL, NBSP. *)
Definition is_space (c : ascii) : bool :=
  between 9 13 c || between 28 32 c || (ord c =? 133)%N || (ord c =? 160)%N.

(** Alphabetic and numeric code points below U+0100. *)
Definition is_alpha (c : ascii) : bool :=
  between 65 90 c || between 97 122 c
  || (ord c =? 170)%N || (ord c =? 181)%N || (ord c =? 186)%N
  || between 192 214 c || between 216 246 c || between 248 255 c.

Definition is_numeric (c : ascii) : bool :=
  between 48 57 c || between 178 179 c || (ord c =? 185)%N || between 188 190 c.

(** [\w]: alphanumeric or underscore. *)
Definition is_word (c : ascii) : bool :=
  is_alpha c || is_numeric c || (ord c =? 95)%N.

(** [str.lower] on one code point. *)
Definition lower (c : ascii) : ascii :=
  if between 65 90 c || between 192 214 c || between 216 222 c
  then ascii_of_N (ord c + 32) else c.

(** [str.isprintable] on one code point (used by [repr]). *)
Definition is_printable (c : ascii) : bool :=
  between 32 126 c || (between 161 255 c && negb (ord c =? 173)%N).

(** The double quote. *)
Definition dquote : ascii := "034"%char.

End Chr.

Module Str.

Fixpoint lower (s : string) : string :=
  match s with
  | EmptyString => EmptyString
  | String c s' => String (Chr.lower c) (lower s')
  end.

(** [needle in hay]. *)
Fixpoint contains (needle hay : string) : bool :=
  prefix needle hay ||
  match hay with
  | EmptyString => false
  | String _ hay' => contains needle hay'
  end.

Fixpoint forallb (p : ascii -> bool) (s : string) : bool :=
  match s with
  | EmptyString => true
  | String c s' => p c && forallb p s'
  end.

Fixpoint existsb (p : ascii -> bool) (s : string) : bool :=
  match s with
  | EmptyString => false
  | String c s' => p c || existsb p s'
  end.

Fixpoint lstrip (s : string) : string :=
  match s with
  | EmptyString => EmptyString
  | String c s' => if Chr.is_space c then lstrip s' else s
  end.

(** Drops trailing whitespace: a character is kept when it is not a
    space or when something is kept after it. *)
Fixpoint rstrip (s : string) : string :=
  match s with
  | EmptyString => EmptyString
  | String c s' =>
      match rstrip s' with
      | EmptyString => if Chr.is_space c then EmptyString else String c EmptyString
      | t => String c t
      end
  end.

(** [s.strip()]. *)
Definition strip (s : string) : string := rstrip (lstrip s).

(** [s.split()]: the maximal runs of non-whitespace characters. *)
Fixpoint split_ws_aux (cur : string) (s : string) : list string :=
  match s with
  | EmptyString => match cur with EmptyString => [] | _ => [cur] end
  | String c s' =>
      if Chr.is_space c
      then match cur with
           | EmptyString => split_ws_aux EmptyString s'
           | _ => cur :: split_ws_aux EmptyString s'
           end
      else split_ws_aux (cur ++ String c EmptyString) s'
  end.

Definition split (s : string) : list string := split_ws_aux EmptyString s.

(** [sep.join(l)]. *)
Definition join (sep : string) (l : list string) : string := concat sep l.

(** [s[:n]]. *)
Definition take (n : nat) (s : string) : string := substring 0 n s.

Definition mem (s : string) (l : list string) : bool :=
  List.existsb (String.eqb s) l.

(** The decimal text of an int.  [str(n)] is [Py.str_of_int], which
    checks the digit limit first. *)
Definition of_Z (z : Z) : string := NilZero.string_of_int (Z.to_int z).

(** [str(n)] for a length: a [len] is below [2^63], far from the digit
    limit. *)
Definition of_nat (n : nat) : string := of_Z (Z.of_nat n).

(** The value of a string of decimal digits.  [int(s)] is
    [Py.int_of_str], which checks the digit limit first. *)
Definition digit_val (c : ascii) : Z := Z.of_N (Chr.ord c) - 48.

Fixpoint int_of_digits_acc (acc : Z) (s : string) : Z :=
  match s with
  | EmptyString => acc
  | String c s' => int_of_digits_acc (10 * acc + digit_val c) s'
  end.

Definition int_of_digits (s : string) : Z := int_of_digits_acc 0 s.

End Str.

(** ** Python values *)

(** A decoded JSON document.  A float is carried by its [repr] (the
    shortest string that reads back to the same double), which
    identifies it.  The decoder reads an integer with [int()], so an
    int of a document is within the digit limit and its [repr] and its
    serialization do not raise. *)
Inductive pyval : Type :=
| PNone
| PBool (b : bool)
| PInt (z : Z)
| PFloat (r : string)
| PStr (s : string)
| PList (l : list pyval)
| PDict (items : list (string * pyval)).

Definition items_t : Type := list (string * pyval).

Module Py.

(** [isinstance(v, dict)]. *)
Definition is_dict (v : pyval) : bool :=
  match v with PDict _ => true | _ => false end.

Definition is_str (v : pyval) : bool :=
  match v with PStr _ => true | _ => false end.

(** [type(v).__name__]. *)
Definition type_name (v : pyval) : string :=
  match v with
  | PNone => "NoneType"
  | PBool _ => "bool"
  | PInt _ => "int"
  | PFloat _ => "float"
  | PStr _ => "str"
  | PList _ => "list"
  | PDict _ => "dict"
  end.

(** [bool(v)]. *)
Definition truthy (v : pyval) : bool :=
  match v with
  | PNone => false
  | PBool b => b
  | PInt z => negb (z =? 0)%Z
  | PFloat r => negb (String.eqb r "0.0" || String.eqb r "-0.0")
  | PStr s => negb (String.eqb s EmptyString)
  | PList l => match l with [] => false | _ => true end
  | PDict d => match d with [] => false | _ => true end
  end.

(** [key in d]. *)
Fixpoint has_key (d : items_t) (key : string) : bool :=
  match d with
  | [] => false
  | (k, _) :: d' => String.eqb k key || has_key d' key
  end.

(** [d.get(key, default)]. *)
Fixpoint get (d : items_t) (key : string) (default : pyval) : pyval :=
  match d with
  | [] => default
  | (k, v) :: d' => if String.eqb k key then v else get d' key default
  end.

(** [sys.get_int_max_str_digits()]: how many decimal digits a
    conversion between [int] and [str] accepts (4300 unless the
    interpreter is configured otherwise). *)
Definition int_max_str_digits : Z := 4300.

(** The least int whose decimal text is over the limit. *)
Definition int_str_bound : Z := 10 ^ int_max_str_digits.

(** [int(s)] for a string of decimal digits: every digit counts, also a
    leading zero. *)
Definition int_of_str (s : string) : result Z :=
  if (int_max_str_digits <? Z.of_nat (String.length s))%Z
  then Raise ValueError
  else Ok (Str.int_of_digits s).

(** [str(n)] for an int, which is also how an f-string renders [{n}]:
    refused when the text would have more digits than the limit, that
    is, from [int_str_bound] on in absolute value. *)
Definition str_of_int (n : Z) : result string :=
  if (Z.abs n <? int_str_bound)%Z
  then Ok (Str.of_Z n)
  else Raise ValueError.

(** [v.lower()]: only a str has the method. *)
Definition lower (v : pyval) : result string :=
  match v with
  | PStr s => Ok (Str.lower s)
  | _ => Raise AttributeError
  end.

(** [for x in v]: a list yields its elements, a str its characters, a
    dict its keys; the other JSON values are not iterable. *)
Fixpoint chars (s : string) : list pyval :=
  match s with
  | EmptyString => []
  | String c s' => PStr (String c EmptyString) :: chars s'
  end.

Definition iter (v : pyval) : result (list pyval) :=
  match v with
  | PList l => Ok l
  | PStr s => Ok (chars s)
  | PDict d => Ok (map (fun kv => PStr (fst kv)) d)
  | _ => Raise TypeError
  end.

(** [v[:n]]: a str or a list can be sliced; the other JSON values raise. *)
Definition slice_to (n : nat) (v : pyval) : result pyval :=
  match v with
  | PStr s => Ok (PStr (Str.take n s))
  | PList l => Ok (PList (firstn n l))
  | _ => Raise TypeError
  end.

Definition hex_digit (n : N) : ascii :=
  if (n <? 10)%N then ascii_of_N (48 + n) else ascii_of_N (87 + n).

Definition hex2 (c : ascii) : string :=
  String (hex_digit (Chr.ord c / 16)) (String (hex_digit (Chr.ord c mod 16)) EmptyString).

(** Body of [repr(s)] between quotes of kind [q]. *)
Fixpoint repr_chars (q : ascii) (s : string) : string :=
  match s with
  | EmptyString => EmptyString
  | String c s' =>
      (if Ascii.eqb c q || Ascii.eqb c "\" then String "\" (String c EmptyString)
       else if Ascii.eqb c "010" then "\n"
       else if Ascii.eqb c "013" then "\r"
       else if Ascii.eqb c "009" then "\t"
       else if Chr.is_printable c then String c EmptyString
       else "\x" ++ hex2 c) ++ repr_chars q s'
  end.

(** [repr(s)]: single quotes, unless the text has a single quote and no
    double quote. *)
Definition repr_str (s : string) : string :=
  let q := if Str.existsb (Ascii.eqb "'") s && negb (Str.existsb (Ascii.eqb Chr.dquote) s)
           then Chr.dquote else "'"%char in
  String q (repr_chars q s ++ String q EmptyString).

(** [repr(v)]. *)
Fixpoint repr (v : pyval) : string :=
  match v with
  | PNone => "None"
  | PBool true => "True"
  | PBool false => "False"
  | PInt z => Str.of_Z z
  | PFloat r => r
  | PStr s => repr_str s
  | PList l => "[" ++ Str.join ", " (map repr l) ++ "]"
  | PDict d =>
      "{" ++ Str.join ", " (map (fun kv => repr_str (fst kv) ++ ": " ++ repr (snd kv)) d) ++ "}"
  end.

(** [str(v)], which is also how an f-string renders [{v}]. *)
Definition str (v : pyval) : string :=
  match v with
  | PStr s => s
  | _ => repr v
  end.

End Py.

(** ** Regular expressions

    The fragment of Python's [re] that the program uses: literals,
    character classes, concatenation, ordered alternation, greedy
    bounded and unbounded repetition, capturing groups and [\b], matched
    by backtracking as [re] does. *)

Module Re.

Inductive regex : Type :=
| Lit (c : ascii)
| Class (p : ascii -> bool)
| Cat (r1 r2 : regex)
| Or (r1 r2 : regex)
| Repeat (lo : nat) (hi : option nat) (r : regex)
| Group (i : nat) (r : regex)
| Boundary.

(** Derived forms. *)
Definition plus (r : regex) : regex := Repeat 1 None r.
Definition star (r : regex) : regex := Repeat 0 None r.
Definition opt (r : regex) : regex := Repeat 0 (Some 1) r.
Definition times (n : nat) (r : regex) : regex := Repeat n (Some n) r.
Definition range (lo hi : nat) (r : regex) : regex := Repeat lo (Some hi) r.

(** A literal word, one character after the other. *)
Fixpoint word (s : string) : regex :=
  match s with
  | EmptyString => Repeat 0 (Some 0) Boundary
  | String c EmptyString => Lit c
  | String c s' => Cat (Lit c) (word s')
  end.

(** [w1|w2|...]. *)
Fixpoint words (first : string) (others : list string) : regex :=
  match others with
  | [] => word first
  | w :: ws => Or (word first) (words w ws)
  end.

Fixpoint seq (rs : list regex) (last : regex) : regex :=
  match rs with
  | [] => last
  | r :: rs' => Cat r (seq rs' last)
  end.

(** Number of capturing groups. *)
Fixpoint ngroups (r : regex) : nat :=
  match r with
  | Lit _ | Class _ | Boundary => 0
  | Cat r1 r2 | Or r1 r2 => ngroups r1 + ngroups r2
  | Repeat _ _ r' => ngroups r'
  | Group _ r' => S (ngroups r')
  end.

(** Captured text by group number, latest capture first. *)
Definition captures : Type := list (nat * string).

Fixpoint group (caps : captures) (i : nat) : string :=
  match caps with
  | [] => EmptyString
  | (j, s) :: caps' => if Nat.eqb i j then s else group caps' i
  end.

(** A position in the subject: the character before it and the text
    from it on. *)
Definition is_word_before (prev : option ascii) : bool :=
  match prev with Some c => Chr.is_word c | None => false end.

Definition is_word_at (s : string) : bool :=
  match s with String c _ => Chr.is_word c | EmptyString => false end.

(** The text between a position [s] and a later position [s']. *)
Definition taken (s s' : string) : string :=
  substring 0 (String.length s - String.length s') s.

Definition chr_eq (ignorecase : bool) (c a : ascii) : bool :=
  if ignorecase then Ascii.eqb (Chr.lower c) (Chr.lower a) else Ascii.eqb c a.

Definition outcome : Type := option (option ascii * string * captures).

Definition cont : Type := option ascii -> string -> captures -> outcome.

(** The greedy loop of a repetition whose body is matched by [body]:
    take one more iteration when the bounds allow it and the rest of the
    pattern, [k], then accepts; otherwise stop here if [lo] iterations
    were made.  An iteration must consume something, so [fuel], the
    number of characters left when the loop starts, is never the reason
    for stopping (lemma [greedy_fuel]). *)
Fixpoint greedy (body : option ascii -> string -> captures -> cont -> outcome)
    (k : cont) (fuel lo : nat) (hi : option nat) (prev : option ascii)
    (s : string) (caps : captures) {struct fuel} : outcome :=
  let stop := match lo with O => k prev s caps | S _ => None end in
  match fuel with
  | O => stop
  | S fuel' =>
      match hi with
      | Some O => stop
      | _ =>
          match body prev s caps
                  (fun prev' s' caps' =>
                     if (String.length s' <? String.length s)%nat
                     then greedy body k fuel' (pred lo) (option_map pred hi)
                                 prev' s' caps'
                     else None) with
          | Some res => Some res
          | None => stop
          end
      end
  end.

(** [rmatch ic r prev s caps k]: match [r] at the position [(prev, s)]
    and hand every way of doing so, in the order of preference of a
    backtracking matcher, to [k] until [k] accepts. *)
Fixpoint rmatch (ic : bool) (r : regex) (prev : option ascii) (s : string)
    (caps : captures) (k : cont) {struct r} : outcome :=
  match r with
  | Lit c =>
      match s with
      | String a s' => if chr_eq ic c a then k (Some a) s' caps else None
      | EmptyString => None
      end
  | Class p =>
      match s with
      | String a s' => if p a then k (Some a) s' caps else None
      | EmptyString => None
      end
  | Cat r1 r2 =>
      rmatch ic r1 prev s caps (fun prev' s' caps' => rmatch ic r2 prev' s' caps' k)
  | Or r1 r2 =>
      match rmatch ic r1 prev s caps k with
      | Some res => Some res
      | None => rmatch ic r2 prev s caps k
      end
  | Repeat lo hi r' =>
      greedy (rmatch ic r') k (String.length s) lo hi prev s caps
  | Group i r' =>
      rmatch ic r' prev s caps
        (fun prev' s' caps' => k prev' s' ((i, taken s s') :: caps'))
  | Boundary =>
      if xorb (is_word_before prev) (is_word_at s) then k prev s caps else None
  end.

Definition accept : cont := fun prev s caps => Some (prev, s, caps).

(** What [findall] reports for one match. *)
Inductive found : Type :=
| FStr (s : string)
| FTuple (l : list string).

(** No group: the match; one group: the group; several: the tuple of
    the groups. *)
Definition report (n : nat) (whole : string) (caps : captures) : found :=
  match n with
  | 0 => FStr whole
  | 1 => FStr (group caps 1)
  | _ => FTuple (map (group caps) (List.seq 1 n))
  end.

(** Leftmost matches, left to right, without overlap.  After a match the
    scan resumes where it ended (one character further after an empty
    match). *)
Fixpoint scan (fuel : nat) (ic : bool) (r : regex) (prev : option ascii)
    (s : string) : list (string * captures) :=
  match fuel with
  | O => []
  | S fuel' =>
      let next :=
        match s with
        | EmptyString => []
        | String c s' => scan fuel' ic r (Some c) s'
        end in
      match rmatch ic r prev s [] accept with
      | Some (prev', s', caps) =>
          (taken s s', caps) ::
          (if (String.length s' <? String.length s)%nat
           then scan fuel' ic r prev' s' else next)
      | None => next
      end
  end.

(** [re.findall(r, s)] and [re.findall(r, s, re.IGNORECASE)]. *)
Definition findall (ic : bool) (r : regex) (s : string) : list found :=
  map (fun m => report (ngroups r) (fst m) (snd m))
      (scan (S (String.length s)) ic r None s).

(** [re.findall] for a pattern with at most one group, whose results
    are all strings. *)
Definition findall_str (ic : bool) (r : regex) (s : string) : list string :=
  map (fun m => match ngroups r with 0 => fst m | _ => group (snd m) 1 end)
      (scan (S (String.length s)) ic r None s).

(** [str(x)] for an element of a [findall] result; a tuple shows the
    [repr] of its parts. *)
Definition str (f : found) : string :=
  match f with
  | FStr s => s
  | FTuple [x] => "(" ++ Py.repr_str x ++ ",)"
  | FTuple l => "(" ++ Str.join ", " (map Py.repr_str l) ++ ")"
  end.

End Re.

(** ** [main.py]: the question-answering heuristic *)

Module Patterns.
Import Re.

Definition AZ : regex := Class Chr.is_AZ.
Definition az : regex := Class Chr.is_az.
Definition digit : regex := Class Chr.is_digit.
Definition space : regex := Class Chr.is_space.

(** One capitalized word, [[A-Z][a-z]+]. *)
Definition capitalized : regex := Cat AZ (plus az).

(** [\b([A-Z][a-z]+(?:\s+[A-Z][a-z]+)?)\b] *)
Definition name_pattern : regex :=
  seq [Boundary;
       Group 1 (Cat capitalized (opt (Cat (plus space) capitalized)))]
      Boundary.

(** [\d{4}-\d{2}-\d{2}] *)
Definition date_iso : regex :=
  seq [times 4 digit; Lit "-"; times 2 digit; Lit "-"] (times 2 digit).

(** [\d{1,2}/\d{1,2}/\d{4}] *)
Definition date_slash : regex :=
  seq [range 1 2 digit; Lit "/"; range 1 2 digit; Lit "/"] (times 4 digit).

(** [(january|...|december)\s+\d{1,2}] *)
Definition date_month_day : regex :=
  seq [Group 1 (words "january"
         ["february"; "march"; "april"; "may"; "june"; "july"; "august";
          "september"; "october"; "november"; "december"]);
       plus space]
      (range 1 2 digit).

(** [(monday|...|sunday)] *)
Definition date_weekday : regex :=
  Group 1 (words "monday"
    ["tuesday"; "wednesday"; "thursday"; "friday"; "saturday"; "sunday"]).

(** [(this|next)\s+(week|friday|monday|tuesday|wednesday|thursday|saturday|sunday)] *)
Definition date_relative : regex :=
  seq [Group 1 (words "this" ["next"]); plus space]
      (Group 2 (words "week"
         ["friday"; "monday"; "tuesday"; "wednesday"; "thursday"; "saturday";
          "sunday"])).

Definition date_patterns : list regex :=
  [date_iso; date_slash; date_month_day; date_weekday; date_relative].

(** [\b(\d+)\s*car] *)
Definition car_number : regex :=
  seq [Boundary; Group 1 (plus digit); star space] (word "car").

(** [[A-Z][a-z]+(?:\s+[A-Z][a-z]+)*] *)
Definition capitalized_phrase : regex :=
  Cat capitalized (star (Cat (plus space) capitalized)).

(** A capitalized phrase (group 1), [\s+], then [restaurant]. *)
Definition restaurant_pattern : regex :=
  seq [Group 1 capitalized_phrase; plus space] (word "restaurant").

(** A double quote, one or more characters other than a double quote
    (group 1), a double quote. *)
Definition quoted_pattern : regex :=
  seq [Lit Chr.dquote; Group 1 (plus (Class (fun c => negb (Ascii.eqb c Chr.dquote))))]
      (Lit Chr.dquote).

(** A capitalized phrase as group 1. *)
Definition restaurant_name_pattern : regex := Group 1 capitalized_phrase.

End Patterns.

Definition common_words : list string :=
  ["When"; "What"; "How"; "Where"; "Who"; "Why"; "The"; "Is"; "Are"; "Does";
   "Have"; "Has"; "Her"; "His"; "Their"; "Planning"; "Many"; "Favorite"].

(** The candidate names of a question: the matches of [name_pattern]
    that are not in [common_words]. *)
Definition extract_names (question : string) : list string :=
  filter (fun n => negb (Str.mem n common_words))
         (Re.findall_str false Patterns.name_pattern question).

Section Program.

(** [set_iter l] is the order in which Python iterates [set(l)] (for a
    set built by adding the elements of [l] one after the other).  The
    language leaves it open; it enumerates the distinct elements. *)
Variable set_iter : list string -> list string.

Definition set_iter_spec : Prop :=
  forall l, NoDup (set_iter l) /\ (forall x, In x (set_iter l) <-> In x l).

(** *** Relevance filter (the loop of lines 92-99) *)

Definition name_matches (names : list string) (user_name message_text : string) : bool :=
  existsb (fun name => Str.contains (Str.lower name) user_name
                       || Str.contains (Str.lower name) message_text) names.

Fixpoint filter_by_names (names : list string) (messages : list pyval)
    : result (list pyval) :=
  match messages with
  | [] => Ok []
  | msg :: rest =>
      match msg with
      | PDict d =>
          user_name <- Py.lower (Py.get d "user_name" (PStr EmptyString)) ;;
          message_text <- Py.lower (Py.get d "message" (PStr EmptyString)) ;;
          relevant <- filter_by_names names rest ;;
          Ok (if name_matches names user_name message_text
              then msg :: relevant else relevant)
      | _ => filter_by_names names rest
      end
  end.

Definition relevant_messages (names : list string) (messages : list pyval)
    : result (list pyval) :=
  match names with
  | [] => Ok (filter Py.is_dict messages)
  | _ => filter_by_names names messages
  end.

Definition name_display (names : list string) : string :=
  match names with
  | n :: _ => n
  | [] => "the member"
  end.

(** *** Trip/London (lines 106-131) *)

Definition find_dates (message_text : string) : list Re.found :=
  flat_map (fun pattern => Re.findall true pattern message_text)
           Patterns.date_patterns.

(** What the branch returns for a message that mentions London. *)
Definition trip_message (who : string) (d : items_t) (message_text : string)
    : result string :=
  match find_dates message_text with
  | date :: _ =>
      Ok (who ++ " is planning a trip to London on " ++ Re.str date ++ ".")
  | [] =>
      let timestamp := Py.get d "timestamp" (PStr EmptyString) in
      if Py.truthy timestamp then
        prefix <- Py.slice_to 10 timestamp ;;
        Ok (who ++ " has a trip to London mentioned. Message timestamp: "
                ++ Py.str prefix ++ ".")
      else Ok (who ++ " has a trip to London mentioned in their messages.")
  end.

Fixpoint trip_answer (who : string) (relevant : list pyval) : result string :=
  match relevant with
  | [] =>
      Ok ("I couldn't find information about " ++ who
            ++ "'s trip to London in the data.")
  | msg :: rest =>
      match msg with
      | PDict d =>
          let message_text := Py.get d "message" (PStr EmptyString) in
          msg_lower <- Py.lower message_text ;;
          if Str.contains "london" msg_lower
          then trip_message who d (Py.str message_text)
          else trip_answer who rest
      | _ => trip_answer who rest
      end
  end.

(** *** Cars (lines 134-152) *)

(** The running count after one message whose lower-cased text is
    [msg_lower]. *)
Definition car_step (car_count : Z) (msg_lower : string) : result Z :=
  if Str.contains "car" msg_lower then
    match Re.findall_str false Patterns.car_number msg_lower with
    | number :: _ =>
        stated <- Py.int_of_str number ;;
        Ok (Z.max car_count stated)
    | [] => Ok (car_count + 1)%Z
    end
  else Ok car_count.

Fixpoint car_count_from (car_count : Z) (relevant : list pyval) : result Z :=
  match relevant with
  | [] => Ok car_count
  | msg :: rest =>
      match msg with
      | PDict d =>
          msg_lower <- Py.lower (Py.get d "message" (PStr EmptyString)) ;;
          car_count' <- car_step car_count msg_lower ;;
          car_count_from car_count' rest
      | _ => car_count_from car_count rest
      end
  end.

Definition car_answer (who : string) (relevant : list pyval) : result string :=
  car_count <- car_count_from 0%Z relevant ;;
  if (0 <? car_count)%Z
  then
    shown <- Py.str_of_int car_count ;;
    Ok (who ++ " has " ++ shown ++ " car(s) mentioned in the data.")
  else Ok ("I couldn't find information about " ++ who ++ "'s cars in the data.").

(** *** Restaurants (lines 155-179) *)

(** The candidates one message adds. *)
Definition restaurant_candidates (message_text : string) : list string :=
  Re.findall_str false Patterns.restaurant_pattern message_text
  ++ filter (fun q => Str.contains "restaurant" (Str.lower q))
            (Re.findall_str false Patterns.quoted_pattern message_text)
  ++ filter (fun n => (List.length (Str.split n) <=? 3)%nat)
            (Re.findall_str false Patterns.restaurant_name_pattern message_text).

Fixpoint restaurants_from (relevant : list pyval) : result (list string) :=
  match relevant with
  | [] => Ok []
  | msg :: rest =>
      match msg with
      | PDict d =>
          let message_text := Py.get d "message" (PStr EmptyString) in
          msg_lower <- Py.lower message_text ;;
          more <- restaurants_from rest ;;
          Ok (if Str.contains "restaurant" msg_lower
              then (restaurant_candidates (Py.str message_text) ++ more)%list
              else more)
      | _ => restaurants_from rest
      end
  end.

Definition restaurant_answer (who : string) (relevant : list pyval) : result string :=
  restaurants <- restaurants_from relevant ;;
  match restaurants with
  | [] =>
      Ok ("I couldn't find specific restaurant information for " ++ who
            ++ " in the data.")
  | _ =>
      let unique_restaurants := firstn 5 (set_iter restaurants) in
      Ok (who ++ "'s favorite restaurants include: "
              ++ Str.join ", " unique_restaurants ++ ".")
  end.

(** *** Generic fallback (lines 182-185) *)

Definition fallback_answer (who : string) (relevant : list pyval) : string :=
  match relevant with
  | [] => "I don't have enough information to answer that question."
  | _ =>
      "I found " ++ Str.of_nat (List.length relevant) ++ " message(s) related to "
        ++ who ++ ", but couldn't extract a specific answer."
  end.

(** *** [answer_question_simple] *)

Definition answer_question_simple (question : string) (messages : list pyval)
    : result string :=
  let question_lower := Str.lower question in
  let names := extract_names question in
  relevant <- relevant_messages names messages ;;
  let who := name_display names in
  if Str.contains "trip" question_lower || Str.contains "london" question_lower
  then trip_answer who relevant
  else if Str.contains "car" question_lower || Str.contains "cars" question_lower
  then car_answer who relevant
  else if Str.contains "restaurant" question_lower
          || Str.contains "favorite" question_lower
  then restaurant_answer who relevant
  else Ok (fallback_answer who relevant).

End Program.

(** *** The [/ask] endpoint *)

(** What a request gets back: the body of a 200 response, or the status
    code of the [HTTPException] raised (its detail text is left out). *)
Inductive response : Type :=
| AnswerResponse (answer : string)
| HTTPException (status_code : nat).

(** The [DataFetcher]: its [_cache] ([PNone] until a fetch succeeds),
    and the number of GET requests it has sent so far. *)
Record fetcher : Type := {
  cache : pyval;
  requests_sent : nat
}.

Definition is_none (v : pyval) : bool :=
  match v with PNone => true | _ => false end.

(** [fetch_messages].  [reply] is what the GET would bring back: the
    decoded body, or [None] when the request, the status check or the
    decoding raises.  The result is [None] when [HTTPException(503)] is
    raised. *)
Definition fetch_messages (reply : option pyval) (force_refresh : bool)
    (f : fetcher) : option pyval * fetcher :=
  if is_none (cache f) || force_refresh then
    match reply with
    | None => (None, {| cache := cache f; requests_sent := S (requests_sent f) |})
    | Some data =>
        let items :=
          match data with
          | PDict d => if Py.has_key d "items" then Py.get d "items" PNone
                       else PList [data]
          | PList _ => data
          | _ => PList [data]
          end in
        (Some items, {| cache := items; requests_sent := S (requests_sent f) |})
    end
  else (Some (cache f), f).

Section Endpoint.

Variable set_iter : list string -> list string.

(** [answer_question]: the messages are whatever the cache holds. *)
Definition answer_question (question : string) (messages : pyval) : result string :=
  msgs <- Py.iter messages ;;
  answer_question_simple set_iter question msgs.

(** [ask_question], the handler of [POST /ask]. *)
Definition ask_question (reply : option pyval) (question : string) (f : fetcher)
    : response * fetcher :=
  if String.eqb question EmptyString || String.eqb (Str.strip question) EmptyString
  then (HTTPException 400, f)
  else
    match fetch_messages reply false f with
    | (None, f') => (HTTPException 503, f')
    | (Some messages, f') =>
        if negb (Py.truthy messages)
        then (AnswerResponse "No member data available at the moment.", f')
        else
          match answer_question question messages with
          | Ok answer => (AnswerResponse answer, f')
          | Raise _ => (HTTPException 500, f')
          end
    end.

End Endpoint.

(** ** [json.dumps] *)

Module Json.

(** One character of a string literal ([ensure_ascii] is on): the
    printable ASCII characters stand for themselves, the others are
    escaped. *)
Definition escape_char (c : ascii) : string :=
  if Ascii.eqb c Chr.dquote then String "\" (String Chr.dquote EmptyString)
  else if Ascii.eqb c "\" then "\\"
  else if Ascii.eqb c "010" then "\n"
  else if Ascii.eqb c "013" then "\r"
  else if Ascii.eqb c "009" then "\t"
  else if Ascii.eqb c "008" then "\b"
  else if Ascii.eqb c "012" then "\f"
  else if Chr.between 32 126 c then String c EmptyString
  else "\u00" ++ Py.hex2 c.

Fixpoint escape (s : string) : string :=
  match s with
  | EmptyString => EmptyString
  | String c s' => escape_char c ++ escape s'
  end.

Definition quote (s : string) : string :=
  String Chr.dquote (escape s ++ String Chr.dquote EmptyString).

Definition float_text (r : string) : string :=
  if String.eqb r "nan" then "NaN"
  else if String.eqb r "inf" then "Infinity"
  else if String.eqb r "-inf" then "-Infinity"
  else r.

(** Order of the keys: code point by code point. *)
Definition key_le (a b : string) : bool :=
  match String_as_OT.compare a b with
  | Gt => false
  | _ => true
  end.

(** Stable insertion sort of entries by key. *)
Fixpoint insert_entry (e : string * string) (l : list (string * string))
    : list (string * string) :=
  match l with
  | [] => [e]
  | e' :: l' => if key_le (fst e) (fst e') then e :: l else e' :: insert_entry e l'
  end.

Fixpoint sort_entries (l : list (string * string)) : list (string * string) :=
  match l with
  | [] => []
  | e :: l' => insert_entry e (sort_entries l')
  end.

Definition member (e : string * string) : string :=
  quote (fst e) ++ ": " ++ snd e.

(** [json.dumps(v, sort_keys=sort_keys)] with the default separators.
    The values of a dict are serialized, then the entries are put in
    key order when [sort_keys] is set. *)
Fixpoint dumps (sort_keys : bool) (v : pyval) : string :=
  match v with
  | PNone => "null"
  | PBool true => "true"
  | PBool false => "false"
  | PInt z => Str.of_Z z
  | PFloat r => float_text r
  | PStr s => quote s
  | PList l => "[" ++ Str.join ", " (map (dumps sort_keys) l) ++ "]"
  | PDict d =>
      let entries := map (fun kv => (fst kv, dumps sort_keys (snd kv))) d in
      "{" ++ Str.join ", "
               (map member (if sort_keys then sort_entries entries else entries))
          ++ "}"
  end.

End Json.

(** ** [analyze_data.py]: the report builder *)

(** An entry of [findings["anomalies"]]:
    - ["Message {i} is not a dictionary: {type(msg)}"],
    - ["Found {duplicates} duplicate messages"]. *)
Inductive anomaly : Type :=
| NotADictionary (i : nat) (type : string)
| DuplicateMessages (duplicates : nat).

(** An entry of [findings["inconsistencies"]]:
    - ["Field '{field}' has inconsistent types: {list(types)}"],
    - ["Field '{field}' only appears in {presence_rate*100:.1f}% of
      messages"], kept as the field with its count and the total,
    - ["Found {len(empty_fields)} fields with empty/null values"]. *)
Inductive inconsistency : Type :=
| InconsistentTypes (field : string) (types : list string)
| LowPresence (field : string) (count total : nat)
| EmptyValues (fields : nat).

Record statistics_t : Type := {
  total_fields : nat;
  field_frequency : list (string * nat);
  field_type_variations : list (string * list string);
  unique_members_found : nat;
  date_entries : nat;
  empty_field_counts : option (list (string * nat))
}.

(** The findings object; [statistics] is [None] for the empty dict the
    function starts with. *)
Record findings : Type := {
  total_messages : nat;
  anomalies : list anomaly;
  statistics : option statistics_t;
  inconsistencies : list inconsistency
}.

(** [counts[key] += 1] on a [defaultdict(int)]. *)
Fixpoint incr (key : string) (counts : list (string * nat)) : list (string * nat) :=
  match counts with
  | [] => [(key, 1)]
  | (k, n) :: rest =>
      if String.eqb k key then (k, S n) :: rest else (k, n) :: incr key rest
  end.

(** [counts[key]]. *)
Fixpoint count_of (counts : list (string * nat)) (key : string) : nat :=
  match counts with
  | [] => 0
  | (k, n) :: rest => if String.eqb k key then n else count_of rest key
  end.

(** [s.add(x)] on a set kept as the sequence of its first insertions. *)
Definition set_add (x : string) (s : list string) : list string :=
  if Str.mem x s then s else (s ++ [x])%list.

(** [types[key].add(ty)] on a [defaultdict(set)]. *)
Fixpoint add_type (key ty : string) (types : list (string * list string))
    : list (string * list string) :=
  match types with
  | [] => [(key, [ty])]
  | (k, s) :: rest =>
      if String.eqb k key then (k, set_add ty s) :: rest
      else (k, s) :: add_type key ty rest
  end.

(** The variables of the first loop. *)
Record tally : Type := {
  field_counts : list (string * nat);
  field_types : list (string * list string);
  member_names : list string;
  dates : list pyval;
  not_dicts : list anomaly
}.

Definition empty_tally : tally :=
  {| field_counts := []; field_types := []; member_names := []; dates := [];
     not_dicts := [] |}.

(** Lines 58-60 for one key of [msg]. *)
Definition track_key (d : items_t) (t : tally) (key : string) : tally :=
  {| field_counts := incr key (field_counts t);
     field_types := add_type key (Py.type_name (Py.get d key PNone)) (field_types t);
     member_names := member_names t;
     dates := dates t;
     not_dicts := not_dicts t |}.

(** Lines 65-68. *)
Definition track_member (d : items_t) (key : string) (names : list string)
    : list string :=
  if Py.has_key d key then set_add (Py.str (Py.get d key PNone)) names else names.

(** Lines 71-74 for one item of [msg]. *)
Definition track_date (found : list pyval) (kv : string * pyval) : list pyval :=
  if Str.contains "date" (Str.lower (fst kv)) || Str.contains "time" (Str.lower (fst kv))
  then if Py.truthy (snd kv) then (found ++ [snd kv])%list else found
  else found.

(** The body of the first loop (lines 51-74) for message [i].  Line 63
    builds a lower-cased serialization of the message that is never
    read; it is left out. *)
Definition tally_message (t : tally) (i : nat) (msg : pyval) : tally :=
  match msg with
  | PDict d =>
      let t1 := fold_left (track_key d) (map fst d) t in
      {| field_counts := field_counts t1;
         field_types := field_types t1;
         member_names := track_member d "member" (track_member d "name" (member_names t1));
         dates := fold_left track_date d (dates t1);
         not_dicts := not_dicts t1 |}
  | _ =>
      {| field_counts := field_counts t;
         field_types := field_types t;
         member_names := member_names t;
         dates := dates t;
         not_dicts := (not_dicts t
                       ++ [NotADictionary i ("<class '" ++ Py.type_name msg ++ "'>")])%list |}
  end.

Fixpoint tally_from (t : tally) (i : nat) (messages : list pyval) : tally :=
  match messages with
  | [] => t
  | msg :: rest => tally_from (tally_message t i msg) (S i) rest
  end.

(** [value is None or value == "" or (isinstance(value, list) and
    len(value) == 0)]. *)
Definition is_empty_value (v : pyval) : bool :=
  match v with
  | PNone => true
  | PStr EmptyString => true
  | PList [] => true
  | _ => false
  end.

Definition count_empty (counts : list (string * nat)) (kv : string * pyval)
    : list (string * nat) :=
  if is_empty_value (snd kv) then incr (fst kv) counts else counts.

(** The third check (lines 102-106): [msg.items()] is called on every
    entry of [messages]. *)
Fixpoint empty_fields_from (counts : list (string * nat)) (messages : list pyval)
    : result (list (string * nat)) :=
  match messages with
  | [] => Ok counts
  | msg :: rest =>
      match msg with
      | PDict d => empty_fields_from (fold_left count_empty d counts) rest
      | _ => Raise AttributeError
      end
  end.

(** [field_counts[field] / len(messages)].  The quotient of two ints is
    the double nearest to the exact quotient, kept here as the exact
    rational: rounding to nearest is monotone and [0.5] is a double, so
    comparing with [0.5] gives the same answer (the two can differ only
    when the exact quotient is within [2^-54] of one half, which needs
    more than [2^53] messages). *)
Definition presence_rate (count total : nat) : Q :=
  Z.of_nat count # Pos.of_nat total.

(** [presence_rate < 0.5]. *)
Definition below_half (rate : Q) : bool := negb (Qle_bool (1 # 2) rate).

(** [len(message_strings) - len(set(message_strings))]. *)
Definition duplicate_count (message_strings : list string) : nat :=
  List.length message_strings - List.length (nodup string_dec message_strings).

Section Report.

Variable set_iter : list string -> list string.

(** The first check (lines 86-90). *)
Definition type_inconsistencies (types : list (string * list string))
    : list inconsistency :=
  flat_map (fun ft => if (1 <? List.length (snd ft))%nat
                      then [InconsistentTypes (fst ft) (set_iter (snd ft))]
                      else []) types.

(** The second check (lines 93-99). *)
Definition presence_inconsistencies (counts : list (string * nat)) (total : nat)
    : list inconsistency :=
  flat_map (fun field =>
              if below_half (presence_rate (count_of counts field) total)
              then [LowPresence field (count_of counts field) total]
              else [])
           (set_iter (map fst counts)).

(** Lines 44-120, for a list that is not empty. *)
Definition analyze_messages (messages : list pyval) : result findings :=
  let t := tally_from empty_tally 0 messages in
  let checks12 :=
    (type_inconsistencies (field_types t)
     ++ presence_inconsistencies (field_counts t) (List.length messages))%list in
  empty_fields <- empty_fields_from [] messages ;;
  let duplicates := duplicate_count (map (Json.dumps true) messages) in
  Ok {| total_messages := List.length messages;
        anomalies :=
          (not_dicts t
           ++ (if (0 <? duplicates)%nat then [DuplicateMessages duplicates] else []))%list;
        statistics :=
          Some {| total_fields := List.length (field_counts t);
                  field_frequency := field_counts t;
                  field_type_variations :=
                    map (fun ft => (fst ft, set_iter (snd ft))) (field_types t);
                  unique_members_found := List.length (member_names t);
                  date_entries := List.length (dates t);
                  empty_field_counts :=
                    match empty_fields with [] => None | _ => Some empty_fields end |};
        inconsistencies :=
          (checks12
           ++ match empty_fields with
              | [] => []
              | _ => [EmptyValues (List.length empty_fields)]
              end)%list |}.

Definition analyze_data (messages : list pyval) : result findings :=
  match messages with
  | [] =>
      Ok {| total_messages := 0; anomalies := []; statistics := None;
            inconsistencies := [] |}
  | _ => analyze_messages messages
  end.

End Report.

(** ** The rest of [main.py] *)

(** [DataFetcher.get_messages]. *)
Definition get_messages (f : fetcher) : pyval := cache f.

(** [startup_event]: one fetch; a failure is printed and dropped. *)
Definition startup_event (reply : option pyval) (f : fetcher) : fetcher :=
  snd (fetch_messages reply false f).

(** ** The rest of [analyze_data.py] *)

(** [fetch_messages] of the script: the items of the envelope, the list
    itself, or the value in a list; the empty list when anything raises
    (the error is printed). *)
Definition fetch_report_messages (reply : option pyval) : pyval :=
  match reply with
  | None => PList []
  | Some data =>
      match data with
      | PDict d => if Py.has_key d "items" then Py.get d "items" PNone
                   else PList [data]
      | PList _ => data
      | _ => PList [data]
      end
  end.

(** How a run of the script ends: [exit(1)], the findings that are
    printed and saved, or an exception that is not caught. *)
Inductive run : Type :=
| Exit1
| Findings (f : findings)
| Uncaught (e : exn).

(** [sorted(freq.items(), key=lambda x: x[1], reverse=True)]: by count,
    largest first; fields with the same count stay in the order they had. *)
Fixpoint insert_by_count (e : string * nat) (l : list (string * nat))
    : list (string * nat) :=
  match l with
  | [] => [e]
  | e' :: l' => if (snd e' <=? snd e)%nat then e :: l else e' :: insert_by_count e l'
  end.

Fixpoint sort_by_count (l : list (string * nat)) : list (string * nat) :=
  match l with
  | [] => []
  | e :: l' => insert_by_count e (sort_by_count l')
  end.

(** The fields [print_findings] lists (lines 135-139): [sorted_fields[:10]]. *)
Definition top_fields (field_frequency : list (string * nat)) : list (string * nat) :=
  firstn 10 (sort_by_count field_frequency).

Section Script.

Variable set_iter : list string -> list string.

(** The [__main__] block (lines 158-173).  The fetched value need not be
    a list: [len] and the loops of [analyze_data] take a str or a dict as
    well and raise [TypeError] on the other values. *)
Definition main_script (reply : option pyval) : run :=
  let messages := fetch_report_messages reply in
  if negb (Py.truthy messages) then Exit1
  else
    match (msgs <- Py.iter messages ;; analyze_data set_iter msgs) with
    | Ok f => Findings f
    | Raise e => Uncaught e
    end.

End Script.

(** * Vocabulary of the statements *)

(** One admissible iteration order of a set of strings. *)
Definition listed_order (l : list string) : list string := nodup string_dec l.

(** ** Matchers *)

Definition matcher : Type :=
  option ascii -> string -> Re.captures -> Re.cont -> Re.outcome.

(** A matcher uses its continuation only through its values ... *)
Definition extensional (body : matcher) : Prop :=
  forall prev s caps k1 k2,
    (forall prev' s' caps', k1 prev' s' caps' = k2 prev' s' caps') ->
    body prev s caps k1 = body prev s caps k2.

(** ... and accepts only what its continuation accepts. *)
Definition refusing (body : matcher) : Prop :=
  forall prev s caps k,
    (forall prev' s' caps', k prev' s' caps' = None) ->
    body prev s caps k = None.

(** ** Records *)

Definition is_list (v : pyval) : bool :=
  match v with PList _ => true | _ => false end.

(** A mapping is readable when its [user_name] and [message] are absent
    or strings and its [timestamp] is absent, falsy, a string or a
    list.  An entry that is not a mapping is skipped, hence readable. *)
Definition readable (msg : pyval) : bool :=
  match msg with
  | PDict d =>
      Py.is_str (Py.get d "user_name" (PStr EmptyString))
      && Py.is_str (Py.get d "message" (PStr EmptyString))
      && (let timestamp := Py.get d "timestamp" (PStr EmptyString) in
          Py.is_str timestamp || is_list timestamp || negb (Py.truthy timestamp))
  | _ => true
  end.


(** Distinct keys, as in any dict. *)
Fixpoint distinct (keys : list string) : bool :=
  match keys with
  | [] => true
  | k :: keys' => negb (Str.mem k keys') && distinct keys'
  end.

(** A well-formed record: a mapping, whose keys are distinct. *)
Definition is_record (msg : pyval) : bool :=
  match msg with
  | PDict d => distinct (map fst d)
  | _ => false
  end.

Definition has_non_mapping (messages : list pyval) : bool :=
  existsb (fun msg => negb (Py.is_dict msg)) messages.

(** ** Answers *)

(** The sentences [answer_question_simple] can return about [who]: for
    each intent what was extracted or that nothing was found, and the
    two generic fallbacks. *)
Inductive sentence (who : string) : string -> Prop :=
| trip_on (date : string) :
    sentence who (who ++ " is planning a trip to London on " ++ date ++ ".")
| trip_timestamp (prefix : string) :
    sentence who (who ++ " has a trip to London mentioned. Message timestamp: "
                      ++ prefix ++ ".")
| trip_mentioned :
    sentence who (who ++ " has a trip to London mentioned in their messages.")
| trip_not_found :
    sentence who ("I couldn't find information about " ++ who
                    ++ "'s trip to London in the data.")
| cars_counted (car_count : Z) :
    (0 < car_count)%Z ->
    sentence who (who ++ " has " ++ Str.of_Z car_count
                      ++ " car(s) mentioned in the data.")
| cars_not_found :
    sentence who ("I couldn't find information about " ++ who
                    ++ "'s cars in the data.")
| restaurants_listed (names : list string) :
    sentence who (who ++ "'s favorite restaurants include: "
                      ++ Str.join ", " names ++ ".")
| restaurants_not_found :
    sentence who ("I couldn't find specific restaurant information for " ++ who
                    ++ " in the data.")
| messages_found (n : nat) :
    0 < n ->
    sentence who ("I found " ++ Str.of_nat n ++ " message(s) related to "
                    ++ who ++ ", but couldn't extract a specific answer.")
| not_enough_information :
    sentence who "I don't have enough information to answer that question.".

(** A result that is an answer: one of the sentences, returned. *)
Definition answers (who : string) (r : result string) : Prop :=
  exists a, r = Ok a /\ sentence who a.

(** A relevant message that the trip loop passes over: its text does not
    mention London. *)
Definition no_london (msg : pyval) : bool :=
  match msg with
  | PDict d =>
      match Py.get d "message" (PStr EmptyString) with
      | PStr s => negb (Str.contains "london" (Str.lower s))
      | _ => false
      end
  | _ => true
  end.


(** ** The report *)

Definition has_field (field : string) (msg : pyval) : bool :=
  match msg with
  | PDict d => Py.has_key d field
  | _ => false
  end.

(** In how many messages the field is present. *)
Definition occurrences (field : string) (messages : list pyval) : nat :=
  List.length (filter (has_field field) messages).

(** The report flags the presence of [field]. *)
Definition flagged (field : string) (l : list inconsistency) : bool :=
  existsb (fun e => match e with
                    | LowPresence f _ _ => String.eqb f field
                    | _ => false
                    end) l.

(** Every stored count is positive, so a field is a key of the counts
    exactly when its count is. *)
Definition positive_counts (counts : list (string * nat)) : Prop :=
  Forall (fun kn => 0 < snd kn) counts.

(** [counts[key] += 1] for each key in turn. *)
Definition incr_all (keys : list string) (counts : list (string * nat))
    : list (string * nat) :=
  fold_left (fun c k => incr k c) keys counts.

(** Entries of a serialized dict in key order. *)
Definition entry : Type := (string * string)%type.

Definition entry_le (e e' : entry) : Prop := Json.key_le (fst e) (fst e') = true.

Definition ordered (l : list entry) : Prop := StronglySorted entry_le l.

(** ** Further vocabulary *)

(** The messages a decoded reply stands for. *)
Definition payload (data : pyval) : pyval := fetch_report_messages (Some data).

(** A question that passes the test of line 218. *)
Definition asks_something (question : string) : bool :=
  negb (Str.forallb Chr.is_space question).

Definition no_data : string := "No member data available at the moment.".

(** The lower-cased text of a field, for a record the filter can read. *)
Definition field_text (d : items_t) (key : string) : string :=
  match Py.get d key (PStr EmptyString) with
  | PStr s => Str.lower s
  | _ => EmptyString
  end.

(** The rule of the relevance filter: a mapping is kept when there is no
    candidate name, or when some candidate name, lower-cased, occurs in
    its lower-cased [user_name] or [message]. *)
Definition is_relevant (names : list string) (msg : pyval) : bool :=
  match msg with
  | PDict d =>
      match names with
      | [] => true
      | _ => name_matches names (field_text d "user_name") (field_text d "message")
      end
  | _ => false
  end.

(** The lower-cased text of a relevant message that mentions "car". *)
Definition car_text (msg : pyval) : option string :=
  match msg with
  | PDict d =>
      match Py.get d "message" (PStr EmptyString) with
      | PStr s => if Str.contains "car" (Str.lower s) then Some (Str.lower s) else None
      | _ => None
      end
  | _ => None
  end.

(** The number a message states before "car", if it states one. *)
Definition stated_number (msg : pyval) : option Z :=
  match car_text msg with
  | Some t =>
      match Re.findall_str false Patterns.car_number t with
      | number :: _ => Some (Str.int_of_digits number)
      | [] => None
      end
  | None => None
  end.

(** A message that mentions "car" without a number before it. *)
Definition plain_mention (msg : pyval) : bool :=
  match car_text msg with
  | Some t =>
      match Re.findall_str false Patterns.car_number t with
      | [] => true
      | _ => false
      end
  | None => false
  end.

(** The digits of that number, as they are written. *)
Definition stated_digits (msg : pyval) : option string :=
  match car_text msg with
  | Some t =>
      match Re.findall_str false Patterns.car_number t with
      | number :: _ => Some number
      | [] => None
      end
  | None => None
  end.

(** A message whose number before "car" has more digits than [int()]
    accepts. *)
Definition long_number (msg : pyval) : bool :=
  match stated_digits msg with
  | Some digits => (Py.int_max_str_digits <? Z.of_nat (String.length digits))%Z
  | None => false
  end.

(** The car intent runs into the digit limit: a relevant message states
    a number that is too long to be read, or the count that the loop
    reaches is too long to be shown. *)
Definition over_digit_limit (relevant : list pyval) : bool :=
  existsb long_number relevant
  || match car_count_from 0 relevant with
     | Ok count => (Py.int_str_bound <=? count)%Z
     | Raise _ => false
     end.

(** A question that is answered by the car intent: it mentions "car"
    and neither "trip" nor "london". *)
Definition asks_about_cars (question : string) : bool :=
  negb (Str.contains "trip" (Str.lower question)
        || Str.contains "london" (Str.lower question))
  && (Str.contains "car" (Str.lower question)
      || Str.contains "cars" (Str.lower question)).

(** A mapping whose [user_name] or [message] holds something else than
    a string. *)
Definition other_type_text (msg : pyval) : bool :=
  match msg with
  | PDict d =>
      negb (Py.is_str (Py.get d "user_name" (PStr EmptyString))
            && Py.is_str (Py.get d "message" (PStr EmptyString)))
  | _ => false
  end.

(** [n] times the character [c]. *)
Definition repeated (c : ascii) (n : nat) : string :=
  string_of_list_ascii (repeat c n).

(** The type name of a field in a message that carries it. *)
Definition field_type (field : string) (msg : pyval) : option string :=
  match msg with
  | PDict d =>
      if Py.has_key d field then Some (Py.type_name (Py.get d field PNone)) else None
  | _ => None
  end.

(** The report flags the types of [field] as inconsistent. *)
Definition types_flagged (field : string) (l : list inconsistency) : bool :=
  existsb (fun e => match e with
                    | InconsistentTypes f _ => String.eqb f field
                    | _ => false
                    end) l.

(** [types[field]], the empty set when the field was never seen. *)
Fixpoint types_of (types : list (string * list string)) (field : string)
    : list string :=
  match types with
  | [] => []
  | (k, s) :: rest => if String.eqb k field then s else types_of rest field
  end.

(** [types[key].add(...)] for each key of [d] in turn. *)
Definition add_types (d : items_t) (keys : list string)
    (types : list (string * list string)) : list (string * list string) :=
  fold_left (fun ty k => add_type k (Py.type_name (Py.get d k PNone)) ty) keys types.

(** The message carries the field with an empty value. *)
Definition has_empty (field : string) (msg : pyval) : bool :=
  match msg with
  | PDict d => Py.has_key d field && is_empty_value (Py.get d field PNone)
  | _ => false
  end.

(** In how many messages the field is empty. *)
Definition empties (field : string) (messages : list pyval) : nat :=
  List.length (filter (has_empty field) messages).

(** The report says that some fields have empty values. *)
Definition empties_flagged (l : list inconsistency) : bool :=
  existsb (fun e => match e with EmptyValues _ => true | _ => false end) l.

(** Listed before: the count is not smaller. *)
Definition count_ge (a b : string * nat) : Prop := snd b <= snd a.

(** ** What a pattern matches *)

(** [x] occurs in [s]. *)
Definition fragment (x s : string) : Prop := exists a b, s = a ++ x ++ b.

(** The character before the position reached after reading [t]. *)
Fixpoint last_of (prev : option ascii) (t : string) : option ascii :=
  match t with
  | EmptyString => prev
  | String c t' => last_of (Some c) t'
  end.

(** [matches ic r prev t rest caps caps']: the pattern [r] can match the
    text [t] when [prev] stands before it and [rest] after it, turning
    the captures [caps] into [caps']. *)
Inductive matches (ic : bool)
    : Re.regex -> option ascii -> string -> string -> Re.captures -> Re.captures -> Prop :=
| m_lit c a prev rest caps :
    Re.chr_eq ic c a = true ->
    matches ic (Re.Lit c) prev (String a EmptyString) rest caps caps
| m_class (p : ascii -> bool) a prev rest caps :
    p a = true ->
    matches ic (Re.Class p) prev (String a EmptyString) rest caps caps
| m_cat r1 r2 prev t1 t2 rest caps caps1 caps2 :
    matches ic r1 prev t1 (t2 ++ rest) caps caps1 ->
    matches ic r2 (last_of prev t1) t2 rest caps1 caps2 ->
    matches ic (Re.Cat r1 r2) prev (t1 ++ t2) rest caps caps2
| m_or_left r1 r2 prev t rest caps caps' :
    matches ic r1 prev t rest caps caps' ->
    matches ic (Re.Or r1 r2) prev t rest caps caps'
| m_or_right r1 r2 prev t rest caps caps' :
    matches ic r2 prev t rest caps caps' ->
    matches ic (Re.Or r1 r2) prev t rest caps caps'
| m_stop hi r prev rest caps :
    matches ic (Re.Repeat 0 hi r) prev EmptyString rest caps caps
| m_more lo hi r prev t1 t2 rest caps caps1 caps2 :
    hi <> Some 0 ->
    t1 <> EmptyString ->
    matches ic r prev t1 (t2 ++ rest) caps caps1 ->
    matches ic (Re.Repeat (pred lo) (option_map pred hi) r) (last_of prev t1) t2 rest
            caps1 caps2 ->
    matches ic (Re.Repeat lo hi r) prev (t1 ++ t2) rest caps caps2
| m_group i r prev t rest caps caps' :
    matches ic r prev t rest caps caps' ->
    matches ic (Re.Group i r) prev t rest caps ((i, t) :: caps')
| m_boundary prev rest caps :
    xorb (Re.is_word_before prev) (Re.is_word_at rest) = true ->
    matches ic Re.Boundary prev EmptyString rest caps caps.

(** A matcher that only accepts what the pattern matches. *)
Definition sound (ic : bool) (r : Re.regex) (body : matcher) : Prop :=
  forall prev s caps k res,
    body prev s caps k = Some res ->
    exists t rest caps',
      s = t ++ rest
      /\ matches ic r prev t rest caps caps'
      /\ k (last_of prev t) rest caps' = Some res.

(** The strings of a [findall] result. *)
Definition found_strings (f : Re.found) : list string :=
  match f with
  | Re.FStr s => [s]
  | Re.FTuple l => l
  end.

(** A word that starts with an upper-case letter [A-Z] followed by a
    lower-case letter [a-z]. *)
Definition capitalized_start (s : string) : Prop :=
  exists a b rest,
    s = String a (String b rest) /\ Chr.is_AZ a = true /\ Chr.is_az b = true.

(** ** Structural identity *)

(** Two JSON values are the same when they differ at most in the order
    of the keys of their mappings, at any depth.  An int and a float
    are different values, as in the serialization. *)
Inductive same : pyval -> pyval -> Prop :=
| same_none : same PNone PNone
| same_bool (b : bool) : same (PBool b) (PBool b)
| same_int (z : Z) : same (PInt z) (PInt z)
| same_float (r : string) : same (PFloat r) (PFloat r)
| same_str (s : string) : same (PStr s) (PStr s)
| same_list (l l' : list pyval) :
    Forall2 same l l' -> same (PList l) (PList l')
| same_dict (d d' reordered : items_t) :
    Permutation d reordered ->
    Forall2 (fun kv kv' => fst kv = fst kv' /\ same (snd kv) (snd kv'))
            reordered d' ->
    same (PDict d) (PDict d').

(** The characters of the [repr] of a finite float. *)
Definition float_char (c : ascii) : bool :=
  Chr.is_digit c || Ascii.eqb c "." || Ascii.eqb c "e"
  || Ascii.eqb c "+" || Ascii.eqb c "-".

(** What the [repr] of a float looks like: "nan", "inf", "-inf", or
    digits with a point or an exponent. *)
Definition is_float_repr (r : string) : bool :=
  String.eqb r "nan" || String.eqb r "inf" || String.eqb r "-inf"
  || (Str.forallb float_char r
      && Str.existsb (fun c => Ascii.eqb c "." || Ascii.eqb c "e") r).

(** A value as the decoder builds it: the keys of a mapping are
    distinct, and a float carries a [repr]. *)
Fixpoint is_json (v : pyval) : bool :=
  match v with
  | PFloat r => is_float_repr r
  | PList l => forallb is_json l
  | PDict d => distinct (map fst d) && forallb (fun kv => is_json (snd kv)) d
  | _ => true
  end.

(** A message of the data set: a mapping that the decoder built. *)
Definition json_record (msg : pyval) : bool := Py.is_dict msg && is_json msg.

(** What can follow a value inside a serialization: nothing, or a
    comma, a closing bracket or a closing brace. *)
Definition is_stop (c : ascii) : bool :=
  Ascii.eqb c "," || Ascii.eqb c "]" || Ascii.eqb c "}".

Definition ends (s : string) : bool :=
  match s with
  | EmptyString => true
  | String c _ => is_stop c
  end.

(** A text that is not empty and does not begin like an end. *)
Definition begins (s : string) : bool :=
  match s with
  | EmptyString => false
  | String c _ => negb (is_stop c)
  end.

(** The characters of the text of an int. *)
Definition int_char (c : ascii) : bool := Chr.is_digit c || Ascii.eqb c "-".

(** The characters of the text of a number. *)
Definition number_char (c : ascii) : bool :=
  float_char c || Str.existsb (Ascii.eqb c) "NaInfinity".

(** Two texts that differ at a place where both have a character:
    neither is the beginning of the other. *)
Fixpoint diverge (a b : string) : bool :=
  match a, b with
  | String x a', String y b' => negb (Ascii.eqb x y) || diverge a' b'
  | _, _ => false
  end.

(** Every character. *)
Definition all_ascii : list ascii := map ascii_of_nat (seq 0 256).

(** What follows the first item of a serialized sequence [l] that is
    closed by [close] and followed by [s]. *)
Definition after_item (A : Type) (item : A -> string) (close : ascii)
    (l : list A) (s : string) : string :=
  match l with
  | [] => String close s
  | _ => ", " ++ Str.join ", " (map item l) ++ String close s
  end.

(** The kind of a value, and the kind that the first character of a
    serialization announces. *)
Definition kind (v : pyval) : nat :=
  match v with
  | PNone => 0
  | PBool _ => 1
  | PInt _ | PFloat _ => 2
  | PStr _ => 3
  | PList _ => 4
  | PDict _ => 5
  end.

Definition kind_of_char (c : ascii) : nat :=
  if Ascii.eqb c "n" then 0
  else if Ascii.eqb c "t" || Ascii.eqb c "f" then 1
  else if float_char c || Ascii.eqb c "N" || Ascii.eqb c "I" then 2
  else if Ascii.eqb c Chr.dquote then 3
  else if Ascii.eqb c "[" then 4
  else if Ascii.eqb c "{" then 5
  else 6.

(** An entry of a mapping with its value serialized. *)
Definition serialized (kv : string * pyval) : string * string :=
  (fst kv, Json.dumps true (snd kv)).

(** * Properties *)

(** ** Strings *)

Lemma append_nonempty_r (s t : string) : t <> EmptyString -> s ++ t <> EmptyString.
Proof. destruct s; simpl; [auto | discriminate]. Qed.

Lemma append_nonempty_l (s t : string) : s <> EmptyString -> s ++ t <> EmptyString.
Proof. destruct s; simpl; [intro H; now elim H | discriminate]. Qed.

Lemma append_nonempty_mid (a b c : string) :
  b <> EmptyString -> a ++ b ++ c <> EmptyString.
Proof. intro H. apply append_nonempty_r, append_nonempty_l, H. Qed.

(** Closes a goal [s <> EmptyString] for a sentence with a literal
    part. *)
Ltac nonempty :=
  first [ discriminate
        | apply append_nonempty_l; discriminate
        | apply append_nonempty_r; discriminate
        | apply append_nonempty_mid; discriminate ].

Lemma append_assoc (a b c : string) : (a ++ b) ++ c = a ++ (b ++ c).
Proof. induction a; simpl; congruence. Qed.

Lemma append_empty_r (s : string) : s ++ EmptyString = s.
Proof. induction s; simpl; congruence. Qed.

Lemma prefix_append (n t : string) : prefix n (n ++ t) = true.
Proof.
  induction n as [|c n IH]; simpl.
  - destruct t; reflexivity.
  - destruct (ascii_dec c c) as [_|ne]; [exact IH | now elim ne].
Qed.

Lemma contains_here (n t : string) : Str.contains n (n ++ t) = true.
Proof.
  assert (H : forall h, prefix n h = true -> Str.contains n h = true).
  { intros h Hp. destruct h; cbn [Str.contains]; rewrite Hp; reflexivity. }
  apply H, prefix_append.
Qed.

Lemma contains_append (a n t : string) : Str.contains n (a ++ n ++ t) = true.
Proof.
  induction a as [|c a IH].
  - cbn [append]. apply contains_here.
  - cbn [append Str.contains]. rewrite IH. apply orb_true_r.
Qed.

Lemma listed_order_spec : set_iter_spec listed_order.
Proof.
  intro l. split.
  - apply NoDup_nodup.
  - intro x. apply nodup_In.
Qed.

(** ** The matcher *)

Module ReFacts.
Import Re.

Lemma greedy_ext (body : matcher) :
  extensional body ->
  forall fuel k1 k2 lo hi prev s caps,
    (forall prev' s' caps', k1 prev' s' caps' = k2 prev' s' caps') ->
    greedy body k1 fuel lo hi prev s caps = greedy body k2 fuel lo hi prev s caps.
Proof.
  intros Hb fuel. induction fuel as [|fuel IH]; intros k1 k2 lo hi prev s caps Hk.
  - simpl. rewrite Hk. reflexivity.
  - cbn [greedy]. rewrite Hk.
    rewrite (Hb prev s caps _
               (fun prev' s' caps' =>
                  if (String.length s' <? String.length s)%nat
                  then greedy body k2 fuel (pred lo) (option_map pred hi) prev' s' caps'
                  else None)); [reflexivity|].
    intros p' s' c'. destruct (String.length s' <? String.length s)%nat; auto.
Qed.

Lemma greedy_refusing (body : matcher) :
  refusing body ->
  forall fuel k lo hi prev s caps,
    (forall prev' s' caps', k prev' s' caps' = None) ->
    greedy body k fuel lo hi prev s caps = None.
Proof.
  intros Hb fuel. induction fuel as [|fuel IH]; intros k lo hi prev s caps Hk.
  - simpl. rewrite Hk. destruct lo; reflexivity.
  - cbn [greedy]. rewrite Hk.
    rewrite Hb.
    + destruct hi as [[|h]|], lo; reflexivity.
    + intros p' s' c'. destruct (String.length s' <? String.length s)%nat; auto.
Qed.

Lemma rmatch_ext (ic : bool) (r : regex) : extensional (rmatch ic r).
Proof.
  induction r as [c|p|r1 IH1 r2 IH2|r1 IH1 r2 IH2|lo hi r IH|i r IH|];
    intros prev s caps k1 k2 Hk; cbn [rmatch].
  - destruct s; [reflexivity|]. rewrite Hk. reflexivity.
  - destruct s; [reflexivity|]. rewrite Hk. reflexivity.
  - apply IH1. intros. apply IH2, Hk.
  - rewrite (IH1 _ _ _ k1 k2 Hk), (IH2 _ _ _ k1 k2 Hk). reflexivity.
  - apply greedy_ext; assumption.
  - apply IH. intros. apply Hk.
  - rewrite Hk. reflexivity.
Qed.

Lemma rmatch_refusing (ic : bool) (r : regex) : refusing (rmatch ic r).
Proof.
  induction r as [c|p|r1 IH1 r2 IH2|r1 IH1 r2 IH2|lo hi r IH|i r IH|];
    intros prev s caps k Hk; cbn [rmatch].
  - destruct s; [reflexivity|]. rewrite Hk. destruct (chr_eq ic c a); reflexivity.
  - destruct s; [reflexivity|]. rewrite Hk. destruct (p a); reflexivity.
  - apply IH1. intros. apply IH2, Hk.
  - rewrite (IH1 _ _ _ k Hk), (IH2 _ _ _ k Hk). reflexivity.
  - apply greedy_refusing; assumption.
  - apply IH. intros. apply Hk.
  - rewrite Hk. destruct (xorb _ _); reflexivity.
Qed.

(** The loop at a position where nothing is left stops at once. *)
Lemma greedy_at_end (body : matcher) (k : cont) :
  refusing body ->
  forall fuel lo hi prev s caps,
    String.length s = 0 ->
    greedy body k fuel lo hi prev s caps
    = match lo with O => k prev s caps | S _ => None end.
Proof.
  intros Hb fuel lo hi prev s caps Hs.
  destruct fuel as [|fuel]; [reflexivity|].
  cbn [greedy]. rewrite Hb.
  - destruct hi as [[|h]|]; reflexivity.
  - intros p' s' c'. rewrite Hs. reflexivity.
Qed.

(** With as much fuel as characters left, the loop does not depend on
    the fuel: it never stops for lack of it. *)
Lemma greedy_fuel (body : matcher) (k : cont) :
  extensional body -> refusing body ->
  forall fuel fuel' lo hi prev s caps,
    String.length s <= fuel -> String.length s <= fuel' ->
    greedy body k fuel lo hi prev s caps = greedy body k fuel' lo hi prev s caps.
Proof.
  intros He Hr fuel.
  induction fuel as [|fuel IH]; intros fuel' lo hi prev s caps H H'.
  - rewrite !greedy_at_end by (auto; lia). reflexivity.
  - destruct fuel' as [|fuel'].
    + rewrite !greedy_at_end by (auto; lia). reflexivity.
    + cbn [greedy].
      rewrite (He prev s caps _
                 (fun prev' s' caps' =>
                    if (String.length s' <? String.length s)%nat
                    then greedy body k fuel' (pred lo) (option_map pred hi)
                                prev' s' caps'
                    else None)); [reflexivity|].
      intros p' s' c'.
      destruct (Nat.ltb_spec (String.length s') (String.length s)); [|reflexivity].
      apply IH; lia.
Qed.

(** The equation of a greedy repetition, free of fuel: unless the upper
    bound is reached, try the body followed by the repetition with one
    iteration less to make (the body having consumed something); if that
    fails, or the bound is reached, go on with the rest when the lower
    bound is met. *)
Theorem rmatch_repeat (ic : bool) (lo : nat) (hi : option nat) (r : regex)
    (prev : option ascii) (s : string) (caps : captures) (k : cont) :
  rmatch ic (Repeat lo hi r) prev s caps k
  = let stop := match lo with O => k prev s caps | S _ => None end in
    match hi with
    | Some O => stop
    | _ =>
        match rmatch ic r prev s caps
                (fun prev' s' caps' =>
                   if (String.length s' <? String.length s)%nat
                   then rmatch ic (Repeat (pred lo) (option_map pred hi) r)
                               prev' s' caps' k
                   else None) with
        | Some res => Some res
        | None => stop
        end
    end.
Proof.
  cbn [rmatch]. cbv zeta.
  destruct s as [|a s].
  - rewrite greedy_at_end by (auto using rmatch_refusing).
    rewrite (rmatch_refusing ic r) by reflexivity.
    destruct hi as [[|h]|]; reflexivity.
  - cbn [String.length greedy].
    rewrite (rmatch_ext ic r prev (String a s) caps _
               (fun prev' s' caps' =>
                  if (String.length s' <? S (String.length s))%nat
                  then greedy (rmatch ic r) k (String.length s') (pred lo)
                              (option_map pred hi) prev' s' caps'
                  else None)); [reflexivity|].
    intros p' s' c'.
    destruct (Nat.ltb_spec (String.length s') (S (String.length s))); [|reflexivity].
    apply greedy_fuel; auto using rmatch_ext, rmatch_refusing; lia.
Qed.

(** The scan does not depend on its fuel either. *)
Lemma scan_fuel (ic : bool) (r : regex) :
  forall fuel fuel' prev s,
    String.length s < fuel -> String.length s < fuel' ->
    scan fuel ic r prev s = scan fuel' ic r prev s.
Proof.
  induction fuel as [|fuel IH]; intros fuel' prev s H H'; [lia|].
  destruct fuel' as [|fuel']; [lia|].
  cbn [scan].
  assert (Hnext : match s with
                  | EmptyString => []
                  | String c s' => scan fuel ic r (Some c) s'
                  end
                  = match s with
                    | EmptyString => []
                    | String c s' => scan fuel' ic r (Some c) s'
                    end).
  { destruct s as [|c s']; [reflexivity|]. simpl in H, H'. apply IH; lia. }
  rewrite Hnext.
  destruct (rmatch ic r prev s [] accept) as [[[p' s'] c']|]; [|reflexivity].
  destruct (Nat.ltb_spec (String.length s') (String.length s)); [|reflexivity].
  f_equal. apply IH; lia.
Qed.

Lemma scan_unfold (ic : bool) (r : regex) (fuel : nat) (prev : option ascii)
    (s : string) :
  scan (S fuel) ic r prev s
  = let next :=
      match s with
      | EmptyString => []
      | String c s' => scan fuel ic r (Some c) s'
      end in
    match rmatch ic r prev s [] accept with
    | Some (prev', s', caps) =>
        (taken s s', caps) ::
        (if (String.length s' <? String.length s)%nat
         then scan fuel ic r prev' s' else next)
    | None => next
    end.
Proof. reflexivity. Qed.

(** What [findall] does at one position: when the pattern matches there
    and consumes something, the match is reported and the search goes on
    where it ended; when it does not match, the search moves one
    character on. *)
Lemma scan_step (ic : bool) (r : regex) (prev : option ascii) (s : string) :
  scan (S (String.length s)) ic r prev s
  = let next :=
      match s with
      | EmptyString => []
      | String c s' => scan (S (String.length s')) ic r (Some c) s'
      end in
    match rmatch ic r prev s [] accept with
    | Some (prev', s', caps) =>
        (taken s s', caps) ::
        (if (String.length s' <? String.length s)%nat
         then scan (S (String.length s')) ic r prev' s' else next)
    | None => next
    end.
Proof.
  rewrite (scan_unfold ic r (String.length s) prev s). cbv zeta.
  destruct (rmatch ic r prev s [] accept) as [[[p' s'] c']|].
  - destruct (Nat.ltb_spec (String.length s') (String.length s)).
    + f_equal. apply scan_fuel; lia.
    + destruct s; reflexivity.
  - destruct s; reflexivity.
Qed.

End ReFacts.

(** The patterns on sample texts. *)
Example name_pattern_two_words :
  Re.findall_str false Patterns.name_pattern "How many cars does Vikram Desai have?"
  = ["How"; "Vikram Desai"].
Proof. vm_compute. reflexivity. Qed.

Example date_patterns_sample :
  find_dates "Dinner in London Next  FRIDAY, or March 3, or 12/1/2024"
  = [Re.FStr "12/1/2024"; Re.FStr "March"; Re.FStr "FRIDAY";
     Re.FTuple ["Next"; "FRIDAY"]].
Proof. vm_compute. reflexivity. Qed.

Example relative_date_rendered :
  Re.str (Re.FTuple ["Next"; "FRIDAY"]) = "('Next', 'FRIDAY')".
Proof. vm_compute. reflexivity. Qed.

Example car_number_sample :
  Re.findall_str false Patterns.car_number "i have 2 cars, 13   cars and x5 cars"
  = ["2"; "13"].
Proof. vm_compute. reflexivity. Qed.

Example restaurant_pattern_sample :
  restaurant_candidates "We love Le Petit Cafe restaurant"
  = ["Le Petit Cafe"; "We"; "Le Petit Cafe"].
Proof. vm_compute. reflexivity. Qed.

(** ** Subject extraction *)

Lemma extract_names_spec (question n : string) :
  In n (extract_names question) <->
  In n (Re.findall_str false Patterns.name_pattern question)
  /\ Str.mem n common_words = false.
Proof.
  unfold extract_names. rewrite filter_In, negb_true_iff. reflexivity.
Qed.

(** C3, as stated, fails: the extraction does not return [["Layla"]]. *)
Lemma extract_names_layla_not_alone :
  extract_names "When is Layla planning her trip to London?" <> ["Layla"].
Proof. vm_compute. discriminate. Qed.

(** C3 (amended): on "When is Layla planning her trip to London?" the
    name pattern finds "When", "Layla" and "London"; the stoplist removes
    "When" and nothing else, since "London" is not a stoplist word; the
    result is exactly ["Layla"; "London"]. *)
Theorem extract_names_layla :
  Re.findall_str false Patterns.name_pattern
    "When is Layla planning her trip to London?" = ["When"; "Layla"; "London"]
  /\ Str.mem "When" common_words = true
  /\ Str.mem "Layla" common_words = false
  /\ Str.mem "London" common_words = false
  /\ extract_names "When is Layla planning her trip to London?" = ["Layla"; "London"].
Proof. repeat split; vm_compute; reflexivity. Qed.

(** ** Which records the heuristic can read *)



Lemma lower_is_str (v : pyval) :
  Py.is_str v = true -> exists s, v = PStr s /\ Py.lower v = Ok (Str.lower s).
Proof. destruct v; simpl; try discriminate. eauto. Qed.

Ltac read_message H :=
  let Hu := fresh "Hu" in let Hm := fresh "Hm" in let Ht := fresh "Ht" in
  simpl in H; apply andb_true_iff in H as [H Ht];
  apply andb_true_iff in H as [Hu Hm];
  apply lower_is_str in Hu as (? & ? & Hu);
  apply lower_is_str in Hm as (? & ? & Hm).

Lemma filter_by_names_readable (names : list string) (messages : list pyval) :
  forallb readable messages = true ->
  exists relevant,
    filter_by_names names messages = Ok relevant
    /\ forallb readable relevant = true.
Proof.
  induction messages as [|msg rest IH]; simpl; intro H.
  - exists []. auto.
  - apply andb_true_iff in H as [Hmsg Hrest].
    destruct (IH Hrest) as (rel & Hrel & Hok).
    destruct msg; try (exists rel; auto; fail).
    pose proof Hmsg as Hmsg'. read_message Hmsg.
    rewrite Hu, Hm, Hrel. cbn [bind].
    match goal with |- context [if ?b then _ else _] => destruct b end;
      eexists; split; try reflexivity; auto.
    simpl. rewrite Hok.
    change (readable (PDict items) && true = true). rewrite Hmsg'. reflexivity.
Qed.

Lemma filter_dicts_readable (messages : list pyval) :
  forallb readable messages = true ->
  forallb readable (filter Py.is_dict messages) = true.
Proof.
  induction messages as [|msg rest IH]; simpl; [auto|].
  intro H. apply andb_true_iff in H as [Hmsg Hrest].
  destruct (Py.is_dict msg); [|auto].
  cbn [forallb]. rewrite Hmsg, IH; auto.
Qed.

Lemma relevant_messages_readable (names : list string) (messages : list pyval) :
  forallb readable messages = true ->
  exists relevant,
    relevant_messages names messages = Ok relevant
    /\ forallb readable relevant = true.
Proof.
  intro H. destruct names as [|n names]; simpl.
  - eexists; split; [reflexivity | apply filter_dicts_readable, H].
  - apply (filter_by_names_readable (n :: names)), H.
Qed.

Lemma sentence_nonempty (who a : string) : sentence who a -> a <> EmptyString.
Proof. destruct 1; nonempty. Qed.

Lemma trip_message_answers (who : string) (d : items_t) (text : string) :
  readable (PDict d) = true -> answers who (trip_message who d text).
Proof.
  intro H. unfold trip_message.
  destruct (find_dates text) as [|date dates].
  - read_message H.
    destruct (Py.get d "timestamp" (PStr EmptyString)) eqn:Ets;
      simpl in Ht; cbn [Py.truthy];
      repeat match goal with
             | |- context [if ?b then _ else _] => destruct b eqn:?
             end;
      try discriminate; cbn [Py.slice_to bind];
      eexists; (split; [reflexivity|]);
      constructor.
  - eexists; split; [reflexivity|]. constructor.
Qed.

Lemma trip_answer_answers (who : string) (relevant : list pyval) :
  forallb readable relevant = true -> answers who (trip_answer who relevant).
Proof.
  induction relevant as [|msg rest IH]; simpl; intro H.
  - eexists; split; [reflexivity|]. constructor.
  - apply andb_true_iff in H as [Hmsg Hrest].
    destruct msg; auto.
    pose proof Hmsg as Hmsg'. read_message Hmsg.
    rewrite Hm. cbn [bind].
    destruct (Str.contains "london" _); auto.
    apply trip_message_answers, Hmsg'.
Qed.

Lemma int_str_bound_pos : (0 < Py.int_str_bound)%Z.
Proof.
  unfold Py.int_str_bound, Py.int_max_str_digits.
  apply Z.pow_pos_nonneg; lia.
Qed.

(** At the bound, in either sign, an int is no longer rendered; a run
    of 4301 digits is not read, whatever the digits. *)
Lemma str_of_int_at_bound :
  Py.str_of_int Py.int_str_bound = Raise ValueError
  /\ Py.str_of_int (- Py.int_str_bound) = Raise ValueError.
Proof.
  pose proof int_str_bound_pos as Hb. unfold Py.str_of_int.
  rewrite Z.abs_opp, Z.abs_eq, Z.ltb_irrefl by lia. split; reflexivity.
Qed.

Example int_of_str_zeros :
  Py.int_of_str (repeated "0" 4300) = Ok 0%Z
  /\ Py.int_of_str (repeated "0" 4301) = Raise ValueError.
Proof. split; vm_compute; reflexivity. Qed.

(** What one step of the car loop does with a message it can read. *)
Lemma car_step_read (count : Z) (d : items_t) (s : string) :
  Py.get d "message" (PStr EmptyString) = PStr s ->
  car_step count (Str.lower s)
  = match stated_digits (PDict d) with
    | Some digits =>
        if long_number (PDict d) then Raise ValueError
        else Ok (Z.max count (Str.int_of_digits digits))
    | None => Ok (if plain_mention (PDict d) then (count + 1)%Z else count)
    end.
Proof.
  intro H.
  unfold car_step, long_number, stated_digits, plain_mention, car_text.
  rewrite H.
  destruct (Str.contains "car" (Str.lower s)); [|reflexivity].
  destruct (Re.findall_str false Patterns.car_number (Str.lower s)) as [|number more];
    [reflexivity|].
  unfold Py.int_of_str. destruct (_ <? _)%Z; reflexivity.
Qed.

(** On readable messages the car loop stops only at a number that is
    too long. *)
Lemma car_count_from_readable (relevant : list pyval) :
  forallb readable relevant = true ->
  forall car_count,
    if existsb long_number relevant
    then car_count_from car_count relevant = Raise ValueError
    else exists n, car_count_from car_count relevant = Ok n.
Proof.
  induction relevant as [|msg rest IH]; cbn [forallb existsb car_count_from];
    intros H c.
  - eauto.
  - apply andb_true_iff in H as [Hmsg Hrest].
    destruct msg as [ | | | | | |d];
      try (change (long_number _) with false; cbn [orb]; apply IH, Hrest).
    read_message Hmsg. rewrite Hm. cbn [bind].
    match goal with E : Py.get d "message" _ = PStr _ |- _ =>
      rewrite (car_step_read c d E) end.
    destruct (long_number (PDict d)) eqn:El; cbn [orb].
    + unfold long_number in El.
      destruct (stated_digits (PDict d)); [reflexivity | discriminate].
    + destruct (stated_digits (PDict d)); cbn [bind]; apply IH, Hrest.
Qed.

Lemma car_answer_readable (who : string) (relevant : list pyval) :
  forallb readable relevant = true ->
  if over_digit_limit relevant
  then car_answer who relevant = Raise ValueError
  else answers who (car_answer who relevant).
Proof.
  intro H. unfold over_digit_limit, car_answer.
  pose proof (car_count_from_readable _ H 0%Z) as Hc.
  destruct (existsb long_number relevant); cbn [orb].
  - rewrite Hc. reflexivity.
  - destruct Hc as (n & ->). cbn [bind].
    pose proof int_str_bound_pos as Hb. unfold Py.str_of_int.
    destruct (Z.leb_spec Py.int_str_bound n) as [Hover|Hfits].
    + destruct (Z.ltb_spec 0 n); [|lia].
      destruct (Z.ltb_spec (Z.abs n) Py.int_str_bound); [lia | reflexivity].
    + destruct (Z.ltb_spec 0 n) as [Hpos|Hzero].
      * destruct (Z.ltb_spec (Z.abs n) Py.int_str_bound); [|lia].
        cbn [bind]. eexists. split; [reflexivity|]. apply cars_counted, Hpos.
      * eexists. split; [reflexivity|]. constructor.
Qed.

Lemma restaurants_from_readable (relevant : list pyval) :
  forallb readable relevant = true ->
  exists l, restaurants_from relevant = Ok l.
Proof.
  induction relevant as [|msg rest IH]; simpl; intro H.
  - eauto.
  - apply andb_true_iff in H as [Hmsg Hrest].
    destruct (IH Hrest) as (l & Hl).
    destruct msg; eauto.
    read_message Hmsg. rewrite Hm, Hl. cbn [bind]. eauto.
Qed.

Lemma restaurant_answer_answers (set_iter : list string -> list string)
    (who : string) (relevant : list pyval) :
  forallb readable relevant = true ->
  answers who (restaurant_answer set_iter who relevant).
Proof.
  intro H. unfold restaurant_answer.
  destruct (restaurants_from_readable _ H) as (l & ->). cbn [bind].
  destruct l; eexists; (split; [reflexivity|]); constructor.
Qed.

Lemma fallback_answer_sentence (who : string) (relevant : list pyval) :
  sentence who (fallback_answer who relevant).
Proof.
  destruct relevant as [|msg rest]; unfold fallback_answer.
  - constructor.
  - apply messages_found. simpl. lia.
Qed.

(** On readable messages [answer_question_simple] gives one of its
    sentences, unless a car question runs into the digit limit. *)
Lemma answer_question_simple_readable (set_iter : list string -> list string)
    (question : string) (messages : list pyval) :
  forallb readable messages = true ->
  exists relevant,
    relevant_messages (extract_names question) messages = Ok relevant
    /\ if asks_about_cars question && over_digit_limit relevant
       then answer_question_simple set_iter question messages = Raise ValueError
       else answers (name_display (extract_names question))
                    (answer_question_simple set_iter question messages).
Proof.
  intro H. unfold answer_question_simple, asks_about_cars.
  destruct (relevant_messages_readable (extract_names question) _ H)
    as (rel & -> & Hrel).
  exists rel. split; [reflexivity|]. cbn [bind].
  destruct (Str.contains "trip" _ || Str.contains "london" _); cbn [negb andb].
  - apply trip_answer_answers, Hrel.
  - destruct (Str.contains "car" _ || Str.contains "cars" _); cbn [andb].
    + apply car_answer_readable, Hrel.
    + destruct (_ || _).
      * apply restaurant_answer_answers, Hrel.
      * eexists; split; [reflexivity | apply fallback_answer_sentence].
Qed.

(** ** An answer is produced, up to the digit limit *)




(** ** Fields of another type *)

(** C5, as stated, fails: a number in [user_name] makes the relevance
    filter raise. *)
Lemma number_user_name_raises :
  answer_question_simple listed_order "How many cars does Vikram have?"
    [PDict [("user_name", PInt 7); ("message", PStr "I have 2 cars")]]
  = Raise AttributeError.
Proof. vm_compute. reflexivity. Qed.

(** With a name in the question, the first mapping whose [user_name] or
    [message] is not a string stops the relevance filter. *)
Lemma filter_by_names_raises (names : list string) (messages : list pyval) :
  existsb other_type_text messages = true ->
  filter_by_names names messages = Raise AttributeError.
Proof.
  induction messages as [|msg rest IH]; cbn [existsb filter_by_names];
    [discriminate|].
  destruct msg as [ | | | | | |d]; cbn [other_type_text orb]; auto.
  destruct (Py.get d "user_name" (PStr EmptyString));
    cbn [Py.is_str Py.lower andb negb orb bind]; try reflexivity.
  destruct (Py.get d "message" (PStr EmptyString));
    cbn [Py.is_str Py.lower negb orb bind]; try reflexivity.
  intro H. rewrite (IH H). reflexivity.
Qed.

(** C5 (amended): for every question and every message list in which
    each mapping has a [user_name] and a [message] that are absent or
    strings (and a [timestamp] that is absent, falsy, a string or a
    list), [answer_question_simple] tolerates every record: it returns
    an answer, except that a car question which runs into the digit
    limit raises [ValueError].  An absent field is tolerated; a
    [user_name] or [message] of another type is not: when the question
    has a candidate name, the relevance filter reads every mapping, and
    such a record makes [answer_question_simple] raise
    [AttributeError]. *)
Theorem absent_fields_tolerated (set_iter : list string -> list string)
    (question : string) (messages : list pyval) :
  (forallb readable messages = true ->
   exists relevant,
     relevant_messages (extract_names question) messages = Ok relevant
     /\ if asks_about_cars question && over_digit_limit relevant
        then answer_question_simple set_iter question messages = Raise ValueError
        else exists answer,
               answer_question_simple set_iter question messages = Ok answer)
  /\ (extract_names question <> [] ->
      existsb other_type_text messages = true ->
      answer_question_simple set_iter question messages = Raise AttributeError).
Proof.
  split.
  - intro H.
    destruct (answer_question_simple_readable set_iter question _ H)
      as (rel & Hrel & Hcase).
    exists rel. split; [exact Hrel|].
    destruct (asks_about_cars question && over_digit_limit rel); [exact Hcase|].
    destruct Hcase as (a & Ha & _). eauto.
  - intros Hnames Hother. unfold answer_question_simple, relevant_messages.
    destruct (extract_names question) as [|n names]; [now elim Hnames|].
    rewrite (filter_by_names_raises _ _ Hother). reflexivity.
Qed.

Lemma absent_fields_tolerated_witness :
  (exists answer,
      answer_question_simple listed_order "When is Layla planning her trip to London?"
        [PDict [("message", PStr "Off to London soon")]; PDict []; PInt 3]
      = Ok answer)
  /\ answer_question_simple listed_order "How many cars does Layla have?"
       [PDict [("user_name", PStr "Layla")]; PDict [("message", PNone)]]
     = Raise AttributeError.
Proof.
  split.
  - destruct (proj1 (@absent_fields_tolerated listed_order
                       "When is Layla planning her trip to London?"
                       [PDict [("message", PStr "Off to London soon")]; PDict []; PInt 3])
                    eq_refl)
      as (relevant & _ & Hcase).
    exact Hcase.
  - apply (proj2 (@absent_fields_tolerated listed_order
                    "How many cars does Layla have?"
                    [PDict [("user_name", PStr "Layla")]; PDict [("message", PNone)]]));
      [vm_compute; discriminate | reflexivity].
Defined.

(** ** Counting cars *)


(** C2, as stated, fails: with "I have 2 cars" before "car" the answer
    reports 3, not 2. *)
Lemma two_cars_then_car_reports_three :
  answer_question_simple listed_order "How many cars does Vikram Desai have?"
    [PDict [("user_name", PStr "Vikram Desai"); ("message", PStr "I have 2 cars")];
     PDict [("user_name", PStr "Vikram Desai"); ("message", PStr "car")]]
  = Ok "Vikram Desai has 3 car(s) mentioned in the data."
  /\ answer_question_simple listed_order "How many cars does Vikram Desai have?"
    [PDict [("user_name", PStr "Vikram Desai"); ("message", PStr "I have 2 cars")];
     PDict [("user_name", PStr "Vikram Desai"); ("message", PStr "car")]]
  <> Ok "Vikram Desai has 2 car(s) mentioned in the data.".
Proof. split; vm_compute; [reflexivity | discriminate]. Qed.

(** C2 (amended): for the relevant messages "I have 2 cars" and "car",
    the car answer reports 2 when "car" comes first and 3 when it comes
    second: a number before "car" makes the running count the maximum of
    the count so far and that number, and a mention without a number
    adds one to the count so far. *)
Theorem car_count_depends_on_order (who : string) (two_cars just_car : items_t) :
  Py.get two_cars "message" (PStr EmptyString) = PStr "I have 2 cars" ->
  Py.get just_car "message" (PStr EmptyString) = PStr "car" ->
  car_answer who [PDict just_car; PDict two_cars]
    = Ok (who ++ " has 2 car(s) mentioned in the data.")
  /\ car_answer who [PDict two_cars; PDict just_car]
    = Ok (who ++ " has 3 car(s) mentioned in the data.")
  /\ (forall count, car_step count "i have 2 cars" = Ok (Z.max count 2))
  /\ (forall count, car_step count "car" = Ok (count + 1)%Z).
Proof.
  intros H2 H1. unfold car_answer. cbn [car_count_from]. rewrite H2, H1.
  repeat split.
Qed.

Lemma car_count_depends_on_order_witness :
  car_answer "Vikram Desai"
    [PDict [("user_name", PStr "Vikram Desai"); ("message", PStr "car")];
     PDict [("message", PStr "I have 2 cars")]]
  = Ok "Vikram Desai has 2 car(s) mentioned in the data.".
Proof.
  apply (car_count_depends_on_order "Vikram Desai"
           [("message", PStr "I have 2 cars")]
           [("user_name", PStr "Vikram Desai"); ("message", PStr "car")]);
    reflexivity.
Defined.



(** ** The trip date is quoted as written *)

Lemma trip_answer_skips (who : string) (before rest : list pyval) :
  forallb no_london before = true ->
  trip_answer who (before ++ rest)%list = trip_answer who rest.
Proof.
  induction before as [|msg before IH]; [reflexivity|].
  cbn [forallb app trip_answer]. intro H.
  apply andb_true_iff in H as [Hmsg Hrest].
  destruct msg; auto.
  simpl in Hmsg. destruct (Py.get items "message" (PStr EmptyString)); try discriminate.
  cbn [Py.lower bind]. apply negb_true_iff in Hmsg. rewrite Hmsg. auto.
Qed.

(** C7: for a question that mentions a trip or London, when the first
    relevant message that mentions London reads "Planning a trip to
    London on 2024-03-15", the answer names the subject and quotes the
    date as written: it contains "2024-03-15". *)
Theorem trip_date_quoted (set_iter : list string -> list string)
    (question : string) (messages before after : list pyval) (d : items_t) :
  Str.contains "trip" (Str.lower question)
  || Str.contains "london" (Str.lower question) = true ->
  relevant_messages (extract_names question) messages
    = Ok (before ++ PDict d :: after)%list ->
  forallb no_london before = true ->
  Py.get d "message" (PStr EmptyString)
    = PStr "Planning a trip to London on 2024-03-15" ->
  exists answer,
    answer_question_simple set_iter question messages = Ok answer
    /\ answer = name_display (extract_names question)
                ++ " is planning a trip to London on 2024-03-15."
    /\ Str.contains "2024-03-15" answer = true.
Proof.
  intros Hq Hrel Hbefore Hd.
  eexists. split; [|split; [reflexivity|]].
  - unfold answer_question_simple. rewrite Hrel. cbn [bind]. rewrite Hq.
    rewrite trip_answer_skips by exact Hbefore.
    cbn [trip_answer]. rewrite Hd. reflexivity.
  - change (name_display (extract_names question)
              ++ " is planning a trip to London on 2024-03-15.")
      with (name_display (extract_names question)
              ++ " is planning a trip to London on " ++ "2024-03-15" ++ ".").
    rewrite <- append_assoc. apply contains_append.
Qed.

Lemma trip_date_quoted_witness :
  exists answer,
    answer_question_simple listed_order "When is Layla planning her trip to London?"
      [PDict [("user_name", PStr "Layla"); ("message", PStr "Lunch on friday")];
       PDict [("user_name", PStr "Layla");
              ("message", PStr "Planning a trip to London on 2024-03-15");
              ("timestamp", PStr "2024-01-02T10:00:00")];
       PDict [("user_name", PStr "Omar"); ("message", PStr "London on monday")]]
    = Ok answer
    /\ answer = name_display (extract_names "When is Layla planning her trip to London?")
                ++ " is planning a trip to London on 2024-03-15."
    /\ Str.contains "2024-03-15" answer = true.
Proof.
  apply (trip_date_quoted listed_order "When is Layla planning her trip to London?" _
           [PDict [("user_name", PStr "Layla"); ("message", PStr "Lunch on friday")]]
           [PDict [("user_name", PStr "Omar"); ("message", PStr "London on monday")]]
           [("user_name", PStr "Layla");
            ("message", PStr "Planning a trip to London on 2024-03-15");
            ("timestamp", PStr "2024-01-02T10:00:00")]);
    vm_compute; reflexivity.
Defined.

(** ** Blank questions *)

Lemma lstrip_blank (s : string) :
  Str.forallb Chr.is_space s = true -> Str.lstrip s = EmptyString.
Proof.
  induction s as [|c s IH]; simpl; [reflexivity|].
  destruct (Chr.is_space c); simpl; [exact IH | discriminate].
Qed.

Lemma lstrip_not_blank (s : string) :
  Str.forallb Chr.is_space s = false ->
  exists c t, Str.lstrip s = String c t /\ Chr.is_space c = false.
Proof.
  induction s as [|c s IH]; simpl; [discriminate|].
  destruct (Chr.is_space c) eqn:E; simpl; [exact IH | eauto].
Qed.

Lemma rstrip_keeps (c : ascii) (t : string) :
  Chr.is_space c = false -> Str.rstrip (String c t) <> EmptyString.
Proof.
  intro H. simpl. rewrite H. destruct (Str.rstrip t); discriminate.
Qed.

Lemma strip_empty (s : string) :
  String.eqb (Str.strip s) EmptyString = Str.forallb Chr.is_space s.
Proof.
  unfold Str.strip.
  destruct (Str.forallb Chr.is_space s) eqn:E.
  - rewrite lstrip_blank by exact E. reflexivity.
  - destruct (lstrip_not_blank _ E) as (c & t & -> & Hc).
    apply String.eqb_neq, rstrip_keeps, Hc.
Qed.

(** The test of line 218, [not question or not question.strip()]. *)
Lemma blank_test (question : string) :
  String.eqb question EmptyString || String.eqb (Str.strip question) EmptyString
  = Str.forallb Chr.is_space question.
Proof.
  rewrite strip_empty. destruct question; reflexivity.
Qed.

(** C6: a question that is empty or made of whitespace only is rejected
    with status 400, and the fetcher is left as it was (nothing is
    requested, nothing is cached, no answer is computed); a question
    with a character that is not whitespace is never rejected with 400. *)
Theorem blank_question_rejected (set_iter : list string -> list string)
    (reply : option pyval) (question : string) (f : fetcher) :
  (Str.forallb Chr.is_space question = true ->
   ask_question set_iter reply question f = (HTTPException 400, f))
  /\ (Str.forallb Chr.is_space question = false ->
      fst (ask_question set_iter reply question f) <> HTTPException 400).
Proof.
  unfold ask_question. rewrite blank_test. split; intros ->; [reflexivity|].
  destruct (fetch_messages reply false f) as [[messages|] f']; simpl;
    [|discriminate].
  destruct (Py.truthy messages); simpl; [|discriminate].
  destruct (answer_question set_iter question messages); discriminate.
Qed.

Lemma blank_question_rejected_witness :
  ask_question listed_order (Some (PList [PDict [("message", PStr "hello")]]))
    "   " {| cache := PNone; requests_sent := 0 |}
  = (HTTPException 400, {| cache := PNone; requests_sent := 0 |})
  /\ fst (ask_question listed_order (Some (PList [PDict [("message", PStr "hello")]]))
            " ? " {| cache := PNone; requests_sent := 0 |})
     <> HTTPException 400.
Proof.
  split.
  - apply (proj1 (blank_question_rejected _ _ _ _)). reflexivity.
  - apply (proj2 (blank_question_rejected _ _ _ _)). reflexivity.
Defined.

(** ** Entries that are not mappings *)

Lemma empty_fields_from_raises (messages : list pyval) :
  has_non_mapping messages = true ->
  forall counts, empty_fields_from counts messages = Raise AttributeError.
Proof.
  induction messages as [|msg rest IH]; simpl; [discriminate|].
  intros H counts. destruct msg; try reflexivity.
  simpl in H. auto.
Qed.

(** C4 fails on the code: the first loop records an entry that is not a
    mapping as an anomaly and skips it, but the empty-value check calls
    [items()] on every entry, so [analyze_data] raises for every list
    with such an entry. *)
Theorem non_mapping_entry_raises (set_iter : list string -> list string)
    (messages : list pyval) :
  has_non_mapping messages = true ->
  analyze_data set_iter messages = Raise AttributeError.
Proof.
  intro H.
  destruct messages as [|msg rest]; [discriminate|].
  unfold analyze_data, analyze_messages.
  rewrite empty_fields_from_raises by exact H. reflexivity.
Qed.

Lemma non_mapping_entry_raises_witness :
  not_dicts (tally_from empty_tally 0 [PDict [("message", PStr "hi")]; PStr "oops"])
  = [NotADictionary 1 "<class 'str'>"]
  /\ analyze_data listed_order [PDict [("message", PStr "hi")]; PStr "oops"]
     = Raise AttributeError.
Proof.
  split; [reflexivity|].
  apply non_mapping_entry_raises. reflexivity.
Defined.

(** ** Presence of a field *)

Lemma mem_In (x : string) (l : list string) : Str.mem x l = true <-> In x l.
Proof.
  unfold Str.mem. rewrite existsb_exists. split.
  - intros (y & Hy & E). apply String.eqb_eq in E. now subst.
  - intro H. exists x. split; [exact H | apply String.eqb_refl].
Qed.

Lemma distinct_NoDup (keys : list string) : distinct keys = true <-> NoDup keys.
Proof.
  induction keys as [|k keys IH]; simpl.
  - split; [constructor | reflexivity].
  - rewrite andb_true_iff, negb_true_iff, IH. split.
    + intros [Hk Hn]. constructor; [|exact Hn].
      intro Hin. apply mem_In in Hin. congruence.
    + intro H. inversion H as [|? ? Hk Hn]; subst. split; [|exact Hn].
      destruct (Str.mem k keys) eqn:E; [|reflexivity].
      apply mem_In in E. contradiction.
Qed.

Lemma has_key_In (d : items_t) (key : string) :
  Py.has_key d key = true <-> In key (map fst d).
Proof.
  induction d as [|[k v] d IH]; simpl; [easy|].
  rewrite orb_true_iff, IH, String.eqb_eq. reflexivity.
Qed.

Lemma count_of_incr (key field : string) (counts : list (string * nat)) :
  count_of (incr key counts) field
  = if String.eqb key field then S (count_of counts field) else count_of counts field.
Proof.
  induction counts as [|[k n] counts IH]; simpl.
  - destruct (String.eqb key field); reflexivity.
  - destruct (String.eqb k key) eqn:Ek; simpl.
    + apply String.eqb_eq in Ek. subst k.
      destruct (String.eqb key field); reflexivity.
    + destruct (String.eqb k field) eqn:Ef; [|exact IH].
      apply String.eqb_eq in Ef. subst k. rewrite String.eqb_sym, Ek. reflexivity.
Qed.

Lemma positive_counts_incr (key : string) (counts : list (string * nat)) :
  positive_counts counts -> positive_counts (incr key counts).
Proof.
  unfold positive_counts.
  induction counts as [|[k n] counts IH]; simpl; intro H.
  - repeat constructor.
  - inversion H; subst.
    destruct (String.eqb k key); constructor; simpl; auto with arith.
Qed.

Lemma count_of_positive (counts : list (string * nat)) (field : string) :
  positive_counts counts ->
  (In field (map fst counts) <-> 0 < count_of counts field).
Proof.
  unfold positive_counts.
  induction counts as [|[k n] counts IH]; simpl; intro H.
  - split; [easy | lia].
  - inversion H as [|? ? Hn Hrest]; subst. simpl in Hn.
    destruct (String.eqb k field) eqn:E.
    + apply String.eqb_eq in E. tauto.
    + apply String.eqb_neq in E. rewrite <- (IH Hrest). tauto.
Qed.

Lemma field_counts_track (d : items_t) (keys : list string) (t : tally) :
  field_counts (fold_left (track_key d) keys t) = incr_all keys (field_counts t).
Proof.
  revert t. induction keys as [|k keys IH]; intro t; [reflexivity|].
  simpl. rewrite IH. reflexivity.
Qed.

Lemma count_of_incr_all (keys : list string) (field : string) :
  NoDup keys ->
  forall counts,
    count_of (incr_all keys counts) field
    = count_of counts field + (if Str.mem field keys then 1 else 0).
Proof.
  induction 1 as [|k keys Hk Hn IH]; intro counts; simpl; [lia|].
  rewrite IH, count_of_incr.
  rewrite (String.eqb_sym field k).
  destruct (String.eqb k field) eqn:E; simpl; [|reflexivity].
  apply String.eqb_eq in E. subst k.
  destruct (Str.mem field keys) eqn:M; [|lia].
  apply mem_In in M. contradiction.
Qed.

Lemma positive_incr_all (keys : list string) :
  forall counts, positive_counts counts -> positive_counts (incr_all keys counts).
Proof.
  induction keys as [|k keys IH]; intros counts H; simpl; [exact H|].
  apply IH, positive_counts_incr, H.
Qed.

Lemma field_counts_message (t : tally) (i : nat) (msg : pyval) :
  field_counts (tally_message t i msg)
  = match msg with
    | PDict d => incr_all (map fst d) (field_counts t)
    | _ => field_counts t
    end.
Proof. destruct msg; simpl; try reflexivity. apply field_counts_track. Qed.

Lemma mem_has_key (d : items_t) (field : string) :
  Str.mem field (map fst d) = Py.has_key d field.
Proof.
  apply eq_true_iff_eq. rewrite mem_In, has_key_In. reflexivity.
Qed.

Lemma tally_from_counts (field : string) (messages : list pyval) :
  forallb is_record messages = true ->
  forall t i,
    positive_counts (field_counts t) ->
    positive_counts (field_counts (tally_from t i messages))
    /\ count_of (field_counts (tally_from t i messages)) field
       = count_of (field_counts t) field + occurrences field messages.
Proof.
  unfold occurrences.
  induction messages as [|msg rest IH]; simpl; intros H t i Hpos.
  - split; [exact Hpos | lia].
  - apply andb_true_iff in H as [Hmsg Hrest].
    destruct msg; try discriminate. simpl in Hmsg.
    apply distinct_NoDup in Hmsg.
    destruct (IH Hrest (tally_message t i (PDict items)) (S i)) as [Hp Hc].
    { rewrite field_counts_message. apply positive_incr_all, Hpos. }
    split; [exact Hp|].
    rewrite Hc, field_counts_message, count_of_incr_all by exact Hmsg.
    rewrite mem_has_key. simpl.
    destruct (Py.has_key items field); simpl; lia.
Qed.

Lemma empty_fields_from_records (messages : list pyval) :
  forallb is_record messages = true ->
  forall counts, exists c, empty_fields_from counts messages = Ok c.
Proof.
  induction messages as [|msg rest IH]; simpl; intros H counts; [eauto|].
  apply andb_true_iff in H as [Hmsg Hrest].
  destruct msg; try discriminate. auto.
Qed.

(** The comparison with one half is the comparison of the two
    numbers. *)
Lemma below_half_spec (count total : nat) :
  0 < total ->
  below_half (presence_rate count total) = (2 * count <? total)%nat.
Proof.
  intro H. unfold below_half, presence_rate, Qle_bool. simpl Qnum. simpl Qden.
  assert (E : Z.pos (Pos.of_nat total) = Z.of_nat total).
  { rewrite <- positive_nat_Z, Nat2Pos.id by lia. reflexivity. }
  rewrite E.
  destruct (2 * count <? total)%nat eqn:L.
  - apply Nat.ltb_lt in L. apply negb_true_iff, Z.leb_gt. lia.
  - apply Nat.ltb_ge in L. apply negb_false_iff, Z.leb_le. lia.
Qed.

Section PresenceCheck.

Variable set_iter : list string -> list string.
Hypothesis set_iter_ok : set_iter_spec set_iter.

Lemma flagged_app (field : string) (l1 l2 : list inconsistency) :
  flagged field (l1 ++ l2) = flagged field l1 || flagged field l2.
Proof. apply existsb_app. Qed.

Lemma flagged_types (field : string) (types : list (string * list string)) :
  flagged field (type_inconsistencies set_iter types) = false.
Proof.
  induction types as [|[f s] types IH]; simpl; [reflexivity|].
  rewrite flagged_app, IH.
  destruct (1 <? List.length s)%nat; reflexivity.
Qed.

Lemma In_presence (counts : list (string * nat)) (total : nat) (e : inconsistency) :
  In e (presence_inconsistencies set_iter counts total) <->
  exists field,
    In field (map fst counts)
    /\ below_half (presence_rate (count_of counts field) total) = true
    /\ e = LowPresence field (count_of counts field) total.
Proof.
  unfold presence_inconsistencies. rewrite in_flat_map. split.
  - intros (field & Hin & He). exists field.
    apply (proj1 (proj2 (set_iter_ok _) _)) in Hin.
    destruct (below_half (presence_rate (count_of counts field) total)) eqn:Hb;
      simpl in He; [|easy].
    destruct He as [<-|[]]. repeat split; auto.
  - intros (field & Hin & Hb & ->). exists field.
    split; [apply (proj2 (proj2 (set_iter_ok _) _)), Hin|].
    rewrite Hb. now left.
Qed.

Lemma flagged_presence (counts : list (string * nat)) (total : nat) (field : string) :
  flagged field (presence_inconsistencies set_iter counts total)
  = existsb (String.eqb field) (map fst counts)
    && below_half (presence_rate (count_of counts field) total).
Proof.
  apply eq_true_iff_eq. unfold flagged.
  rewrite existsb_exists, andb_true_iff. fold (Str.mem field (map fst counts)).
  rewrite mem_In. split.
  - intros (e & He & Hf). apply In_presence in He as (f & Hin & Hb & ->).
    apply String.eqb_eq in Hf. subst f. auto.
  - intros [Hin Hb]. exists (LowPresence field (count_of counts field) total).
    split; [|apply String.eqb_refl].
    apply In_presence. eauto.
Qed.

End PresenceCheck.

(** C8: for well-formed records, [analyze_data] flags the presence of a
    field exactly when the field occurs and twice its number of
    occurrences is less than the number of messages, that is, when
    occurrences / total < 1/2 as rationals.  A field present in exactly
    40% of the messages is flagged; one present in exactly 60% is not. *)
Theorem presence_flag_below_half (set_iter : list string -> list string)
    (messages : list pyval) (field : string) :
  set_iter_spec set_iter ->
  forallb is_record messages = true ->
  exists f,
    analyze_data set_iter messages = Ok f
    /\ flagged field (inconsistencies f)
       = ((0 <? occurrences field messages)
          && (2 * occurrences field messages <? List.length messages))%nat
    /\ (messages <> [] ->
        (Qlt (presence_rate (occurrences field messages) (List.length messages)) (1 # 2)
         <-> 2 * occurrences field messages < List.length messages))
    /\ (0 < occurrences field messages ->
        5 * occurrences field messages = 2 * List.length messages ->
        flagged field (inconsistencies f) = true)
    /\ (5 * occurrences field messages = 3 * List.length messages ->
        flagged field (inconsistencies f) = false).
Proof.
  intros Hset Hrec.
  assert (Hflag : exists f,
             analyze_data set_iter messages = Ok f
             /\ flagged field (inconsistencies f)
                = ((0 <? occurrences field messages)
                   && (2 * occurrences field messages <? List.length messages))%nat).
  { destruct messages as [|msg rest] eqn:E; [eexists; split; reflexivity|].
    change (analyze_data set_iter (msg :: rest))
      with (analyze_messages set_iter (msg :: rest)).
    rewrite <- E in *. unfold analyze_messages.
    destruct (empty_fields_from_records _ Hrec []) as (c & ->). cbn [bind].
    eexists. split; [reflexivity|]. cbn [inconsistencies].
    rewrite !flagged_app, flagged_types, flagged_presence by exact Hset.
    destruct (tally_from_counts field _ Hrec empty_tally 0) as [Hpos Hcount];
      [constructor|].
    simpl in Hcount. rewrite Hcount.
    rewrite below_half_spec by (rewrite E; simpl; lia).
    replace (flagged field match c with [] => [] | _ => _ end) with false
      by (destruct c; reflexivity).
    rewrite orb_false_r. cbn [orb]. f_equal.
    apply eq_true_iff_eq.
    fold (Str.mem field (map fst (field_counts (tally_from empty_tally 0 messages)))).
    rewrite mem_In, (count_of_positive _ Hpos), Hcount, Nat.ltb_lt. reflexivity. }
  destruct Hflag as (f & Hf & Hflag). exists f.
  split; [exact Hf|]. split; [exact Hflag|]. split; [|split].
  - intro Hne. unfold Qlt, presence_rate. simpl Qnum. simpl Qden.
    destruct messages as [|msg rest]; [now elim Hne|].
    assert (E : Z.pos (Pos.of_nat (List.length (msg :: rest)))
                = Z.of_nat (List.length (msg :: rest))).
    { rewrite <- positive_nat_Z, Nat2Pos.id by (simpl; lia). reflexivity. }
    rewrite E. lia.
  - intros Hocc H40. rewrite Hflag. apply andb_true_iff.
    split; apply Nat.ltb_lt; lia.
  - intro H60. rewrite Hflag. apply andb_false_iff. right.
    apply Nat.ltb_ge. lia.
Qed.

Lemma presence_flag_below_half_witness :
  exists f,
    analyze_data listed_order
      [PDict [("message", PStr "a"); ("note", PStr "x")];
       PDict [("message", PStr "b"); ("note", PStr "y")];
       PDict [("message", PStr "c")];
       PDict [("message", PStr "d")];
       PDict [("message", PStr "e")]] = Ok f
    /\ flagged "note" (inconsistencies f) = true.
Proof.
  destruct (presence_flag_below_half
              [PDict [("message", PStr "a"); ("note", PStr "x")];
               PDict [("message", PStr "b"); ("note", PStr "y")];
               PDict [("message", PStr "c")];
               PDict [("message", PStr "d")];
               PDict [("message", PStr "e")]] "note"
              listed_order_spec eq_refl) as (f & Hf & _ & _ & H40 & _).
  exists f. split; [exact Hf|].
  apply H40; [vm_compute; lia | reflexivity].
Defined.

(** ** Duplicates *)

Module SortFacts.
Import Json.

Lemma key_le_spec (a b : string) :
  key_le a b = true <-> a = b \/ String_as_OT.lt a b.
Proof.
  unfold key_le.
  destruct (String_as_OT.compare_spec a b) as [E|L|G].
  - tauto.
  - tauto.
  - split; [discriminate|].
    intros [E|L]; exfalso.
    + subst. now apply (StrictOrder_Irreflexive b).
    + apply (StrictOrder_Irreflexive a).
      now apply (StrictOrder_Transitive a b a).
Qed.

Lemma key_le_total (a b : string) : key_le a b = false -> key_le b a = true.
Proof.
  unfold key_le.
  destruct (String_as_OT.compare_spec a b) as [E|L|G]; try discriminate.
  intros _. unfold String_as_OT.lt in G. rewrite G. reflexivity.
Qed.

Lemma key_le_trans (a b c : string) :
  key_le a b = true -> key_le b c = true -> key_le a c = true.
Proof.
  rewrite !key_le_spec. intros [->|L1] [->|L2]; auto.
  right. now apply (StrictOrder_Transitive a b c).
Qed.

Lemma key_le_antisym (a b : string) :
  key_le a b = true -> key_le b a = true -> a = b.
Proof.
  rewrite !key_le_spec. intros [->|L1] [E|L2]; auto.
  exfalso. apply (StrictOrder_Irreflexive a).
  now apply (StrictOrder_Transitive a b a).
Qed.

Lemma insert_entry_perm (e : entry) (l : list entry) :
  Permutation (insert_entry e l) (e :: l).
Proof.
  induction l as [|e' l IH]; simpl; [reflexivity|].
  destruct (key_le (fst e) (fst e')); [reflexivity|].
  rewrite IH. apply perm_swap.
Qed.

Lemma sort_entries_perm (l : list entry) : Permutation (sort_entries l) l.
Proof.
  induction l as [|e l IH]; simpl; [reflexivity|].
  rewrite insert_entry_perm, IH. reflexivity.
Qed.

Lemma insert_entry_ordered (e : entry) (l : list entry) :
  ordered l -> ordered (insert_entry e l).
Proof.
  unfold ordered.
  induction l as [|e' l IH]; simpl; intro H.
  - repeat constructor.
  - inversion H as [|? ? Hl Hall]; subst.
    destruct (key_le (fst e) (fst e')) eqn:E.
    + constructor; [exact H|].
      constructor; [exact E|].
      eapply Forall_impl; [|exact Hall].
      intros x Hx. eapply key_le_trans; [exact E | exact Hx].
    + constructor; [apply IH, Hl|].
      apply key_le_total in E.
      rewrite Forall_forall in *. intros x Hx.
      apply (Permutation_in _ (insert_entry_perm e l)) in Hx.
      destruct Hx as [<-|Hx]; [exact E | apply Hall, Hx].
Qed.

Lemma sort_entries_ordered (l : list entry) : ordered (sort_entries l).
Proof.
  induction l as [|e l IH]; simpl.
  - constructor.
  - apply insert_entry_ordered, IH.
Qed.

(** Two ordered lists with the same entries and distinct keys are the
    same list. *)
Lemma ordered_unique (l l' : list entry) :
  ordered l -> ordered l' -> Permutation l l' -> NoDup (map fst l) -> l = l'.
Proof.
  unfold ordered. revert l'.
  induction l as [|e l IH]; intros l' Hs Hs' Hp Hn.
  - apply Permutation_nil in Hp. now subst.
  - destruct l' as [|e' l'].
    { apply Permutation_sym, Permutation_nil in Hp. discriminate. }
    inversion Hs as [|? ? Hsl Hall]; subst.
    inversion Hs' as [|? ? Hsl' Hall']; subst.
    inversion Hn as [|? ? Hfresh Hnl]; subst.
    assert (E : e = e').
    { assert (Hin : In e (e' :: l')) by (apply (Permutation_in _ Hp); now left).
      assert (Hin' : In e' (e :: l))
        by (apply (Permutation_in _ (Permutation_sym Hp)); now left).
      destruct Hin as [->|Hin]; [reflexivity|].
      destruct Hin' as [->|Hin']; [reflexivity|].
      rewrite Forall_forall in Hall, Hall'.
      assert (K : fst e = fst e')
        by (apply key_le_antisym; [apply Hall, Hin' | apply Hall', Hin]).
      exfalso. apply Hfresh. rewrite K. apply in_map, Hin'. }
    subst e'. f_equal.
    apply IH; auto. apply (Permutation_cons_inv Hp).
Qed.

Lemma sort_entries_permuted (l l' : list entry) :
  Permutation l l' -> NoDup (map fst l) -> sort_entries l = sort_entries l'.
Proof.
  intros Hp Hn. apply ordered_unique; try apply sort_entries_ordered.
  - rewrite !sort_entries_perm. exact Hp.
  - eapply Permutation_NoDup; [|exact Hn].
    apply Permutation_map, Permutation_sym, sort_entries_perm.
Qed.

End SortFacts.

Lemma nodup_length_le (l : list string) :
  List.length (nodup string_dec l) <= List.length l.
Proof.
  induction l as [|x l IH]; [reflexivity|].
  cbn [nodup]. destruct (in_dec string_dec x l); simpl; lia.
Qed.

Lemma nodup_length_perm (l l' : list string) :
  Permutation l l' ->
  List.length (nodup string_dec l) = List.length (nodup string_dec l').
Proof.
  intro Hp. apply Permutation_length, NoDup_Permutation; try apply NoDup_nodup.
  intro x. rewrite !nodup_In. split; apply Permutation_in; auto.
  now apply Permutation_sym.
Qed.

(** The number of duplicates does not depend on the order of the
    messages. *)
Lemma duplicate_count_perm (l l' : list string) :
  Permutation l l' -> duplicate_count l = duplicate_count l'.
Proof.
  intro Hp. unfold duplicate_count.
  rewrite (nodup_length_perm Hp), (Permutation_length Hp). reflexivity.
Qed.

(** One string twice among strings that are distinct and differ from
    it: one duplicate. *)
Lemma duplicate_count_pair (x : string) (others : list string) :
  NoDup others -> ~ In x others -> duplicate_count (x :: x :: others) = 1.
Proof.
  intros Hn Hx. unfold duplicate_count. cbn [nodup].
  destruct (in_dec string_dec x (x :: others)) as [_|Hout];
    [|elim Hout; now left].
  destruct (in_dec string_dec x others) as [Hin|_]; [contradiction|].
  rewrite (nodup_fixed_point string_dec Hn). cbn [List.length]. lia.
Qed.

Lemma not_dicts_track (d : items_t) (keys : list string) (t : tally) :
  not_dicts (fold_left (track_key d) keys t) = not_dicts t.
Proof.
  revert t. induction keys as [|k keys IH]; intro t; [reflexivity|].
  simpl. rewrite IH. reflexivity.
Qed.

Lemma not_dicts_none (messages : list pyval) :
  forallb Py.is_dict messages = true ->
  forall t i, not_dicts (tally_from t i messages) = not_dicts t.
Proof.
  induction messages as [|msg rest IH]; simpl; intros H t i; [reflexivity|].
  apply andb_true_iff in H as [Hmsg Hrest].
  destruct msg; try discriminate.
  rewrite IH by exact Hrest. simpl. apply not_dicts_track.
Qed.

Lemma empty_fields_from_dicts (messages : list pyval) :
  forallb Py.is_dict messages = true ->
  forall counts, exists c, empty_fields_from counts messages = Ok c.
Proof.
  induction messages as [|msg rest IH]; simpl; intros H counts; [eauto|].
  apply andb_true_iff in H as [Hmsg Hrest].
  destruct msg; try discriminate. auto.
Qed.

Lemma analyze_data_nonempty (set_iter : list string -> list string)
    (messages : list pyval) :
  messages <> [] -> analyze_data set_iter messages = analyze_messages set_iter messages.
Proof. destruct messages; [intro H; now elim H | reflexivity]. Qed.

(** ** The key-sorted serialization identifies a value *)

Lemma pyval_nested_ind (P : pyval -> Prop) :
  P PNone ->
  (forall b, P (PBool b)) ->
  (forall z, P (PInt z)) ->
  (forall r, P (PFloat r)) ->
  (forall s, P (PStr s)) ->
  (forall l, Forall P l -> P (PList l)) ->
  (forall d, Forall (fun kv => P (snd kv)) d -> P (PDict d)) ->
  forall v, P v.
Proof.
  intros HN HB HI HF HS HL HD.
  fix IH 1. intros [ | b | z | r | s | l | d].
  - exact HN.
  - apply HB.
  - apply HI.
  - apply HF.
  - apply HS.
  - apply HL. induction l as [|x l IHl]; constructor; [apply IH | exact IHl].
  - apply HD. induction d as [|kv d IHd]; constructor; [apply IH | exact IHd].
Qed.

Lemma append_cancel (a x y : string) : a ++ x = a ++ y -> x = y.
Proof.
  induction a as [|c a IH]; cbn [append]; intro H; [exact H|].
  inversion H. auto.
Qed.

Lemma all_ascii_complete (c : ascii) : In c all_ascii.
Proof.
  unfold all_ascii. rewrite <- (ascii_nat_embedding c).
  apply in_map, in_seq. pose proof (nat_ascii_bounded c). lia.
Qed.

Lemma for_all_ascii (p : ascii -> bool) :
  forallb p all_ascii = true -> forall c, p c = true.
Proof.
  intros H c. rewrite forallb_forall in H. apply H, all_ascii_complete.
Qed.

Lemma diverge_append (a b x y : string) :
  diverge a b = true -> a ++ x <> b ++ y.
Proof.
  revert b. induction a as [|c a IH]; intros [|c' b]; cbn [diverge append];
    try discriminate.
  intros H E. inversion E. subst c'.
  rewrite Ascii.eqb_refl in H. cbn [negb orb] in H.
  now apply (IH b H).
Qed.

(** *** Numbers *)

Lemma number_char_not_stop (c : ascii) : number_char c = true -> is_stop c = false.
Proof.
  assert (H : forall c, implb (number_char c) (negb (is_stop c)) = true)
    by (apply for_all_ascii; vm_compute; reflexivity).
  intro Hc. specialize (H c). rewrite Hc in H. cbn [implb] in H.
  now apply negb_true_iff.
Qed.

(** A text made of number characters ends where the next stop is. *)
Lemma number_token (t1 t2 s1 s2 : string) :
  Str.forallb number_char t1 = true ->
  Str.forallb number_char t2 = true ->
  ends s1 = true -> ends s2 = true ->
  t1 ++ s1 = t2 ++ s2 -> t1 = t2 /\ s1 = s2.
Proof.
  revert t2. induction t1 as [|c t1 IH]; intros [|c' t2];
    cbn [Str.forallb append]; intros H1 H2 E1 E2 H.
  - auto.
  - subst s1. cbn [ends] in E1. apply andb_true_iff in H2 as [Hc _].
    rewrite (number_char_not_stop _ Hc) in E1. discriminate.
  - subst s2. cbn [ends] in E2. apply andb_true_iff in H1 as [Hc _].
    rewrite (number_char_not_stop _ Hc) in E2. discriminate.
  - apply andb_true_iff in H1 as [_ H1]. apply andb_true_iff in H2 as [_ H2].
    inversion H. subst c'.
    destruct (IH t2 H1 H2 E1 E2) as [-> ->]; auto.
Qed.

Lemma of_Z_inj (z1 z2 : Z) : Str.of_Z z1 = Str.of_Z z2 -> z1 = z2.
Proof.
  unfold Str.of_Z. intro H. apply DecimalZ.to_int_inj.
  assert (Hn : forall z, Z.to_int z <> Decimal.Pos Decimal.Nil
                         /\ Z.to_int z <> Decimal.Neg Decimal.Nil).
  { intros [|p|p]; cbn [Z.to_int]; split; try discriminate;
      intro E; inversion E as [E'];
      now apply (DecimalPos.Unsigned.to_uint_nonnil p). }
  assert (E : Some (Z.to_int z1) = Some (Z.to_int z2)).
  { rewrite <- (NilZero.isi (Z.to_int z1)) by apply Hn.
    rewrite <- (NilZero.isi (Z.to_int z2)) by apply Hn.
    now rewrite H. }
  now inversion E.
Qed.

Lemma forallb_weaken (p q : ascii -> bool) (s : string) :
  (forall c, p c = true -> q c = true) ->
  Str.forallb p s = true -> Str.forallb q s = true.
Proof.
  intro Hpq. induction s as [|c s IH]; cbn [Str.forallb]; [reflexivity|].
  intro H. apply andb_true_iff in H as [Hc Hs]. rewrite (Hpq c Hc), (IH Hs).
  reflexivity.
Qed.

Lemma forallb_existsb (p q : ascii -> bool) (s : string) :
  (forall c, p c = true -> q c = false) ->
  Str.forallb p s = true -> Str.existsb q s = false.
Proof.
  intro Hpq. induction s as [|c s IH]; cbn [Str.forallb Str.existsb]; [reflexivity|].
  intro H. apply andb_true_iff in H as [Hc Hs]. rewrite (Hpq c Hc), (IH Hs).
  reflexivity.
Qed.

Lemma uint_chars (u : Decimal.uint) :
  Str.forallb Chr.is_digit (NilEmpty.string_of_uint u) = true.
Proof. induction u; cbn [NilEmpty.string_of_uint Str.forallb]; auto. Qed.

Lemma of_Z_chars (z : Z) :
  Str.forallb int_char (Str.of_Z z) = true /\ Str.of_Z z <> EmptyString.
Proof.
  assert (Hu : forall u, Str.forallb int_char (NilZero.string_of_uint u) = true
                         /\ NilZero.string_of_uint u <> EmptyString).
  { intro u. split.
    - assert (H : Str.forallb Chr.is_digit (NilZero.string_of_uint u) = true)
        by (destruct u; try apply uint_chars; reflexivity).
      apply forallb_weaken with (p := Chr.is_digit); [|exact H].
      intros c Hc. unfold int_char. rewrite Hc. reflexivity.
    - destruct u; discriminate. }
  unfold Str.of_Z. destruct (Z.to_int z) as [u|u]; cbn [NilZero.string_of_int].
  - apply Hu.
  - split; [|discriminate]. cbn [Str.forallb]. apply (Hu u).
Qed.

Lemma int_char_number (c : ascii) : int_char c = true -> number_char c = true.
Proof.
  assert (H : forall c, implb (int_char c) (number_char c) = true)
    by (apply for_all_ascii; vm_compute; reflexivity).
  intro Hc. specialize (H c). rewrite Hc in H. exact H.
Qed.

Lemma float_char_number (c : ascii) : float_char c = true -> number_char c = true.
Proof. unfold number_char. intros ->. reflexivity. Qed.

(** The text of a float, by the kind of float. *)
Lemma float_text_cases (r : string) :
  is_float_repr r = true ->
  (Json.float_text r = "NaN" /\ r = "nan")
  \/ (Json.float_text r = "Infinity" /\ r = "inf")
  \/ (Json.float_text r = "-Infinity" /\ r = "-inf")
  \/ (Json.float_text r = r
      /\ Str.forallb float_char r = true
      /\ Str.existsb (fun c => Ascii.eqb c "." || Ascii.eqb c "e") r = true).
Proof.
  unfold is_float_repr, Json.float_text.
  destruct (String.eqb_spec r "nan") as [->|_]; [auto|].
  destruct (String.eqb_spec r "inf") as [->|_]; [auto|].
  destruct (String.eqb_spec r "-inf") as [->|_]; [auto 6|].
  cbn [orb]. intro H. apply andb_true_iff in H. auto 6.
Qed.

Lemma float_text_chars (r : string) :
  is_float_repr r = true ->
  Str.forallb number_char (Json.float_text r) = true
  /\ Str.existsb (fun c => negb (int_char c)) (Json.float_text r) = true.
Proof.
  intro H.
  destruct (float_text_cases r H) as [[-> _]|[[-> _]|[[-> _]|(-> & Hf & He)]]];
    try (split; reflexivity).
  split.
  - apply forallb_weaken with (p := float_char); [apply float_char_number | exact Hf].
  - revert He. clear. induction r as [|c r IH]; cbn [Str.existsb]; [discriminate|].
    intro H. apply orb_true_iff in H as [Hc|Hr].
    + replace (negb (int_char c)) with true; [reflexivity|].
      revert Hc.
      assert (A : forall c, implb (Ascii.eqb c "." || Ascii.eqb c "e")
                                  (negb (int_char c)) = true)
        by (apply for_all_ascii; vm_compute; reflexivity).
      intro Hc. specialize (A c). rewrite Hc in A. symmetry. exact A.
    + rewrite (IH Hr). apply orb_true_r.
Qed.

Lemma float_text_inj (r1 r2 : string) :
  is_float_repr r1 = true -> is_float_repr r2 = true ->
  Json.float_text r1 = Json.float_text r2 -> r1 = r2.
Proof.
  intros H1 H2 E.
  destruct (float_text_cases r1 H1) as [[E1 ->]|[[E1 ->]|[[E1 ->]|(E1 & F1 & _)]]];
    destruct (float_text_cases r2 H2) as [[E2 ->]|[[E2 ->]|[[E2 ->]|(E2 & F2 & _)]]];
    try reflexivity;
    rewrite E1, E2 in E; try discriminate;
    try (subst; discriminate).
  exact E.
Qed.

Lemma int_not_float (z : Z) (r : string) :
  is_float_repr r = true -> Str.of_Z z <> Json.float_text r.
Proof.
  intros Hr E. destruct (float_text_chars r Hr) as [_ He].
  rewrite <- E in He.
  rewrite forallb_existsb with (p := int_char) in He;
    [discriminate | | apply of_Z_chars].
  intros c ->. reflexivity.
Qed.

(** *** String literals *)

(** The escapes of two different characters part at some place, and no
    escape begins with a double quote. *)
Lemma escape_char_code (c1 c2 : ascii) :
  c1 = c2 \/ diverge (Json.escape_char c1) (Json.escape_char c2) = true.
Proof.
  assert (H : forall a, forallb (fun b => Ascii.eqb a b
                                          || diverge (Json.escape_char a)
                                                     (Json.escape_char b))
                                all_ascii = true)
    by (apply for_all_ascii; vm_compute; reflexivity).
  specialize (H c1). rewrite forallb_forall in H.
  specialize (H c2 (all_ascii_complete c2)).
  apply orb_true_iff in H as [E|D]; [left; now apply Ascii.eqb_eq | now right].
Qed.

Lemma escape_char_head (c : ascii) :
  diverge (Json.escape_char c) (String Chr.dquote EmptyString) = true.
Proof. revert c. apply for_all_ascii. vm_compute. reflexivity. Qed.

(** A string literal ends at its closing quote: what follows two equal
    beginnings is equal. *)
Lemma quote_inj (s1 s2 x y : string) :
  Json.quote s1 ++ x = Json.quote s2 ++ y -> s1 = s2 /\ x = y.
Proof.
  unfold Json.quote. cbn [append]. rewrite !append_assoc. cbn [append].
  intro H. inversion H as [E]. clear H. revert s2 E.
  induction s1 as [|c1 s1 IH]; intros [|c2 s2]; cbn [Json.escape append];
    rewrite ?append_assoc; intro E.
  - inversion E. auto.
  - exfalso. symmetry in E. revert E.
    change (String Chr.dquote x) with (String Chr.dquote EmptyString ++ x).
    apply diverge_append, escape_char_head.
  - exfalso. revert E.
    change (String Chr.dquote y) with (String Chr.dquote EmptyString ++ y).
    apply diverge_append, escape_char_head.
  - destruct (escape_char_code c1 c2) as [<-|D].
    + apply append_cancel in E. destruct (IH _ E) as [-> ->]. auto.
    + exfalso. revert E. apply diverge_append, D.
Qed.

(** *** Sequences *)

Section Sequences.

Variable A : Type.
Variable item : A -> string.
Variable R : A -> A -> Prop.
Variable good : A -> Prop.
Variable close : ascii.

Hypothesis close_stop : is_stop close = true.
Hypothesis close_not_comma : close <> ","%char.
Hypothesis item_begins : forall a, good a -> begins (item a) = true.

Lemma join_cons (a : A) (l : list A) (s : string) :
  Str.join ", " (map item (a :: l)) ++ String close s
  = item a ++ after_item item close l s.
Proof.
  unfold Str.join. destruct l as [|b l]; cbn [map concat after_item];
    [reflexivity|].
  rewrite !append_assoc. reflexivity.
Qed.

Lemma after_item_ends (l : list A) (s : string) :
  ends (after_item item close l s) = true.
Proof. destruct l; cbn [after_item ends append]; [exact close_stop | reflexivity]. Qed.

Lemma begins_not_close (t x s : string) :
  begins t = true -> t ++ x <> String close s.
Proof.
  destruct t as [|c t]; cbn [begins append]; [discriminate|].
  intros Hc E. inversion E. subst c. rewrite close_stop in Hc. discriminate.
Qed.

(** Two sequences with the same text have the same items, one by one. *)
Lemma join_inj (l : list A) :
  Forall (fun a => good a
                   /\ forall b s1 s2, good b -> ends s1 = true -> ends s2 = true ->
                                      item a ++ s1 = item b ++ s2 -> R a b /\ s1 = s2) l ->
  forall l' s1 s2,
    Forall good l' ->
    Str.join ", " (map item l) ++ String close s1
    = Str.join ", " (map item l') ++ String close s2 ->
    Forall2 R l l' /\ s1 = s2.
Proof.
  induction l as [|a l IH]; intros Hl l' s1 s2 Hl' E.
  - destruct l' as [|b l'].
    + cbn [map Str.join concat append] in E. inversion E. auto.
    + exfalso. rewrite join_cons in E. symmetry in E. revert E.
      apply begins_not_close, item_begins. now inversion Hl'.
  - inversion Hl as [|? ? [Ha Hinj] Hrest]; subst.
    destruct l' as [|b l'].
    + exfalso. rewrite join_cons in E. revert E.
      apply begins_not_close, item_begins, Ha.
    + inversion Hl' as [|? ? Hb Hrest']; subst.
      rewrite !join_cons in E.
      destruct (Hinj b _ _ Hb (after_item_ends l s1) (after_item_ends l' s2) E)
        as [Hab Eafter].
      destruct l as [|a' l]; destruct l' as [|b' l']; cbn [after_item] in Eafter.
      * inversion Eafter. auto.
      * exfalso. inversion Eafter. now apply close_not_comma.
      * exfalso. inversion Eafter. apply close_not_comma. auto.
      * apply append_cancel in Eafter.
        destruct (IH Hrest _ _ _ Hrest' Eafter) as [Hall ->]. auto.
Qed.

End Sequences.

(** *** Values *)

(** The first character of a serialization tells the kind of value. *)
Lemma dumps_kind (v : pyval) :
  is_json v = true ->
  exists c rest, Json.dumps true v = String c rest /\ kind_of_char c = kind v.
Proof.
  destruct v as [ | [|] | z | r | s | l | d]; cbn [is_json Json.dumps kind];
    intro H; try (eexists; eexists; split; reflexivity).
  - destruct (of_Z_chars z) as [Hc Hne].
    destruct (Str.of_Z z) as [|c rest]; [now elim Hne|].
    exists c, rest. split; [reflexivity|].
    cbn [Str.forallb] in Hc. apply andb_true_iff in Hc as [Hc _].
    revert Hc.
    assert (A : forall c, implb (int_char c) (kind_of_char c =? 2)%nat = true)
      by (apply for_all_ascii; vm_compute; reflexivity).
    intro Hc. specialize (A c). rewrite Hc in A. now apply Nat.eqb_eq.
  - destruct (float_text_cases r H) as [[-> _]|[[-> _]|[[-> _]|(-> & Hf & He)]]];
      try (eexists; eexists; split; reflexivity).
    destruct r as [|c rest]; [discriminate|].
    exists c, rest. split; [reflexivity|].
    cbn [Str.forallb] in Hf. apply andb_true_iff in Hf as [Hc _].
    revert Hc.
    assert (A : forall c, implb (float_char c) (kind_of_char c =? 2)%nat = true)
      by (apply for_all_ascii; vm_compute; reflexivity).
    intro Hc. specialize (A c). rewrite Hc in A. now apply Nat.eqb_eq.
Qed.

Lemma dumps_same_kind (v w : pyval) (s1 s2 : string) :
  is_json v = true -> is_json w = true ->
  Json.dumps true v ++ s1 = Json.dumps true w ++ s2 -> kind v = kind w.
Proof.
  intros Hv Hw E.
  destruct (dumps_kind v Hv) as (c & rest & Ev & <-).
  destruct (dumps_kind w Hw) as (c' & rest' & Ew & <-).
  rewrite Ev, Ew in E. inversion E. reflexivity.
Qed.

Lemma dumps_begins (v : pyval) :
  is_json v = true -> begins (Json.dumps true v) = true.
Proof.
  intro H. destruct (dumps_kind v H) as (c & rest & -> & Hk).
  cbn [begins]. revert Hk.
  assert (A : forall c, implb (is_stop c) (kind_of_char c =? 6)%nat = true)
    by (apply for_all_ascii; vm_compute; reflexivity).
  specialize (A c). destruct (is_stop c); [|reflexivity].
  cbn [implb] in A. apply Nat.eqb_eq in A. rewrite A.
  destruct v; discriminate.
Qed.

(** The text of a number, whatever the number. *)
Lemma number_text (v : pyval) :
  is_json v = true -> kind v = 2 ->
  Str.forallb number_char (Json.dumps true v) = true.
Proof.
  destruct v; try discriminate; cbn [is_json Json.dumps]; intros H _.
  - apply forallb_weaken with (p := int_char);
      [apply int_char_number | apply of_Z_chars].
  - apply float_text_chars, H.
Qed.

Lemma sort_entries_insert (kv : string * pyval) (p : items_t) :
  exists q,
    Permutation (kv :: p) q
    /\ Json.insert_entry (serialized kv) (map serialized p) = map serialized q.
Proof.
  induction p as [|kv' p IH]; cbn [map Json.insert_entry].
  - exists [kv]. split; reflexivity.
  - destruct (Json.key_le _ _).
    + exists (kv :: kv' :: p). split; reflexivity.
    + destruct IH as (q & Hq & ->).
      exists (kv' :: q). split; [|reflexivity].
      rewrite perm_swap. apply perm_skip, Hq.
Qed.

(** Sorting the serialized entries is serializing the entries in some
    order. *)
Lemma sort_entries_serialized (d : items_t) :
  exists p,
    Permutation d p
    /\ Json.sort_entries (map serialized d) = map serialized p.
Proof.
  induction d as [|kv d IH]; cbn [map Json.sort_entries].
  - exists []. split; reflexivity.
  - destruct IH as (p & Hp & ->).
    destruct (sort_entries_insert kv p) as (q & Hq & ->).
    exists q. split; [|reflexivity].
    rewrite <- Hq. apply perm_skip, Hp.
Qed.

Lemma dumps_dict (d : items_t) :
  exists p,
    Permutation d p
    /\ forall s,
         Json.dumps true (PDict d) ++ s
         = String "{" (Str.join ", " (map (fun kv => Json.member (serialized kv)) p)
                         ++ String "}" s).
Proof.
  destruct (sort_entries_serialized d) as (p & Hp & E).
  exists p. split; [exact Hp|]. intro s.
  cbn [Json.dumps]. fold serialized. rewrite E, map_map.
  cbn [append]. rewrite !append_assoc. reflexivity.
Qed.

Lemma dumps_list (l : list pyval) (s : string) :
  Json.dumps true (PList l) ++ s
  = String "[" (Str.join ", " (map (Json.dumps true) l) ++ String "]" s).
Proof. cbn [Json.dumps append]. rewrite !append_assoc. reflexivity. Qed.

Lemma Forall2_flip (A B : Type) (R : A -> B -> Prop) (l : list A) (l' : list B) :
  Forall2 R l l' -> Forall2 (fun b a => R a b) l' l.
Proof. induction 1; constructor; auto. Qed.

Lemma forallb_Forall (A : Type) (p : A -> bool) (l : list A) :
  forallb p l = true <-> Forall (fun x => p x = true) l.
Proof. rewrite forallb_forall, Forall_forall. reflexivity. Qed.

(** Two values whose serializations begin a text alike, each followed
    by an end, are the same, and so is what follows them. *)
Lemma dumps_inj (v : pyval) :
  is_json v = true ->
  forall w s1 s2,
    is_json w = true -> ends s1 = true -> ends s2 = true ->
    Json.dumps true v ++ s1 = Json.dumps true w ++ s2 ->
    same v w /\ s1 = s2.
Proof.
  induction v as [ | b | z | r | s | l IHl | d IHd] using pyval_nested_ind;
    intros Hv w s1 s2 Hw E1 E2 E;
    pose proof (dumps_same_kind _ _ _ _ Hv Hw E) as K;
    destruct w as [ | b' | z' | r' | s' | l' | d']; try discriminate K; clear K.
  - inversion E. split; [constructor | reflexivity].
  - destruct b, b'; inversion E; split; constructor.
  - destruct (number_token _ _ _ _ (number_text _ Hv eq_refl)
                (number_text _ Hw eq_refl) E1 E2 E) as [Et ->].
    apply of_Z_inj in Et. subst. split; constructor.
  - destruct (number_token _ _ _ _ (number_text _ Hv eq_refl)
                (number_text _ Hw eq_refl) E1 E2 E) as [Et _].
    now elim (@int_not_float z r' Hw).
  - destruct (number_token _ _ _ _ (number_text _ Hv eq_refl)
                (number_text _ Hw eq_refl) E1 E2 E) as [Et _].
    symmetry in Et. now elim (@int_not_float z' r Hv).
  - destruct (number_token _ _ _ _ (number_text _ Hv eq_refl)
                (number_text _ Hw eq_refl) E1 E2 E) as [Et ->].
    apply (float_text_inj _ _ Hv Hw) in Et. subst. split; constructor.
  - cbn [Json.dumps] in E. apply quote_inj in E as [-> ->]. split; constructor.
  - rewrite !dumps_list in E. inversion E as [E']. clear E.
    cbn [is_json] in Hv, Hw. apply forallb_Forall in Hv, Hw.
    destruct (@join_inj pyval (Json.dumps true) same
                (fun x => is_json x = true) "]"%char
                eq_refl ltac:(discriminate) dumps_begins l) with (3 := E')
      as [Hall ->]; [| exact Hw | split; [constructor; exact Hall | reflexivity]].
    clear E'. apply Forall_impl with (2 := Forall_and Hv IHl).
    intros x [Hx Hinj]. split; [exact Hx|].
    intros y t1 t2 Hy. now apply Hinj.
  - cbn [is_json] in Hv, Hw.
    apply andb_true_iff in Hv as [_ Hv]. apply andb_true_iff in Hw as [_ Hw].
    apply forallb_Forall in Hv, Hw.
    destruct (dumps_dict d) as (p & Hp & Ed).
    destruct (dumps_dict d') as (p' & Hp' & Ed').
    rewrite Ed, Ed' in E. inversion E as [E']. clear E Ed Ed'.
    assert (IHp : Forall (fun kv : string * pyval =>
                            is_json (snd kv) = true ->
                            forall w s1 s2,
                              is_json w = true -> ends s1 = true -> ends s2 = true ->
                              Json.dumps true (snd kv) ++ s1 = Json.dumps true w ++ s2 ->
                              same (snd kv) w /\ s1 = s2) p)
      by (apply (Permutation_Forall Hp), IHd).
    apply (Permutation_Forall Hp) in Hv. apply (Permutation_Forall Hp') in Hw.
    destruct (@join_inj (string * pyval)
                (fun kv => Json.member (serialized kv))
                (fun kv kv' => fst kv = fst kv' /\ same (snd kv) (snd kv'))
                (fun kv => is_json (snd kv) = true) "}"%char
                eq_refl ltac:(discriminate) (fun _ _ => eq_refl) p) with (3 := E')
      as [Hall ->]; [| exact Hw |].
    + clear E'. apply Forall_impl with (2 := Forall_and Hv IHp).
      intros kv [Hkv Hinj]. split; [exact Hkv|].
      intros kv' t1 t2 Hkv' Ht1 Ht2.
      unfold Json.member, serialized. cbn [fst snd].
      rewrite !append_assoc. intro Em.
      apply quote_inj in Em as [Ek Em]. apply append_cancel in Em.
      destruct (Hinj Hkv _ _ _ Hkv' Ht1 Ht2 Em). auto.
    + split; [|reflexivity].
      apply Forall2_flip in Hall.
      destruct (Permutation_Forall2 (Permutation_sym Hp') Hall) as (q & Hq & Hall').
      apply Forall2_flip in Hall'.
      apply same_dict with (reordered := q); [|exact Hall'].
      now rewrite Hp.
Qed.

(** Values that are the same have the same key-sorted serialization. *)
Lemma same_dumps (v : pyval) :
  is_json v = true ->
  forall w, same v w -> Json.dumps true v = Json.dumps true w.
Proof.
  induction v as [ | b | z | r | s | l IHl | d IHd] using pyval_nested_ind;
    intros Hv w Hs; inversion Hs; subst; try reflexivity.
  - cbn [Json.dumps]. do 3 f_equal.
    cbn [is_json] in Hv. apply forallb_Forall in Hv.
    clear Hs.
    match goal with H : Forall2 same l _ |- _ => revert Hv IHl; induction H end;
      intros Hv IHl; [reflexivity|].
    inversion Hv; inversion IHl; subst. cbn [map]. f_equal; auto.
  - cbn [is_json] in Hv. apply andb_true_iff in Hv as [Hk Hv].
    apply distinct_NoDup in Hk. apply forallb_Forall in Hv.
    match goal with
    | Hp : Permutation d ?p, Hf : Forall2 _ ?p _ |- _ =>
        rename Hp into Hperm; rename Hf into Hall
    end.
    clear Hs. cbn [Json.dumps]. fold serialized. do 4 f_equal.
    rewrite (SortFacts.sort_entries_permuted
               (l := map serialized d) (l' := map serialized reordered)).
    + f_equal.
      apply (Permutation_Forall Hperm) in Hv, IHd. clear Hperm Hk.
      revert Hv IHd. induction Hall as [|kv kv' p p' [Ek Es] _ IH];
        intros Hv IHd; [reflexivity|].
      inversion Hv; inversion IHd; subst. cbn [map]. f_equal; [|auto].
      unfold serialized. f_equal; [exact Ek | auto].
    + apply Permutation_map, Hperm.
    + rewrite map_map. exact Hk.
Qed.

(** Two decoded values have the same key-sorted serialization exactly
    when they are the same up to the order of keys. *)
Lemma dumps_identifies (v w : pyval) :
  is_json v = true -> is_json w = true ->
  Json.dumps true v = Json.dumps true w <-> same v w.
Proof.
  intros Hv Hw. split.
  - intro E.
    destruct (@dumps_inj v Hv w EmptyString EmptyString Hw eq_refl eq_refl) as [H _];
      [now rewrite !append_empty_r | exact H].
  - apply same_dumps, Hv.
Qed.

(** *** Counting duplicates *)

(** Messages that are pairwise different values have pairwise different
    serializations. *)
Lemma distinct_serializations (messages : list pyval) :
  forallb is_json messages = true ->
  ForallOrdPairs (fun a b => ~ same a b) messages ->
  NoDup (map (Json.dumps true) messages).
Proof.
  intros Hj Hd. induction Hd as [|a l Ha _ IH]; cbn [map]; [constructor|].
  cbn [forallb] in Hj. apply andb_true_iff in Hj as [Hja Hjl].
  constructor; [|apply IH, Hjl].
  intro Hin. apply in_map_iff in Hin as (b & E & Hb).
  rewrite Forall_forall in Ha. apply (Ha b Hb).
  apply dumps_identifies; [exact Hja | | now symmetry].
  rewrite forallb_forall in Hjl. apply Hjl, Hb.
Qed.

Lemma duplicate_count_NoDup (l : list string) : NoDup l -> duplicate_count l = 0.
Proof.
  intro H. unfold duplicate_count. rewrite (nodup_fixed_point string_dec H).
  apply Nat.sub_diag.
Qed.

(** One more occurrence of a string that is there: one more duplicate.
    A string that is not there: no more duplicates. *)
Lemma duplicate_count_cons (x : string) (l : list string) :
  duplicate_count (x :: l)
  = if in_dec string_dec x l then S (duplicate_count l) else duplicate_count l.
Proof.
  unfold duplicate_count. cbn [nodup].
  pose proof (nodup_length_le l).
  destruct (in_dec string_dec x l); cbn [List.length]; lia.
Qed.

Lemma duplicate_count_insert (x : string) (l1 l2 : list string) :
  duplicate_count (l1 ++ x :: l2)
  = if in_dec string_dec x (l1 ++ l2)
    then S (duplicate_count (l1 ++ l2)) else duplicate_count (l1 ++ l2).
Proof.
  rewrite (duplicate_count_perm (l := (l1 ++ x :: l2)%list) (l' := x :: (l1 ++ l2)%list))
    by (symmetry; apply Permutation_middle).
  apply duplicate_count_cons.
Qed.

Lemma json_record_parts (messages : list pyval) :
  forallb json_record messages = true ->
  forallb Py.is_dict messages = true /\ forallb is_json messages = true.
Proof.
  rewrite !forallb_forall. intro H. split; intros m Hm;
    apply H, andb_true_iff in Hm; tauto.
Qed.

(** What [analyze_data] reports as anomalies for mappings. *)
Lemma anomalies_of_dicts (set_iter : list string -> list string)
    (messages : list pyval) :
  messages <> [] ->
  forallb Py.is_dict messages = true ->
  exists f,
    analyze_data set_iter messages = Ok f
    /\ anomalies f
       = let duplicates := duplicate_count (map (Json.dumps true) messages) in
         if (0 <? duplicates)%nat then [DuplicateMessages duplicates] else [].
Proof.
  intros Hne Hall. rewrite analyze_data_nonempty by exact Hne.
  unfold analyze_messages.
  destruct (empty_fields_from_dicts _ Hall []) as (c & ->). cbn [bind].
  eexists. split; [reflexivity|]. cbn [anomalies].
  rewrite not_dicts_none by exact Hall. reflexivity.
Qed.

(** C9: two structurally identical records (the same key-value pairs,
    in any key order, at any depth) have the same key-sorted
    serialization, and two decoded values have the same key-sorted
    serialization only if they are structurally identical.  So a record
    placed anywhere in a list that holds a structurally identical one
    is counted as exactly one more duplicate, and a record that is
    structurally identical to none of the list is not counted.  In
    particular, placed anywhere among records that differ from them and
    from each other, two structurally identical records make
    [analyze_data] report exactly one duplicate, and with one of the two
    left out nothing is reported.  The number of duplicates is the same
    for every order of the input and every order of the keys. *)
Theorem duplicate_pair_counted_once (set_iter : list string -> list string)
    (before between after : list pyval) (r1 r2 : pyval) :
  forallb json_record (r1 :: r2 :: before ++ between ++ after) = true ->
  same r1 r2 ->
  (forall v w,
      is_json v = true -> is_json w = true ->
      (Json.dumps true v = Json.dumps true w <-> same v w))
  /\ duplicate_count
       (map (Json.dumps true) (before ++ r1 :: between ++ r2 :: after))
     = S (duplicate_count (map (Json.dumps true) (before ++ r1 :: between ++ after)))
  /\ ((forall m, In m (before ++ between ++ after) -> ~ same r1 m) ->
      duplicate_count (map (Json.dumps true) (before ++ r1 :: between ++ after))
      = duplicate_count (map (Json.dumps true) (before ++ between ++ after)))
  /\ (ForallOrdPairs (fun a b => ~ same a b) (r1 :: before ++ between ++ after) ->
      (exists f,
          analyze_data set_iter (before ++ r1 :: between ++ r2 :: after) = Ok f
          /\ anomalies f = [DuplicateMessages 1])
      /\ (exists f,
             analyze_data set_iter (before ++ r1 :: between ++ after) = Ok f
             /\ anomalies f = []))
  /\ (forall messages reordered messages',
         forallb is_json messages = true ->
         Permutation messages reordered ->
         Forall2 same reordered messages' ->
         duplicate_count (map (Json.dumps true) messages)
         = duplicate_count (map (Json.dumps true) messages')).
Proof.
  intros Hrec Hsame.
  destruct (json_record_parts _ Hrec) as [Hdicts Hjson].
  cbn [forallb] in Hdicts, Hjson.
  apply andb_true_iff in Hdicts as [Hd1 Hdicts].
  apply andb_true_iff in Hdicts as [Hd2 Hdicts].
  apply andb_true_iff in Hjson as [Hj1 Hjson].
  apply andb_true_iff in Hjson as [Hj2 Hjson].
  assert (Hpair : Json.dumps true r1 = Json.dumps true r2)
    by (apply same_dumps; assumption).
  assert (Hone : duplicate_count
                   (map (Json.dumps true) (before ++ r1 :: between ++ r2 :: after))
                 = S (duplicate_count
                        (map (Json.dumps true) (before ++ r1 :: between ++ after)))).
  { replace (before ++ r1 :: between ++ r2 :: after)%list
      with ((before ++ r1 :: between) ++ r2 :: after)%list
      by (rewrite <- app_assoc; reflexivity).
    rewrite map_app. cbn [map]. rewrite duplicate_count_insert.
    rewrite <- map_app, <- app_assoc. cbn [app].
    destruct (in_dec string_dec _ _) as [_|Hout]; [reflexivity|].
    elim Hout. rewrite <- Hpair. apply in_map, in_or_app. right. now left. }
  assert (Hnone : (forall m, In m (before ++ between ++ after) -> ~ same r1 m) ->
                  duplicate_count
                    (map (Json.dumps true) (before ++ r1 :: between ++ after))
                  = duplicate_count
                      (map (Json.dumps true) (before ++ between ++ after))).
  { intro Hfresh. rewrite map_app. cbn [map]. rewrite duplicate_count_insert.
    rewrite <- map_app.
    destruct (in_dec string_dec _ _) as [Hin|_]; [|reflexivity].
    exfalso. apply in_map_iff in Hin as (m & E & Hm).
    apply (Hfresh m Hm). apply dumps_identifies; [exact Hj1 | | now symmetry].
    rewrite forallb_forall in Hjson. apply Hjson, Hm. }
  assert (Hall : forall l,
             Permutation l (r1 :: r2 :: before ++ between ++ after)
             \/ Permutation l (r1 :: before ++ between ++ after) ->
             forallb Py.is_dict l = true).
  { intros l Hl. apply forallb_forall. intros m Hm.
    rewrite forallb_forall in Hdicts.
    destruct Hl as [Hl|Hl]; apply (Permutation_in _ Hl) in Hm.
    - destruct Hm as [<-|[<-|Hm]]; auto.
    - destruct Hm as [<-|Hm]; auto. }
  split; [intros v w; apply dumps_identifies|].
  split; [exact Hone|]. split; [exact Hnone|]. split.
  - intro Hdiff.
    assert (Hzero : duplicate_count
                      (map (Json.dumps true) (before ++ r1 :: between ++ after)) = 0).
    { apply duplicate_count_NoDup.
      apply (Permutation_NoDup
               (l := map (Json.dumps true) (r1 :: before ++ between ++ after))).
      - apply Permutation_map, Permutation_middle.
      - apply distinct_serializations; [|exact Hdiff].
        cbn [forallb]. now rewrite Hj1, Hjson. }
    split.
    + destruct (@anomalies_of_dicts set_iter
                  (before ++ r1 :: between ++ r2 :: after))
        as (f & Hf & Ha).
      * destruct before; discriminate.
      * apply Hall. left. symmetry. rewrite <- Permutation_middle. apply perm_skip.
        rewrite !app_assoc. rewrite <- Permutation_middle. reflexivity.
      * exists f. split; [exact Hf|]. rewrite Ha, Hone, Hzero. reflexivity.
    + destruct (@anomalies_of_dicts set_iter (before ++ r1 :: between ++ after))
        as (f & Hf & Ha).
      * destruct before; discriminate.
      * apply Hall. right. symmetry. apply Permutation_middle.
      * exists f. split; [exact Hf|]. rewrite Ha, Hzero. reflexivity.
  - intros ms reordered ms' Hj Hp Hs.
    rewrite (duplicate_count_perm (Permutation_map (Json.dumps true) Hp)).
    f_equal.
    assert (Hjr : Forall (fun m => is_json m = true) reordered)
      by (apply (Permutation_Forall Hp), forallb_Forall, Hj).
    clear Hp. induction Hs as [|m m' l l' Hm _ IH]; [reflexivity|].
    inversion Hjr; subst. cbn [map]. f_equal; [|auto].
    apply same_dumps; assumption.
Qed.

Lemma duplicate_pair_counted_once_witness :
  exists f,
    analyze_data listed_order
      ([PDict [("user_name", PStr "Omar"); ("message", PStr "hello")]]
         ++ PDict [("user_name", PStr "Layla");
                   ("seen", PDict [("at", PStr "London"); ("times", PInt 2)])]
         :: [PDict [("user_name", PStr "Amira"); ("message", PStr "hello")]]
         ++ PDict [("seen", PDict [("times", PInt 2); ("at", PStr "London")]);
                   ("user_name", PStr "Layla")]
         :: [])
    = Ok f
    /\ anomalies f = [DuplicateMessages 1].
Proof.
  assert (Hnested : same (PDict [("at", PStr "London"); ("times", PInt 2)])
                         (PDict [("times", PInt 2); ("at", PStr "London")])).
  { apply same_dict with (reordered := [("times", PInt 2); ("at", PStr "London")]);
      [apply perm_swap|].
    repeat constructor. }
  apply (@duplicate_pair_counted_once listed_order
           [PDict [("user_name", PStr "Omar"); ("message", PStr "hello")]]
           [PDict [("user_name", PStr "Amira"); ("message", PStr "hello")]]
           []
           (PDict [("user_name", PStr "Layla");
                   ("seen", PDict [("at", PStr "London"); ("times", PInt 2)])])
           (PDict [("seen", PDict [("times", PInt 2); ("at", PStr "London")]);
                   ("user_name", PStr "Layla")])).
  - reflexivity.
  - apply same_dict
      with (reordered := [("seen", PDict [("at", PStr "London"); ("times", PInt 2)]);
                          ("user_name", PStr "Layla")]);
      [apply perm_swap|].
    repeat constructor. exact Hnested.
  - repeat constructor;
      intro H; apply same_dumps in H; try reflexivity;
      vm_compute in H; discriminate.
Defined.

(** * Further properties of the code *)

(** ** The fetcher and the endpoint *)

Lemma ask_question_asks (set_iter : list string -> list string)
    (reply : option pyval) (question : string) (f : fetcher) :
  asks_something question = true ->
  ask_question set_iter reply question f
  = match fetch_messages reply false f with
    | (None, f') => (HTTPException 503, f')
    | (Some messages, f') =>
        if negb (Py.truthy messages) then (AnswerResponse no_data, f')
        else
          match answer_question set_iter question messages with
          | Ok answer => (AnswerResponse answer, f')
          | Raise _ => (HTTPException 500, f')
          end
    end.
Proof.
  intro H. unfold ask_question. rewrite blank_test.
  apply negb_true_iff in H. rewrite H. reflexivity.
Qed.

Lemma fetch_messages_first (reply : option pyval) (force : bool) (f : fetcher) :
  is_none (cache f) || force = true ->
  fetch_messages reply force f
  = match reply with
    | None => (None, {| cache := cache f; requests_sent := S (requests_sent f) |})
    | Some data =>
        (Some (payload data),
         {| cache := payload data; requests_sent := S (requests_sent f) |})
    end.
Proof.
  intro H. unfold fetch_messages. rewrite H.
  destruct reply as [data|]; [|reflexivity].
  destruct data; reflexivity.
Qed.

Lemma fetch_messages_cached (reply : option pyval) (f : fetcher) :
  is_none (cache f) = false ->
  fetch_messages reply false f = (Some (cache f), f).
Proof. intro H. unfold fetch_messages. rewrite H. reflexivity. Qed.

(** X1: once the cache holds something, a request to [/ask] never goes
    to the source again: the response is the one it would give with the
    source down, and the fetcher is left as it was. *)
Theorem cached_messages_are_reused (set_iter : list string -> list string)
    (reply : option pyval) (question : string) (f : fetcher) :
  is_none (cache f) = false ->
  ask_question set_iter reply question f = ask_question set_iter None question f
  /\ snd (ask_question set_iter reply question f) = f.
Proof.
  intro H. unfold ask_question.
  rewrite !fetch_messages_cached by exact H.
  split; [reflexivity|].
  destruct (_ || _); [reflexivity|].
  destruct (negb _); [reflexivity|].
  destruct (answer_question _ _ _); reflexivity.
Qed.

Lemma cached_messages_are_reused_witness :
  snd (ask_question listed_order (Some (PList []))
         "How many cars does Layla have?"
         {| cache := PList [PDict [("user_name", PStr "Layla")]];
            requests_sent := 1 |})
  = {| cache := PList [PDict [("user_name", PStr "Layla")]]; requests_sent := 1 |}.
Proof.
  eapply proj2. apply cached_messages_are_reused. reflexivity.
Defined.

(** X2: the first question that is not blank fetches once and caches
    what the reply stands for (the items of an envelope, a list as it
    is, any other value in a list); when that is not null, every later
    request leaves the fetcher alone. *)
Theorem first_fetch_is_cached (set_iter : list string -> list string)
    (data : pyval) (reply' : option pyval) (question question' : string)
    (f : fetcher) :
  is_none (cache f) = true ->
  asks_something question = true ->
  is_none (payload data) = false ->
  snd (ask_question set_iter (Some data) question f)
  = {| cache := payload data; requests_sent := S (requests_sent f) |}
  /\ snd (ask_question set_iter reply' question'
            (snd (ask_question set_iter (Some data) question f)))
     = {| cache := payload data; requests_sent := S (requests_sent f) |}.
Proof.
  intros Hc Hq Hp.
  assert (E : snd (ask_question set_iter (Some data) question f)
              = {| cache := payload data; requests_sent := S (requests_sent f) |}).
  { rewrite ask_question_asks by exact Hq.
    rewrite fetch_messages_first by (rewrite Hc; reflexivity).
    destruct (negb _); [reflexivity|].
    destruct (answer_question _ _ _); reflexivity. }
  split; [exact E|].
  rewrite E. apply cached_messages_are_reused. exact Hp.
Qed.

Lemma first_fetch_is_cached_witness :
  snd (ask_question listed_order
         (Some (PDict [("total", PInt 1);
                       ("items", PList [PDict [("user_name", PStr "Layla")]])]))
         "Where is Layla?" {| cache := PNone; requests_sent := 0 |})
  = {| cache := payload (PDict [("total", PInt 1);
                                ("items", PList [PDict [("user_name", PStr "Layla")]])]);
       requests_sent := 1 |}.
Proof.
  eapply proj1.
  apply first_fetch_is_cached with (reply' := None) (question' := EmptyString);
    reflexivity.
Defined.

(** X3: when the source fails on a cold cache, a question that is not
    blank gets status 503, the cache stays unset, and the next such
    question sends a new request. *)
Theorem failed_fetch_is_retried (set_iter : list string -> list string)
    (data : pyval) (question question' : string) (f : fetcher) :
  is_none (cache f) = true ->
  asks_something question = true ->
  asks_something question' = true ->
  ask_question set_iter None question f
  = (HTTPException 503, {| cache := cache f; requests_sent := S (requests_sent f) |})
  /\ snd (ask_question set_iter (Some data) question'
            (snd (ask_question set_iter None question f)))
     = {| cache := payload data; requests_sent := S (S (requests_sent f)) |}.
Proof.
  intros Hc Hq Hq'.
  assert (E : ask_question set_iter None question f
              = (HTTPException 503,
                 {| cache := cache f; requests_sent := S (requests_sent f) |})).
  { rewrite ask_question_asks by exact Hq.
    rewrite fetch_messages_first by (rewrite Hc; reflexivity). reflexivity. }
  split; [exact E|].
  rewrite E. cbn [snd].
  rewrite ask_question_asks by exact Hq'.
  rewrite fetch_messages_first by (cbn [cache]; rewrite Hc; reflexivity).
  cbn [cache requests_sent].
  destruct (negb _); [reflexivity|].
  destruct (answer_question _ _ _); reflexivity.
Qed.

Lemma failed_fetch_is_retried_witness :
  ask_question listed_order None "Where is Layla?"
    {| cache := PNone; requests_sent := 0 |}
  = (HTTPException 503, {| cache := PNone; requests_sent := 1 |}).
Proof.
  eapply proj1.
  apply failed_fetch_is_retried with (data := PNone) (question' := "?");
    reflexivity.
Defined.

(** X4: an empty list of messages is cached like any other: the
    question that fetched it and every later question that is not blank
    are answered "No member data available at the moment.", and no
    later request reaches the source, whatever it would return. *)
Theorem empty_data_is_cached (set_iter : list string -> list string)
    (data : pyval) (reply' : option pyval) (question question' : string)
    (f : fetcher) :
  is_none (cache f) = true ->
  asks_something question = true ->
  asks_something question' = true ->
  payload data = PList [] ->
  ask_question set_iter (Some data) question f
  = (AnswerResponse no_data,
     {| cache := PList []; requests_sent := S (requests_sent f) |})
  /\ ask_question set_iter reply' question'
       {| cache := PList []; requests_sent := S (requests_sent f) |}
     = (AnswerResponse no_data,
        {| cache := PList []; requests_sent := S (requests_sent f) |}).
Proof.
  intros Hc Hq Hq' Hp. split.
  - rewrite ask_question_asks by exact Hq.
    rewrite fetch_messages_first by (rewrite Hc; reflexivity).
    rewrite Hp. reflexivity.
  - rewrite ask_question_asks by exact Hq'.
    rewrite fetch_messages_cached by reflexivity. reflexivity.
Qed.

Lemma empty_data_is_cached_witness :
  ask_question listed_order (Some (PDict [("total", PInt 0); ("items", PList [])]))
    "Where is Layla?" {| cache := PNone; requests_sent := 0 |}
  = (AnswerResponse no_data, {| cache := PList []; requests_sent := 1 |}).
Proof.
  eapply proj1.
  apply empty_data_is_cached with (reply' := None) (question' := "?");
    reflexivity.
Defined.

(** X5: of an envelope only [items] is read: an envelope whose items
    are the list [l] and the bare list [l] are fetched alike, by the
    service and by the report script. *)
Theorem envelope_is_its_items (d : items_t) (l : list pyval) (force : bool)
    (f : fetcher) :
  Py.has_key d "items" = true ->
  Py.get d "items" PNone = PList l ->
  fetch_messages (Some (PDict d)) force f = fetch_messages (Some (PList l)) force f
  /\ fetch_report_messages (Some (PDict d)) = fetch_report_messages (Some (PList l)).
Proof.
  intros Hk Hg. unfold fetch_messages, fetch_report_messages.
  rewrite Hk, Hg. split; reflexivity.
Qed.

Lemma envelope_is_its_items_witness :
  fetch_report_messages
    (Some (PDict [("total", PInt 7); ("items", PList [PDict [("message", PStr "hi")]])]))
  = fetch_report_messages (Some (PList [PDict [("message", PStr "hi")]])).
Proof.
  eapply proj2.
  apply envelope_is_its_items
    with (force := false) (f := {| cache := PNone; requests_sent := 0 |});
    reflexivity.
Defined.

(** ** What [answer_question_simple] returns *)

Lemma trip_message_sentence (who : string) (d : items_t) (text a : string) :
  trip_message who d text = Ok a -> sentence who a.
Proof.
  unfold trip_message.
  destruct (find_dates text) as [|date dates].
  - destruct (Py.truthy _).
    + destruct (Py.slice_to 10 _); cbn [bind]; intro H; inversion H. constructor.
    + intro H. inversion H. constructor.
  - intro H. inversion H. constructor.
Qed.

Lemma trip_answer_sentence (who : string) (relevant : list pyval) (a : string) :
  trip_answer who relevant = Ok a -> sentence who a.
Proof.
  induction relevant as [|msg rest IH]; cbn [trip_answer].
  - intro H. inversion H. constructor.
  - destruct msg; auto.
    destruct (Py.lower _); cbn [bind]; [|discriminate].
    destruct (Str.contains "london" _); auto.
    apply trip_message_sentence.
Qed.

Lemma car_answer_sentence (who : string) (relevant : list pyval) (a : string) :
  car_answer who relevant = Ok a -> sentence who a.
Proof.
  unfold car_answer.
  destruct (car_count_from 0 relevant) as [n|]; cbn [bind]; [|discriminate].
  destruct (0 <? n)%Z eqn:E.
  - unfold Py.str_of_int.
    destruct (Z.abs n <? Py.int_str_bound)%Z; cbn [bind]; intro H; inversion H.
    apply cars_counted, Z.ltb_lt, E.
  - intro H. inversion H. constructor.
Qed.

Lemma restaurant_answer_sentence (set_iter : list string -> list string)
    (who : string) (relevant : list pyval) (a : string) :
  restaurant_answer set_iter who relevant = Ok a -> sentence who a.
Proof.
  unfold restaurant_answer.
  destruct (restaurants_from relevant) as [l|]; cbn [bind]; [|discriminate].
  destruct l; intro H; inversion H; constructor.
Qed.

(** X6: whenever [answer_question_simple] returns, for any question and
    any messages, what it returns is one of its ten sentences about the
    subject it displays, hence never the empty string. *)
Theorem returned_answer_is_a_sentence (set_iter : list string -> list string)
    (question : string) (messages : list pyval) (a : string) :
  answer_question_simple set_iter question messages = Ok a ->
  sentence (name_display (extract_names question)) a /\ a <> EmptyString.
Proof.
  intro H.
  assert (S : sentence (name_display (extract_names question)) a).
  { revert H. unfold answer_question_simple.
    destruct (relevant_messages _ _) as [rel|]; cbn [bind]; [|discriminate].
    destruct (_ || _); [apply trip_answer_sentence|].
    destruct (_ || _); [apply car_answer_sentence|].
    destruct (_ || _); [apply restaurant_answer_sentence|].
    intro H. inversion H. apply fallback_answer_sentence. }
  split; [exact S | apply (sentence_nonempty S)].
Qed.

Lemma returned_answer_is_a_sentence_witness :
  sentence (name_display (extract_names "Omar said what?"))
    "I found 1 message(s) related to Omar, but couldn't extract a specific answer."
  /\ "I found 1 message(s) related to Omar, but couldn't extract a specific answer."
     <> EmptyString.
Proof.
  apply (returned_answer_is_a_sentence listed_order "Omar said what?"
           [PDict [("user_name", PStr "Omar"); ("timestamp", PInt 4)]]).
  vm_compute. reflexivity.
Defined.

(** X7: the handler of [/ask] ends in one of four ways: status 400, 503
    or 500, or a response whose answer is not empty. *)
Theorem ask_question_outcomes (set_iter : list string -> list string)
    (reply : option pyval) (question : string) (f : fetcher) :
  match fst (ask_question set_iter reply question f) with
  | HTTPException status_code =>
      status_code = 400 \/ status_code = 503 \/ status_code = 500
  | AnswerResponse answer => answer <> EmptyString
  end.
Proof.
  unfold ask_question.
  destruct (_ || _); [simpl; auto|].
  destruct (fetch_messages reply false f) as [[messages|] f']; [|simpl; auto].
  destruct (negb _); [simpl; discriminate|].
  unfold answer_question.
  destruct (Py.iter messages) as [msgs|]; cbn [bind]; [|simpl; auto].
  destruct (answer_question_simple set_iter question msgs) eqn:E; [|simpl; auto].
  simpl. apply (returned_answer_is_a_sentence _ _ _ E).
Qed.



(** ** The relevance filter *)

Lemma filter_by_names_spec (names : list string) (messages relevant : list pyval) :
  filter_by_names names messages = Ok relevant ->
  relevant
  = filter (fun msg =>
              match msg with
              | PDict d =>
                  name_matches names (field_text d "user_name") (field_text d "message")
              | _ => false
              end) messages.
Proof.
  revert relevant. induction messages as [|msg rest IH]; intros rel H.
  - inversion H. reflexivity.
  - cbn [filter_by_names] in H. cbn [filter].
    destruct msg; auto.
    destruct (Py.get items "user_name" (PStr EmptyString)) as [ | | | |u| |] eqn:Eu;
      cbn [Py.lower bind] in H; try discriminate.
    destruct (Py.get items "message" (PStr EmptyString)) as [ | | | |m| |] eqn:Em;
      cbn [Py.lower bind] in H; try discriminate.
    destruct (filter_by_names names rest) as [rel'|]; cbn [bind] in H;
      [|discriminate].
    rewrite <- (IH rel' eq_refl).
    replace (field_text items "user_name") with (Str.lower u)
      by (unfold field_text; rewrite Eu; reflexivity).
    replace (field_text items "message") with (Str.lower m)
      by (unfold field_text; rewrite Em; reflexivity).
    destruct (name_matches _ _ _); inversion H; reflexivity.
Qed.

(** X9: when the relevance filter returns, it has kept exactly the
    mappings that satisfy its rule, in the order of the input: all
    mappings when the question has no candidate name, otherwise those
    whose lower-cased [user_name] or [message] contains a lower-cased
    candidate name.  Entries that are not mappings are never kept. *)
Theorem relevant_messages_spec (names : list string)
    (messages relevant : list pyval) :
  relevant_messages names messages = Ok relevant ->
  relevant = filter (is_relevant names) messages
  /\ forallb Py.is_dict relevant = true.
Proof.
  intro H.
  assert (E : relevant = filter (is_relevant names) messages).
  { destruct names as [|n names].
    - inversion H. apply filter_ext. intros [ | | | | | |]; reflexivity.
    - apply filter_by_names_spec in H. rewrite H.
      apply filter_ext. intros [ | | | | | |]; reflexivity. }
  split; [exact E|].
  rewrite E. apply forallb_forall. intros m Hm.
  apply filter_In in Hm as [_ Hm]. destruct m; try discriminate. reflexivity.
Qed.

Lemma relevant_messages_spec_witness :
  [PDict [("user_name", PStr "LAYLA Haddad")]; PDict [("message", PStr "ask layla")]]
  = filter (is_relevant ["Layla"])
      [PDict [("user_name", PStr "LAYLA Haddad")]; PStr "Layla";
       PDict [("user_name", PStr "Omar")]; PDict [("message", PStr "ask layla")]]
  /\ forallb Py.is_dict
       [PDict [("user_name", PStr "LAYLA Haddad")]; PDict [("message", PStr "ask layla")]]
     = true.
Proof.
  apply relevant_messages_spec. reflexivity.
Defined.

(** ** The trip intent *)

(** X10: the trip answer is decided by the first relevant message that
    mentions London: the messages before it, which do not, and all the
    messages after it, whatever they hold, do not change it. *)
Theorem first_london_message_decides (who text : string)
    (before after : list pyval) (d : items_t) :
  forallb no_london before = true ->
  Py.get d "message" (PStr EmptyString) = PStr text ->
  Str.contains "london" (Str.lower text) = true ->
  trip_answer who (before ++ PDict d :: after) = trip_message who d text.
Proof.
  intros Hb Hd Hl.
  rewrite trip_answer_skips by exact Hb.
  cbn [trip_answer]. rewrite Hd. cbn [Py.lower bind Py.str]. rewrite Hl.
  reflexivity.
Qed.

Lemma first_london_message_decides_witness :
  trip_answer "Layla"
    ([PDict [("message", PStr "Paris in May")]]
       ++ PDict [("message", PStr "London, this Friday!")]
       :: [PDict [("message", PInt 0)]; PStr "London 2024-01-01"])
  = trip_message "Layla" [("message", PStr "London, this Friday!")]
      "London, this Friday!".
Proof.
  apply first_london_message_decides; reflexivity.
Defined.

(** X11: which date is quoted follows the order of the patterns, not the
    order in the text: when the message has a date of the form
    [dddd-dd-dd], the first such date is the one quoted, wherever a
    month, a weekday or a relative day stands. *)
Theorem iso_date_is_quoted_first (who text : string) (d : items_t)
    (date : Re.found) (more : list Re.found) :
  Re.findall true Patterns.date_iso text = date :: more ->
  trip_message who d text
  = Ok (who ++ " is planning a trip to London on " ++ Re.str date ++ ".").
Proof.
  intro H. unfold trip_message, find_dates, Patterns.date_patterns.
  cbn [flat_map]. rewrite H. reflexivity.
Qed.

Lemma iso_date_is_quoted_first_witness :
  trip_message "Layla" [("message", PStr "London next Friday, back on 2024-03-15")]
    "London next Friday, back on 2024-03-15"
  = Ok ("Layla" ++ " is planning a trip to London on "
          ++ Re.str (Re.FStr "2024-03-15") ++ ".").
Proof.
  apply iso_date_is_quoted_first with (more := []). vm_compute. reflexivity.
Defined.

(** ** The car intent *)




(** ** The restaurant intent *)

(** X13: when restaurant names were collected, the answer lists at most
    five of them, each one once, and every listed name is one of the
    collected candidates. *)
Theorem restaurants_listed_capped (set_iter : list string -> list string)
    (who : string) (relevant : list pyval) (candidates : list string) :
  set_iter_spec set_iter ->
  restaurants_from relevant = Ok candidates ->
  candidates <> [] ->
  exists names,
    restaurant_answer set_iter who relevant
    = Ok (who ++ "'s favorite restaurants include: " ++ Str.join ", " names ++ ".")
    /\ List.length names <= 5
    /\ NoDup names
    /\ (forall n, In n names -> In n candidates).
Proof.
  intros Hset Hfrom Hne.
  exists (firstn 5 (set_iter candidates)).
  unfold restaurant_answer. rewrite Hfrom. cbn [bind].
  destruct candidates as [|c cs]; [now elim Hne|].
  split; [reflexivity|]. split; [apply firstn_le_length|]. split.
  - destruct (Hset (c :: cs)) as [Hnd _].
    rewrite <- (firstn_skipn 5 (set_iter (c :: cs))) in Hnd.
    apply NoDup_app_remove_r in Hnd. exact Hnd.
  - intros n Hn. apply (proj2 (Hset (c :: cs))).
    rewrite <- (firstn_skipn 5 (set_iter (c :: cs))).
    apply in_or_app. now left.
Qed.

Lemma restaurants_listed_capped_witness :
  exists names,
    restaurant_answer listed_order "Amira"
      [PDict [("message", PStr "Try Nobu restaurant or Le Petit Cafe restaurant")]]
    = Ok ("Amira" ++ "'s favorite restaurants include: " ++ Str.join ", " names ++ ".")
    /\ List.length names <= 5
    /\ NoDup names
    /\ (forall n, In n names ->
                  In n (restaurant_candidates
                          "Try Nobu restaurant or Le Petit Cafe restaurant" ++ [])%list).
Proof.
  apply restaurants_listed_capped.
  - apply listed_order_spec.
  - reflexivity.
  - vm_compute. discriminate.
Defined.

(** ** The report: field frequencies *)

Lemma keys_incr (key : string) (counts : list (string * nat)) :
  map fst (incr key counts)
  = if Str.mem key (map fst counts) then map fst counts
    else (map fst counts ++ [key])%list.
Proof.
  induction counts as [|[k n] counts IH]; [reflexivity|].
  cbn [incr map fst Str.mem existsb]. fold (Str.mem key (map fst counts)).
  rewrite (String.eqb_sym key k).
  destruct (String.eqb k key); cbn [map fst orb]; [reflexivity|].
  rewrite IH. destruct (Str.mem key (map fst counts)); reflexivity.
Qed.

Lemma NoDup_keys_incr (key : string) (counts : list (string * nat)) :
  NoDup (map fst counts) -> NoDup (map fst (incr key counts)).
Proof.
  intro H. rewrite keys_incr.
  destruct (Str.mem key (map fst counts)) eqn:E; [exact H|].
  apply NoDup_rev in H. rewrite <- (rev_involutive (_ ++ _)).
  apply NoDup_rev. rewrite rev_app_distr. cbn [rev app].
  constructor; [|exact H].
  rewrite <- in_rev. intro Hin. apply mem_In in Hin. congruence.
Qed.

Lemma NoDup_keys_incr_all (keys : list string) :
  forall counts, NoDup (map fst counts) -> NoDup (map fst (incr_all keys counts)).
Proof.
  induction keys as [|k keys IH]; intros counts H; [exact H|].
  apply IH, NoDup_keys_incr, H.
Qed.

Lemma NoDup_keys_tally (messages : list pyval) :
  forall t i,
    NoDup (map fst (field_counts t)) ->
    NoDup (map fst (field_counts (tally_from t i messages))).
Proof.
  induction messages as [|msg rest IH]; intros t i H; [exact H|].
  cbn [tally_from]. apply IH. rewrite field_counts_message.
  destruct msg; try exact H. apply NoDup_keys_incr_all, H.
Qed.

Lemma occurrences_le (field : string) (messages : list pyval) :
  occurrences field messages <= List.length messages.
Proof. apply filter_length_le. Qed.

(** X14: for a non-empty list of well-formed records the report is
    produced; its [total_messages] is the number of messages; its
    [field_frequency] has each field once, holds exactly the fields that
    occur, and gives each the number of messages that carry it, which is
    at most the number of messages; [total_fields] counts these fields. *)
Theorem field_frequency_counts_messages (set_iter : list string -> list string)
    (messages : list pyval) :
  messages <> [] ->
  forallb is_record messages = true ->
  exists f st,
    analyze_data set_iter messages = Ok f
    /\ statistics f = Some st
    /\ total_messages f = List.length messages
    /\ NoDup (map fst (field_frequency st))
    /\ total_fields st = List.length (field_frequency st)
    /\ (forall field,
           count_of (field_frequency st) field = occurrences field messages
           /\ (In field (map fst (field_frequency st))
               <-> 0 < occurrences field messages)
           /\ occurrences field messages <= List.length messages).
Proof.
  intros Hne Hrec.
  rewrite analyze_data_nonempty by exact Hne. unfold analyze_messages.
  destruct (empty_fields_from_records _ Hrec []) as (c & ->). cbn [bind].
  eexists. eexists. split; [reflexivity|]. split; [reflexivity|].
  cbn [total_messages field_frequency total_fields].
  split; [reflexivity|]. split; [apply NoDup_keys_tally; constructor|].
  split; [reflexivity|]. intro field.
  destruct (tally_from_counts field _ Hrec empty_tally 0) as [Hpos Hcount];
    [constructor|].
  simpl in Hcount.
  split; [exact Hcount|]. split; [|apply occurrences_le].
  rewrite (count_of_positive _ Hpos), Hcount. reflexivity.
Qed.

Lemma field_frequency_counts_messages_witness :
  exists f st,
    analyze_data listed_order
      [PDict [("user_name", PStr "Layla"); ("message", PStr "hi")];
       PDict [("message", PStr "yo")]] = Ok f
    /\ statistics f = Some st
    /\ total_messages f = 2
    /\ NoDup (map fst (field_frequency st))
    /\ total_fields st = List.length (field_frequency st)
    /\ (forall field,
           count_of (field_frequency st) field
           = occurrences field
               [PDict [("user_name", PStr "Layla"); ("message", PStr "hi")];
                PDict [("message", PStr "yo")]]
           /\ (In field (map fst (field_frequency st))
               <-> 0 < occurrences field
                         [PDict [("user_name", PStr "Layla"); ("message", PStr "hi")];
                          PDict [("message", PStr "yo")]])
           /\ occurrences field
                [PDict [("user_name", PStr "Layla"); ("message", PStr "hi")];
                 PDict [("message", PStr "yo")]] <= 2).
Proof.
  apply field_frequency_counts_messages; [discriminate | reflexivity].
Defined.

(** ** The report: duplicates *)

Lemma nodup_length_full (l : list string) :
  List.length (nodup string_dec l) = List.length l -> NoDup l.
Proof.
  induction l as [|x l IH]; [constructor|].
  cbn [nodup]. destruct (in_dec string_dec x l) as [Hin|Hout]; simpl; intro H.
  - pose proof (nodup_length_le l). lia.
  - constructor; [exact Hout | apply IH; lia].
Qed.

Lemma nodup_nonempty (l : list string) :
  l <> [] -> 0 < List.length (nodup string_dec l).
Proof.
  destruct l as [|x l]; [intro H; now elim H|]. intros _.
  assert (Hin : In x (nodup string_dec (x :: l))) by (apply nodup_In; now left).
  destruct (nodup string_dec (x :: l)); [destruct Hin | simpl; lia].
Qed.

Lemma duplicate_count_zero (l : list string) : duplicate_count l = 0 <-> NoDup l.
Proof.
  unfold duplicate_count. pose proof (nodup_length_le l). split.
  - intro H0. apply nodup_length_full. lia.
  - intro Hn. rewrite (nodup_fixed_point string_dec Hn). lia.
Qed.

(** X15: for a non-empty list of mappings, no duplicate is reported
    exactly when the key-sorted serializations of the messages are
    pairwise different; when one is reported, its count is positive,
    less than the number of messages, and it is the only anomaly. *)
Theorem duplicates_reported_iff_repeated (set_iter : list string -> list string)
    (messages : list pyval) :
  messages <> [] ->
  forallb Py.is_dict messages = true ->
  exists f,
    analyze_data set_iter messages = Ok f
    /\ (anomalies f = [] <-> NoDup (map (Json.dumps true) messages))
    /\ (forall a, In a (anomalies f) ->
                  exists n, a = DuplicateMessages n
                            /\ 0 < n < List.length messages
                            /\ anomalies f = [DuplicateMessages n]).
Proof.
  intros Hne Hall.
  rewrite analyze_data_nonempty by exact Hne. unfold analyze_messages.
  destruct (empty_fields_from_dicts _ Hall []) as (c & ->). cbn [bind].
  eexists. split; [reflexivity|]. cbn [anomalies].
  rewrite not_dicts_none by exact Hall. cbn [empty_tally not_dicts app].
  set (l := map (Json.dumps true) messages).
  assert (Hlen : List.length l = List.length messages) by apply length_map.
  assert (Hpos : 0 < List.length (nodup string_dec l)).
  { apply nodup_nonempty. destruct messages; [now elim Hne | discriminate]. }
  destruct (0 <? duplicate_count l)%nat eqn:E.
  - apply Nat.ltb_lt in E. split.
    + split; [discriminate|]. intro Hn.
      apply duplicate_count_zero in Hn. lia.
    + intros a [<-|[]]. eexists. split; [reflexivity|]. split; [|reflexivity].
      unfold duplicate_count in *. lia.
  - apply Nat.ltb_ge in E. split.
    + split; [|reflexivity]. intros _. apply duplicate_count_zero. lia.
    + intros a [].
Qed.

Lemma duplicates_reported_iff_repeated_witness :
  exists f,
    analyze_data listed_order
      [PDict [("message", PStr "hi")]; PDict [("message", PStr "hi")];
       PDict [("message", PStr "hi")]] = Ok f
    /\ (anomalies f = []
        <-> NoDup (map (Json.dumps true)
                     [PDict [("message", PStr "hi")]; PDict [("message", PStr "hi")];
                      PDict [("message", PStr "hi")]]))
    /\ (forall a, In a (anomalies f) ->
                  exists n, a = DuplicateMessages n
                            /\ 0 < n < 3
                            /\ anomalies f = [DuplicateMessages n]).
Proof.
  apply duplicates_reported_iff_repeated; [discriminate | reflexivity].
Defined.

(** ** The report: types of a field *)

Lemma In_set_add (x ty : string) (s : list string) :
  In x (set_add ty s) <-> x = ty \/ In x s.
Proof.
  unfold set_add. destruct (Str.mem ty s) eqn:E.
  - apply mem_In in E. split; [auto|]. intros [->|H]; assumption.
  - rewrite in_app_iff. simpl. intuition.
Qed.

Lemma NoDup_set_add (ty : string) (s : list string) :
  NoDup s -> NoDup (set_add ty s).
Proof.
  intro H. unfold set_add. destruct (Str.mem ty s) eqn:E; [exact H|].
  apply NoDup_rev in H. rewrite <- (rev_involutive (_ ++ _)).
  apply NoDup_rev. rewrite rev_app_distr. cbn [rev app].
  constructor; [|exact H].
  rewrite <- in_rev. intro Hin. apply mem_In in Hin. congruence.
Qed.

Lemma types_of_add_type (key ty field : string) (types : list (string * list string)) :
  types_of (add_type key ty types) field
  = if String.eqb key field then set_add ty (types_of types field)
    else types_of types field.
Proof.
  induction types as [|[k s] types IH]; simpl.
  - destruct (String.eqb key field); reflexivity.
  - destruct (String.eqb k key) eqn:Ek; simpl.
    + apply String.eqb_eq in Ek. subst k.
      destruct (String.eqb key field); reflexivity.
    + destruct (String.eqb k field) eqn:Ef; [|exact IH].
      apply String.eqb_eq in Ef. subst k. rewrite String.eqb_sym, Ek. reflexivity.
Qed.

Lemma keys_add_type (key ty : string) (types : list (string * list string)) :
  map fst (add_type key ty types)
  = if Str.mem key (map fst types) then map fst types
    else (map fst types ++ [key])%list.
Proof.
  induction types as [|[k s] types IH]; [reflexivity|].
  cbn [add_type map fst Str.mem existsb]. fold (Str.mem key (map fst types)).
  rewrite (String.eqb_sym key k).
  destruct (String.eqb k key); cbn [map fst orb]; [reflexivity|].
  rewrite IH. destruct (Str.mem key (map fst types)); reflexivity.
Qed.

Lemma NoDup_keys_add_type (key ty : string) (types : list (string * list string)) :
  NoDup (map fst types) -> NoDup (map fst (add_type key ty types)).
Proof.
  intro H. rewrite keys_add_type.
  destruct (Str.mem key (map fst types)) eqn:E; [exact H|].
  apply NoDup_rev in H. rewrite <- (rev_involutive (_ ++ _)).
  apply NoDup_rev. rewrite rev_app_distr. cbn [rev app].
  constructor; [|exact H].
  rewrite <- in_rev. intro Hin. apply mem_In in Hin. congruence.
Qed.

Lemma field_types_track (d : items_t) (keys : list string) (t : tally) :
  field_types (fold_left (track_key d) keys t) = add_types d keys (field_types t).
Proof.
  revert t. induction keys as [|k keys IH]; intro t; [reflexivity|].
  cbn [fold_left]. rewrite IH. reflexivity.
Qed.

Lemma field_types_message (t : tally) (i : nat) (msg : pyval) :
  field_types (tally_message t i msg)
  = match msg with
    | PDict d => add_types d (map fst d) (field_types t)
    | _ => field_types t
    end.
Proof. destruct msg; simpl; try reflexivity. apply field_types_track. Qed.

Lemma NoDup_keys_add_types (d : items_t) (keys : list string) :
  forall types, NoDup (map fst types) -> NoDup (map fst (add_types d keys types)).
Proof.
  induction keys as [|k keys IH]; intros types H; [exact H|].
  apply IH, NoDup_keys_add_type, H.
Qed.

Lemma types_of_add_types (d : items_t) (field : string) (keys : list string) :
  NoDup keys ->
  forall types,
    types_of (add_types d keys types) field
    = if Str.mem field keys
      then set_add (Py.type_name (Py.get d field PNone)) (types_of types field)
      else types_of types field.
Proof.
  induction 1 as [|k keys Hk Hn IH]; intro types; [reflexivity|].
  change (add_types d (k :: keys) types)
    with (add_types d keys (add_type k (Py.type_name (Py.get d k PNone)) types)).
  rewrite IH, types_of_add_type.
  cbn [Str.mem existsb]. fold (Str.mem field keys).
  rewrite (String.eqb_sym field k).
  destruct (String.eqb k field) eqn:E; cbn [orb]; [|reflexivity].
  apply String.eqb_eq in E. subst k.
  destruct (Str.mem field keys) eqn:M; [|reflexivity].
  apply mem_In in M. contradiction.
Qed.

(** What the first loop has recorded for [field]: the type names of its
    values, each once. *)
Lemma tally_from_types (field : string) (messages : list pyval) :
  forallb is_record messages = true ->
  forall t i,
    NoDup (map fst (field_types t)) ->
    NoDup (types_of (field_types t) field) ->
    NoDup (map fst (field_types (tally_from t i messages)))
    /\ NoDup (types_of (field_types (tally_from t i messages)) field)
    /\ (forall ty,
           In ty (types_of (field_types (tally_from t i messages)) field)
           <-> In ty (types_of (field_types t) field)
               \/ exists msg, In msg messages /\ field_type field msg = Some ty).
Proof.
  induction messages as [|msg rest IH]; intros H t i Hk Hs.
  - split; [exact Hk|]. split; [exact Hs|].
    intro ty. split; [auto|]. intros [Hin|(m & [] & _)]. exact Hin.
  - cbn [forallb] in H. apply andb_true_iff in H as [Hmsg Hrest].
    destruct msg as [ | | | | | |d]; try discriminate. simpl in Hmsg.
    apply distinct_NoDup in Hmsg.
    cbn [tally_from].
    destruct (IH Hrest (tally_message t i (PDict d)) (S i)) as (H1 & H2 & H3).
    { rewrite field_types_message. apply NoDup_keys_add_types, Hk. }
    { rewrite field_types_message, types_of_add_types by exact Hmsg.
      destruct (Str.mem field (map fst d)); [apply NoDup_set_add|]; exact Hs. }
    split; [exact H1|]. split; [exact H2|].
    intro ty. rewrite H3.
    rewrite field_types_message, types_of_add_types by exact Hmsg.
    rewrite mem_has_key.
    split.
    + intros [Hin|(m & Hm & Hty)].
      * destruct (Py.has_key d field) eqn:Ek; [|now left].
        apply In_set_add in Hin as [->|Hin]; [|now left].
        right. exists (PDict d). split; [now left|].
        simpl. rewrite Ek. reflexivity.
      * right. exists m. split; [now right | exact Hty].
    + intros [Hin|(m & [<-|Hm] & Hty)].
      * left. destruct (Py.has_key d field); [apply In_set_add; now right | exact Hin].
      * left. simpl in Hty. destruct (Py.has_key d field); [|discriminate].
        inversion Hty. apply In_set_add. now left.
      * right. exists m. split; assumption.
Qed.

Lemma types_of_In (types : list (string * list string)) (field : string)
    (s : list string) :
  NoDup (map fst types) -> In (field, s) types -> types_of types field = s.
Proof.
  induction types as [|[k s'] types IH]; simpl; intros Hn Hin; [destruct Hin|].
  inversion Hn as [|? ? Hk Hn']; subst.
  destruct Hin as [E|Hin].
  - inversion E. subst. rewrite String.eqb_refl. reflexivity.
  - destruct (String.eqb k field) eqn:Ek; [|auto].
    apply String.eqb_eq in Ek. subst k.
    elim Hk. apply (in_map fst) in Hin. exact Hin.
Qed.

Lemma types_of_entry (types : list (string * list string)) (field : string) :
  types_of types field <> [] -> In (field, types_of types field) types.
Proof.
  induction types as [|[k s] types IH]; simpl; intro H; [now elim H|].
  destruct (String.eqb k field) eqn:Ek.
  - apply String.eqb_eq in Ek. subst k. now left.
  - right. apply IH, H.
Qed.

Lemma two_elements (s : list string) :
  NoDup s ->
  (1 < List.length s <-> exists a b, In a s /\ In b s /\ a <> b).
Proof.
  intro Hn. split.
  - destruct s as [|a [|b s]]; simpl; try lia. intros _.
    exists a, b. repeat split; auto.
    inversion Hn as [|? ? Ha _]; subst. intros ->. apply Ha. now left.
  - intros (a & b & Ha & Hb & Hab).
    destruct s as [|x [|y s]]; simpl in *.
    + destruct Ha.
    + destruct Ha as [<-|[]], Hb as [<-|[]]. now elim Hab.
    + lia.
Qed.

Section TypeCheck.

Variable set_iter : list string -> list string.

Lemma types_flagged_app (field : string) (l1 l2 : list inconsistency) :
  types_flagged field (l1 ++ l2) = types_flagged field l1 || types_flagged field l2.
Proof. apply existsb_app. Qed.

Lemma types_flagged_presence (field : string) (counts : list (string * nat))
    (total : nat) :
  types_flagged field (presence_inconsistencies set_iter counts total) = false.
Proof.
  unfold presence_inconsistencies.
  induction (set_iter (map fst counts)) as [|f l IH]; [reflexivity|].
  cbn [flat_map]. rewrite types_flagged_app, IH.
  destruct (below_half _); reflexivity.
Qed.

Lemma types_flagged_types (field : string) (types : list (string * list string)) :
  types_flagged field (type_inconsistencies set_iter types) = true
  <-> exists s, In (field, s) types /\ 1 < List.length s.
Proof.
  induction types as [|[k s] types IH].
  - simpl. split; [discriminate | intros (s & [] & _)].
  - cbn [type_inconsistencies flat_map fst snd].
    fold (type_inconsistencies set_iter types).
    rewrite types_flagged_app, orb_true_iff, IH. split.
    + intros [H|(s' & Hin & Hl)].
      * destruct (1 <? List.length s)%nat eqn:E; [|discriminate].
        simpl in H. rewrite orb_false_r in H. apply String.eqb_eq in H. subst k.
        exists s. split; [now left | apply Nat.ltb_lt, E].
      * exists s'. split; [now right | exact Hl].
    + intros (s' & [E|Hin] & Hl).
      * inversion E. subst. left.
        apply Nat.ltb_lt in Hl. rewrite Hl. simpl.
        rewrite String.eqb_refl. reflexivity.
      * right. exists s'. split; assumption.
Qed.

End TypeCheck.

(** X16: for a non-empty list of well-formed records, the report flags
    the types of a field as inconsistent exactly when two messages carry
    the field with values of different Python types. *)
Theorem types_flagged_iff_two_types (set_iter : list string -> list string)
    (messages : list pyval) :
  messages <> [] ->
  forallb is_record messages = true ->
  exists f,
    analyze_data set_iter messages = Ok f
    /\ (forall field,
           types_flagged field (inconsistencies f) = true
           <-> exists m1 m2 t1 t2,
                 In m1 messages /\ In m2 messages
                 /\ field_type field m1 = Some t1
                 /\ field_type field m2 = Some t2
                 /\ t1 <> t2).
Proof.
  intros Hne Hrec.
  rewrite analyze_data_nonempty by exact Hne. unfold analyze_messages.
  destruct (empty_fields_from_records _ Hrec []) as (c & ->). cbn [bind].
  eexists. split; [reflexivity|]. cbn [inconsistencies]. intro field.
  destruct (tally_from_types field _ Hrec empty_tally 0 (NoDup_nil _) (NoDup_nil _))
    as (Hk & Hs & Hin).
  rewrite !types_flagged_app, types_flagged_presence.
  replace (types_flagged field match c with [] => [] | _ => _ end) with false
    by (destruct c; reflexivity).
  rewrite !orb_false_r, types_flagged_types.
  set (types := field_types (tally_from empty_tally 0 messages)) in *.
  assert (Hseen : forall ty,
             In ty (types_of types field)
             <-> exists msg, In msg messages /\ field_type field msg = Some ty).
  { intro ty. rewrite Hin. simpl. intuition. }
  split.
  - intros (s & Hentry & Hlen).
    rewrite <- (@types_of_In types field s Hk Hentry) in Hlen.
    apply (two_elements Hs) in Hlen as (a & b & Ha & Hb & Hab).
    apply Hseen in Ha as (m1 & Hm1 & Ht1). apply Hseen in Hb as (m2 & Hm2 & Ht2).
    exists m1, m2, a, b. auto 6.
  - intros (m1 & m2 & t1 & t2 & Hm1 & Hm2 & Ht1 & Ht2 & Hne').
    assert (Hlen : 1 < List.length (types_of types field)).
    { apply (two_elements Hs). exists t1, t2.
      repeat split; [apply Hseen; eauto | apply Hseen; eauto | exact Hne']. }
    exists (types_of types field). split; [|exact Hlen].
    apply types_of_entry. intro E. rewrite E in Hlen. simpl in Hlen. lia.
Qed.

Lemma types_flagged_iff_two_types_witness :
  exists f,
    analyze_data listed_order
      [PDict [("user_name", PStr "Layla")]; PDict [("user_name", PInt 7)]] = Ok f
    /\ (forall field,
           types_flagged field (inconsistencies f) = true
           <-> exists m1 m2 t1 t2,
                 In m1 [PDict [("user_name", PStr "Layla")]; PDict [("user_name", PInt 7)]]
                 /\ In m2 [PDict [("user_name", PStr "Layla")]; PDict [("user_name", PInt 7)]]
                 /\ field_type field m1 = Some t1
                 /\ field_type field m2 = Some t2
                 /\ t1 <> t2).
Proof.
  apply types_flagged_iff_two_types; [discriminate | reflexivity].
Defined.

(** ** The report: empty values *)

Lemma positive_count_empty (counts : list (string * nat)) (kv : string * pyval) :
  positive_counts counts -> positive_counts (count_empty counts kv).
Proof.
  intro H. unfold count_empty.
  destruct (is_empty_value (snd kv)); [apply positive_counts_incr|]; exact H.
Qed.

Lemma count_of_count_empty (d : items_t) (field : string) :
  NoDup (map fst d) ->
  forall counts,
    positive_counts counts ->
    positive_counts (fold_left count_empty d counts)
    /\ count_of (fold_left count_empty d counts) field
       = count_of counts field + (if has_empty field (PDict d) then 1 else 0).
Proof.
  unfold has_empty.
  induction d as [|[k v] d IH]; intros Hn counts Hpos.
  - simpl. split; [exact Hpos | lia].
  - cbn [map fst] in Hn. inversion Hn as [|? ? Hk Hn']; subst.
    cbn [fold_left].
    destruct (IH Hn' (count_empty counts (k, v))
                (@positive_count_empty counts (k, v) Hpos))
      as [Hp Hc].
    split; [exact Hp|]. rewrite Hc. cbn [Py.has_key Py.get].
    unfold count_empty. cbn [fst snd].
    destruct (String.eqb k field) eqn:E; cbn [orb].
    + apply String.eqb_eq in E. subst k.
      replace (Py.has_key d field) with false.
      * cbn [andb]. destruct (is_empty_value v); [|lia].
        rewrite count_of_incr, String.eqb_refl. lia.
      * symmetry. destruct (Py.has_key d field) eqn:Ek; [|reflexivity].
        apply has_key_In in Ek. contradiction.
    + destruct (is_empty_value v); [|reflexivity].
      rewrite count_of_incr, E. reflexivity.
Qed.

Lemma empty_fields_from_counts (field : string) (messages : list pyval) :
  forallb is_record messages = true ->
  forall counts,
    positive_counts counts ->
    exists c,
      empty_fields_from counts messages = Ok c
      /\ positive_counts c
      /\ count_of c field = count_of counts field + empties field messages.
Proof.
  unfold empties.
  induction messages as [|msg rest IH]; intros H counts Hpos.
  - exists counts. simpl. repeat split; [exact Hpos | lia].
  - cbn [forallb] in H. apply andb_true_iff in H as [Hmsg Hrest].
    destruct msg as [ | | | | | |d]; try discriminate. simpl in Hmsg.
    apply distinct_NoDup in Hmsg.
    destruct (@count_of_count_empty d field Hmsg counts Hpos) as [Hp Hc].
    destruct (IH Hrest _ Hp) as (c & Hc1 & Hc2 & Hc3).
    exists c. cbn [empty_fields_from]. split; [exact Hc1|]. split; [exact Hc2|].
    rewrite Hc3, Hc. cbn [filter].
    destruct (has_empty field (PDict d)); simpl; lia.
Qed.

(** X17: for a non-empty list of well-formed records, the report counts
    for each field the messages in which its value is [None], the empty
    string or the empty list; it carries [empty_field_counts] and the
    "fields with empty/null values" entry exactly when some field is
    empty in some message, and the entry gives the number of such
    fields. *)
Theorem empty_values_are_counted (set_iter : list string -> list string)
    (messages : list pyval) :
  messages <> [] ->
  forallb is_record messages = true ->
  exists f st counts,
    analyze_data set_iter messages = Ok f
    /\ statistics f = Some st
    /\ (forall field, count_of counts field = empties field messages)
    /\ empty_field_counts st = match counts with [] => None | _ => Some counts end
    /\ (counts <> [] <-> exists field, 0 < empties field messages)
    /\ empties_flagged (inconsistencies f)
       = match counts with [] => false | _ => true end
    /\ (forall n, In (EmptyValues n) (inconsistencies f) -> n = List.length counts).
Proof.
  intros Hne Hrec.
  rewrite analyze_data_nonempty by exact Hne. unfold analyze_messages.
  assert (Hall : forall field,
             exists c, empty_fields_from [] messages = Ok c
                       /\ positive_counts c
                       /\ count_of c field = empties field messages).
  { intro field.
    destruct (@empty_fields_from_counts field messages Hrec [] (Forall_nil _))
      as (c & H1 & H2 & H3). eauto. }
  destruct (Hall EmptyString) as (c & Hc & Hpos & _).
  rewrite Hc. cbn [bind].
  eexists. eexists. exists c. split; [reflexivity|]. split; [reflexivity|].
  cbn [empty_field_counts inconsistencies].
  assert (Hcount : forall field, count_of c field = empties field messages).
  { intro field. destruct (Hall field) as (c' & Hc' & _ & Hf).
    rewrite Hc in Hc'. inversion Hc'. subst c'. exact Hf. }
  split; [exact Hcount|]. split; [reflexivity|]. split; [|split].
  - split.
    + intro Hc0. destruct c as [|[k n] c]; [now elim Hc0|].
      exists k. rewrite <- Hcount.
      apply (count_of_positive _ Hpos). now left.
    + intros (field & Hf) ->. rewrite <- Hcount in Hf. simpl in Hf. lia.
  - unfold empties_flagged. rewrite !existsb_app.
    assert (H1 : forall types,
               existsb (fun e => match e with EmptyValues _ => true | _ => false end)
                       (type_inconsistencies set_iter types) = false).
    { induction types as [|[k s] types IH]; [reflexivity|].
      cbn [type_inconsistencies flat_map]. rewrite existsb_app.
      fold (type_inconsistencies set_iter types). rewrite IH.
      destruct (_ <? _)%nat; reflexivity. }
    assert (H2 : forall counts total,
               existsb (fun e => match e with EmptyValues _ => true | _ => false end)
                       (presence_inconsistencies set_iter counts total) = false).
    { intros counts total. unfold presence_inconsistencies.
      induction (set_iter (map fst counts)) as [|k l IH]; [reflexivity|].
      cbn [flat_map]. rewrite existsb_app, IH.
      destruct (below_half _); reflexivity. }
    rewrite H1, H2. destruct c; reflexivity.
  - intros n Hin. rewrite !in_app_iff in Hin. destruct Hin as [[Hin|Hin]|Hin].
    + unfold type_inconsistencies in Hin. apply in_flat_map in Hin as (x & _ & Hx).
      destruct (_ <? _)%nat; [destruct Hx as [Hx|[]]; discriminate | destruct Hx].
    + unfold presence_inconsistencies in Hin.
      apply in_flat_map in Hin as (x & _ & Hx).
      destruct (below_half _); [destruct Hx as [Hx|[]]; discriminate | destruct Hx].
    + destruct c; [destruct Hin|]. destruct Hin as [Hin|[]]. inversion Hin. reflexivity.
Qed.

Lemma empty_values_are_counted_witness :
  exists f st counts,
    analyze_data listed_order
      [PDict [("user_name", PStr "Layla"); ("message", PStr EmptyString)];
       PDict [("user_name", PNone); ("tags", PList [])]] = Ok f
    /\ statistics f = Some st
    /\ (forall field,
           count_of counts field
           = empties field
               [PDict [("user_name", PStr "Layla"); ("message", PStr EmptyString)];
                PDict [("user_name", PNone); ("tags", PList [])]])
    /\ empty_field_counts st = match counts with [] => None | _ => Some counts end
    /\ (counts <> []
        <-> exists field,
              0 < empties field
                    [PDict [("user_name", PStr "Layla"); ("message", PStr EmptyString)];
                     PDict [("user_name", PNone); ("tags", PList [])]])
    /\ empties_flagged (inconsistencies f)
       = match counts with [] => false | _ => true end
    /\ (forall n, In (EmptyValues n) (inconsistencies f) -> n = List.length counts).
Proof.
  apply empty_values_are_counted; [discriminate | reflexivity].
Defined.

(** ** The report script *)

(** X18: the script ends with [exit(1)], before any analysis, exactly
    when the fetch fails or what it fetched is falsy (an empty list, an
    envelope with empty or null items): a failed fetch and an empty data
    set cannot be told apart by the exit status. *)
Theorem script_exits_without_data (set_iter : list string -> list string)
    (reply : option pyval) :
  main_script set_iter reply = Exit1
  <-> reply = None
      \/ exists data, reply = Some data /\ Py.truthy (payload data) = false.
Proof.
  unfold main_script, payload. split.
  - destruct reply as [data|]; [|auto].
    destruct (Py.truthy (fetch_report_messages (Some data))) eqn:E; cbn [negb].
    + destruct (bind _ _); discriminate.
    + intros _. right. eauto.
  - intros [->|(data & -> & E)]; [reflexivity|]. rewrite E. reflexivity.
Qed.

(** X19: when the script fetches a non-empty list, it prints and saves
    findings whose [total_messages] is the length of the list if every
    entry is a mapping, and it dies of an [AttributeError] that nothing
    catches if some entry is not. *)
Theorem script_on_a_list (set_iter : list string -> list string)
    (data : pyval) (messages : list pyval) :
  payload data = PList messages ->
  messages <> [] ->
  (forallb Py.is_dict messages = true ->
   exists f, main_script set_iter (Some data) = Findings f
             /\ analyze_data set_iter messages = Ok f
             /\ total_messages f = List.length messages)
  /\ (has_non_mapping messages = true ->
      main_script set_iter (Some data) = Uncaught AttributeError).
Proof.
  intros Hp Hne. unfold main_script. unfold payload in Hp. rewrite Hp.
  destruct messages as [|m ms]; [now elim Hne|].
  cbn [Py.truthy negb Py.iter bind]. split.
  - intro Hall.
    change (analyze_data set_iter (m :: ms)) with (analyze_messages set_iter (m :: ms)).
    unfold analyze_messages.
    destruct (empty_fields_from_dicts _ Hall []) as (c & ->). cbn [bind].
    eexists. repeat split.
  - intro Hbad.
    change (analyze_data set_iter (m :: ms)) with (analyze_messages set_iter (m :: ms)).
    unfold analyze_messages.
    rewrite empty_fields_from_raises by exact Hbad. reflexivity.
Qed.

Lemma script_on_a_list_witness :
  main_script listed_order
    (Some (PDict [("total", PInt 2);
                  ("items", PList [PDict [("message", PStr "hi")]; PInt 3])]))
  = Uncaught AttributeError.
Proof.
  apply (proj2 (@script_on_a_list listed_order
                  (PDict [("total", PInt 2);
                          ("items", PList [PDict [("message", PStr "hi")]; PInt 3])])
                  [PDict [("message", PStr "hi")]; PInt 3]
                  eq_refl ltac:(discriminate))).
  reflexivity.
Defined.

(** ** The printed field frequencies *)

Lemma insert_by_count_perm (e : string * nat) (l : list (string * nat)) :
  Permutation (insert_by_count e l) (e :: l).
Proof.
  induction l as [|e' l IH]; simpl; [reflexivity|].
  destruct (snd e' <=? snd e)%nat; [reflexivity|].
  rewrite IH. apply perm_swap.
Qed.

Lemma sort_by_count_perm (l : list (string * nat)) :
  Permutation (sort_by_count l) l.
Proof.
  induction l as [|e l IH]; simpl; [reflexivity|].
  rewrite insert_by_count_perm, IH. reflexivity.
Qed.

Lemma insert_by_count_sorted (e : string * nat) (l : list (string * nat)) :
  StronglySorted count_ge l -> StronglySorted count_ge (insert_by_count e l).
Proof.
  unfold count_ge.
  induction l as [|e' l IH]; simpl; intro H.
  - repeat constructor.
  - inversion H as [|? ? Hl Hall]; subst.
    destruct (Nat.leb_spec (snd e') (snd e)) as [Hle|Hlt].
    + constructor; [exact H|]. constructor; [exact Hle|].
      eapply Forall_impl; [|exact Hall]. simpl. intros x Hx. lia.
    + constructor; [apply IH, Hl|].
      rewrite Forall_forall in *. intros x Hx.
      apply (Permutation_in _ (insert_by_count_perm e l)) in Hx.
      destruct Hx as [<-|Hx]; [lia | apply Hall, Hx].
Qed.

Lemma sort_by_count_sorted (l : list (string * nat)) :
  StronglySorted count_ge (sort_by_count l).
Proof.
  induction l as [|e l IH]; simpl; [constructor|].
  apply insert_by_count_sorted, IH.
Qed.

Lemma sorted_firstn (n : nat) (l : list (string * nat)) :
  StronglySorted count_ge l -> StronglySorted count_ge (firstn n l).
Proof.
  revert n. induction l as [|e l IH]; intros [|n] H; simpl; try constructor.
  - inversion H; subst. apply IH. assumption.
  - inversion H as [|? ? _ Hall]; subst.
    rewrite Forall_forall in *. intros x Hx. apply Hall.
    rewrite <- (firstn_skipn n l). apply in_or_app. now left.
Qed.

Lemma sorted_split (n : nat) (l : list (string * nat)) :
  StronglySorted count_ge l ->
  forall e e', In e (firstn n l) -> In e' (skipn n l) -> count_ge e e'.
Proof.
  revert n. induction l as [|x l IH]; intros [|n] H e e' He He'; simpl in *;
    try contradiction.
  inversion H as [|? ? Hl Hall]; subst.
  destruct He as [<-|He]; [|eauto].
  rewrite Forall_forall in Hall. apply Hall.
  rewrite <- (firstn_skipn n l). apply in_or_app. now right.
Qed.

(** X20: the field frequencies that are printed are at most ten, in
    order of non-increasing count, all taken from the statistics; every
    field that is left out has a count no larger than each printed one;
    with ten fields or fewer all of them are printed. *)
Theorem top_fields_are_the_largest (field_frequency : list (string * nat)) :
  List.length (top_fields field_frequency) <= 10
  /\ StronglySorted count_ge (top_fields field_frequency)
  /\ (exists rest,
         Permutation field_frequency (top_fields field_frequency ++ rest)
         /\ (forall e e', In e (top_fields field_frequency) -> In e' rest ->
                          count_ge e e')
         /\ (List.length field_frequency <= 10 -> rest = [])).
Proof.
  unfold top_fields. split; [apply firstn_le_length|]. split.
  - apply sorted_firstn, sort_by_count_sorted.
  - exists (skipn 10 (sort_by_count field_frequency)). split; [|split].
    + rewrite firstn_skipn. symmetry. apply sort_by_count_perm.
    + apply sorted_split, sort_by_count_sorted.
    + intro H. apply skipn_all2.
      rewrite (Permutation_length (sort_by_count_perm field_frequency)). exact H.
Qed.

(** ** The matcher accepts only what the pattern matches *)

Lemma length_append (s t : string) :
  String.length (s ++ t) = String.length s + String.length t.
Proof. induction s; simpl; congruence. Qed.

Lemma last_of_append (prev : option ascii) (t1 t2 : string) :
  last_of (last_of prev t1) t2 = last_of prev (t1 ++ t2).
Proof. revert prev. induction t1; intro prev; simpl; auto. Qed.

Lemma substring_append (t rest : string) :
  substring 0 (String.length t) (t ++ rest) = t.
Proof.
  induction t as [|c t IH]; simpl.
  - destruct rest; reflexivity.
  - rewrite IH. reflexivity.
Qed.

Lemma taken_append (t rest : string) : Re.taken (t ++ rest) rest = t.
Proof.
  unfold Re.taken. rewrite length_append.
  replace (String.length t + String.length rest - String.length rest)
    with (String.length t) by lia.
  apply substring_append.
Qed.

Module Soundness.
Import Re.

Lemma greedy_sound (ic : bool) (r : regex) (k : cont) :
  sound ic r (rmatch ic r) ->
  forall fuel lo hi prev s caps res,
    greedy (rmatch ic r) k fuel lo hi prev s caps = Some res ->
    exists t rest caps',
      s = t ++ rest
      /\ matches ic (Repeat lo hi r) prev t rest caps caps'
      /\ k (last_of prev t) rest caps' = Some res.
Proof.
  intros Hr fuel.
  assert (Hstop : forall lo hi prev s caps res,
             match lo with O => k prev s caps | S _ => None end = Some res ->
             exists t rest caps',
               s = t ++ rest
               /\ matches ic (Repeat lo hi r) prev t rest caps caps'
               /\ k (last_of prev t) rest caps' = Some res).
  { intros lo hi prev s caps res H. destruct lo; [|discriminate].
    exists EmptyString, s, caps. repeat split; [constructor | exact H]. }
  induction fuel as [|fuel IH]; intros lo hi prev s caps res H.
  - apply Hstop, H.
  - cbn [greedy] in H.
    assert (Hmore :
              match rmatch ic r prev s caps
                      (fun prev' s' caps' =>
                         if (String.length s' <? String.length s)%nat
                         then greedy (rmatch ic r) k fuel (pred lo)
                                     (option_map pred hi) prev' s' caps'
                         else None) with
              | Some res => Some res
              | None => match lo with O => k prev s caps | S _ => None end
              end = Some res ->
              hi <> Some 0 ->
              exists t rest caps',
                s = t ++ rest
                /\ matches ic (Repeat lo hi r) prev t rest caps caps'
                /\ k (last_of prev t) rest caps' = Some res).
    { intros Hm Hhi.
      destruct (rmatch ic r prev s caps _) as [res'|] eqn:E; [|apply Hstop, Hm].
      inversion Hm. subst res'.
      apply Hr in E as (t1 & rest1 & caps1 & Hs & Hm1 & Hk).
      destruct (Nat.ltb_spec (String.length rest1) (String.length s)) as [Hlt|];
        [|discriminate].
      apply IH in Hk as (t2 & rest & caps2 & Hs2 & Hm2 & Hk2).
      exists (t1 ++ t2), rest, caps2. subst rest1.
      split; [rewrite append_assoc; exact Hs|]. split.
      - apply m_more with (caps1 := caps1); auto.
        intros ->. subst s. simpl in Hlt. lia.
      - rewrite <- last_of_append. exact Hk2. }
    destruct hi as [[|h]|].
    + apply Hstop, H.
    + apply Hmore; [exact H | discriminate].
    + apply Hmore; [exact H | discriminate].
Qed.

(** The matcher is sound for every pattern. *)
Theorem rmatch_sound (ic : bool) (r : regex) : sound ic r (rmatch ic r).
Proof.
  induction r as [c|p|r1 IH1 r2 IH2|r1 IH1 r2 IH2|lo hi r IH|i r IH|];
    intros prev s caps k res H; cbn [rmatch] in H.
  - destruct s as [|a s]; [discriminate|].
    destruct (chr_eq ic c a) eqn:E; [|discriminate].
    exists (String a EmptyString), s, caps. repeat split; [constructor|]; assumption.
  - destruct s as [|a s]; [discriminate|].
    destruct (p a) eqn:E; [|discriminate].
    exists (String a EmptyString), s, caps. repeat split; [constructor|]; assumption.
  - apply IH1 in H as (t1 & rest1 & caps1 & Hs & Hm1 & Hk).
    apply IH2 in Hk as (t2 & rest & caps2 & Hs2 & Hm2 & Hk2).
    exists (t1 ++ t2), rest, caps2. subst rest1.
    split; [rewrite append_assoc; exact Hs|]. split.
    + apply m_cat with (caps1 := caps1); assumption.
    + rewrite <- last_of_append. exact Hk2.
  - destruct (rmatch ic r1 prev s caps k) as [res'|] eqn:E.
    + inversion H. subst res'.
      apply IH1 in E as (t & rest & caps' & Hs & Hm & Hk).
      exists t, rest, caps'. repeat split; [|apply m_or_left|]; assumption.
    + apply IH2 in H as (t & rest & caps' & Hs & Hm & Hk).
      exists t, rest, caps'. repeat split; [|apply m_or_right|]; assumption.
  - apply greedy_sound in H; assumption.
  - apply IH in H as (t & rest & caps' & Hs & Hm & Hk).
    exists t, rest, ((i, t) :: caps'). split; [exact Hs|]. split.
    + apply m_group, Hm.
    + subst s. rewrite taken_append in Hk. exact Hk.
  - destruct (xorb _ _) eqn:E; [|discriminate].
    exists EmptyString, s, caps. repeat split; [constructor|]; assumption.
Qed.

(** Every match that the scan reports is a match of the pattern at some
    place of the subject. *)
Lemma scan_sound (ic : bool) (r : regex) :
  forall fuel prev s whole caps,
    In (whole, caps) (scan fuel ic r prev s) ->
    exists before rest,
      s = before ++ whole ++ rest
      /\ matches ic r (last_of prev before) whole rest [] caps.
Proof.
  induction fuel as [|fuel IH]; intros prev s whole caps Hin; [destruct Hin|].
  cbn [scan] in Hin.
  assert (Hnext : In (whole, caps)
                     match s with
                     | EmptyString => []
                     | String c s' => scan fuel ic r (Some c) s'
                     end ->
                  exists before rest,
                    s = before ++ whole ++ rest
                    /\ matches ic r (last_of prev before) whole rest [] caps).
  { destruct s as [|c s']; [intros []|]. intro H.
    apply IH in H as (before & rest & Hs & Hm).
    exists (String c before), rest. split; [simpl; congruence | exact Hm]. }
  destruct (rmatch ic r prev s [] accept) as [[[p' s'] caps']|] eqn:E; [|auto].
  apply rmatch_sound in E as (t & rest & caps'' & Hs & Hm & Hk).
  unfold accept in Hk. inversion Hk. subst p' s' caps''. clear Hk.
  destruct Hin as [Hin|Hin].
  - inversion Hin. subst whole caps s. rewrite taken_append.
    exists EmptyString, rest. split; [reflexivity | exact Hm].
  - destruct (String.length rest <? String.length s)%nat; [|auto].
    apply IH in Hin as (before & rest' & Hs' & Hm').
    exists (t ++ before), rest'. split.
    + rewrite append_assoc. congruence.
    + rewrite <- last_of_append. exact Hm'.
Qed.

End Soundness.

(** ** What [findall] reports comes from the subject *)

Lemma fragment_refl (s : string) : fragment s s.
Proof. exists EmptyString, EmptyString. simpl. symmetry. apply append_empty_r. Qed.

Lemma fragment_empty (s : string) : fragment EmptyString s.
Proof. exists EmptyString, s. reflexivity. Qed.

Lemma fragment_trans (x y z : string) : fragment x y -> fragment y z -> fragment x z.
Proof.
  intros (a & b & ->) (c & d & ->). exists (c ++ a), (b ++ d).
  rewrite !append_assoc. reflexivity.
Qed.

Lemma fragment_left (x t1 t2 : string) : fragment x t1 -> fragment x (t1 ++ t2).
Proof.
  intro H. apply (fragment_trans H). exists EmptyString, t2. reflexivity.
Qed.

Lemma fragment_right (x t1 t2 : string) : fragment x t2 -> fragment x (t1 ++ t2).
Proof.
  intro H. apply (fragment_trans H). exists t1, EmptyString.
  rewrite append_empty_r. reflexivity.
Qed.

Lemma fragment_middle (a x b : string) : fragment x (a ++ x ++ b).
Proof. exists a, b. reflexivity. Qed.

(** The captures a match adds are pieces of the matched text. *)
Lemma matches_captures (ic : bool) (r : Re.regex) (prev : option ascii)
    (t rest : string) (caps caps' : Re.captures) :
  matches ic r prev t rest caps caps' ->
  exists new,
    caps' = (new ++ caps)%list
    /\ (forall i x, In (i, x) new -> fragment x t).
Proof.
  induction 1 as [c a prev rest caps Hc
                 |p a prev rest caps Hp
                 |r1 r2 prev t1 t2 rest caps caps1 caps2 H1 IH1 H2 IH2
                 |r1 r2 prev t rest caps caps' H IH
                 |r1 r2 prev t rest caps caps' H IH
                 |hi r prev rest caps
                 |lo hi r prev t1 t2 rest caps caps1 caps2 Hhi Ht H1 IH1 H2 IH2
                 |i r prev t rest caps caps' H IH
                 |prev rest caps Hb];
    try (exists []; split; [reflexivity | intros ? ? []]);
    try exact IH.
  - destruct IH1 as (n1 & -> & F1). destruct IH2 as (n2 & -> & F2).
    exists (n2 ++ n1)%list. split; [apply app_assoc|].
    intros i x Hin. apply in_app_or in Hin as [Hin|Hin].
    + apply fragment_right. eauto.
    + apply fragment_left. eauto.
  - destruct IH1 as (n1 & -> & F1). destruct IH2 as (n2 & -> & F2).
    exists (n2 ++ n1)%list. split; [apply app_assoc|].
    intros i x Hin. apply in_app_or in Hin as [Hin|Hin].
    + apply fragment_right. eauto.
    + apply fragment_left. eauto.
  - destruct IH as (n & -> & F).
    exists ((i, t) :: n). split; [reflexivity|].
    intros j x [E|Hin]; [inversion E; apply fragment_refl | eauto].
Qed.

Lemma group_fragment (caps : Re.captures) (t : string) (i : nat) :
  (forall j x, In (j, x) caps -> fragment x t) -> fragment (Re.group caps i) t.
Proof.
  induction caps as [|[j x] caps IH]; simpl; intro H; [apply fragment_empty|].
  destruct (Nat.eqb i j); [apply (H j); now left|].
  apply IH. intros. apply (H j0). now right.
Qed.

Lemma scan_fragments (ic : bool) (r : Re.regex) (fuel : nat) (prev : option ascii)
    (s whole : string) (caps : Re.captures) :
  In (whole, caps) (Re.scan fuel ic r prev s) ->
  fragment whole s /\ (forall i, fragment (Re.group caps i) s).
Proof.
  intro H. apply Soundness.scan_sound in H as (before & rest & -> & Hm).
  split; [apply fragment_middle|]. intro i.
  apply (@fragment_trans _ whole); [|apply fragment_middle].
  apply matches_captures in Hm as (new & -> & F).
  apply group_fragment. rewrite app_nil_r. exact F.
Qed.

(** Every string that [findall] reports, a whole match or a group,
    occurs in the subject as it is written there. *)
Lemma findall_fragments (ic : bool) (r : Re.regex) (s : string) (f : Re.found) :
  In f (Re.findall ic r s) -> forall x, In x (found_strings f) -> fragment x s.
Proof.
  unfold Re.findall. intro H. apply in_map_iff in H as ([whole caps] & <- & Hin).
  apply scan_fragments in Hin as [Hw Hg]. cbn [fst snd].
  unfold Re.report. destruct (Re.ngroups r) as [|[|n]]; cbn [found_strings].
  - intros x [<-|[]]. exact Hw.
  - intros x [<-|[]]. apply Hg.
  - intros x Hx. apply in_map_iff in Hx as (i & <- & _). apply Hg.
Qed.

Lemma findall_str_fragments (ic : bool) (r : Re.regex) (s x : string) :
  In x (Re.findall_str ic r s) -> fragment x s.
Proof.
  unfold Re.findall_str. intro H. apply in_map_iff in H as ([whole caps] & <- & Hin).
  apply scan_fragments in Hin as [Hw Hg]. cbn [fst snd].
  destruct (Re.ngroups r); [exact Hw | apply Hg].
Qed.

(** X21: the date that the trip answer quotes is taken from the message
    as it is written there: each string of the first date found (the
    match, the group, or the parts of a relative date) occurs in the
    message text, with its case and digits unchanged. *)
Theorem quoted_date_is_from_the_message (who text : string) (d : items_t)
    (date : Re.found) (more : list Re.found) :
  find_dates text = date :: more ->
  trip_message who d text
  = Ok (who ++ " is planning a trip to London on " ++ Re.str date ++ ".")
  /\ (forall x, In x (found_strings date) -> fragment x text).
Proof.
  intro H. split.
  - unfold trip_message. rewrite H. reflexivity.
  - assert (Hin : In date (find_dates text)) by (rewrite H; now left).
    unfold find_dates in Hin. apply in_flat_map in Hin as (pattern & _ & Hin).
    apply (@findall_fragments true pattern text date Hin).
Qed.

Lemma quoted_date_is_from_the_message_witness :
  trip_message "Layla" [] "London NEXT  Friday"
  = Ok ("Layla" ++ " is planning a trip to London on " ++ Re.str (Re.FStr "Friday") ++ ".")
  /\ (forall x, In x (found_strings (Re.FStr "Friday")) ->
                fragment x "London NEXT  Friday").
Proof.
  apply quoted_date_is_from_the_message with (more := [Re.FTuple ["NEXT"; "Friday"]]).
  vm_compute. reflexivity.
Defined.

(** ** The shapes the patterns allow *)

Ltac inv H := inversion H; subst; clear H.

Lemma matches_class (ic : bool) (p : ascii -> bool) (prev : option ascii)
    (t rest : string) (caps caps' : Re.captures) :
  matches ic (Re.Class p) prev t rest caps caps' ->
  exists a, t = String a EmptyString /\ p a = true /\ caps' = caps.
Proof. intro H. inv H. eauto. Qed.

(** A repeated class matches a run of its characters, of a length within
    the bounds, and captures nothing. *)
Lemma matches_repeat_class (ic : bool) (r : Re.regex) (prev : option ascii)
    (t rest : string) (caps caps' : Re.captures) :
  matches ic r prev t rest caps caps' ->
  forall lo hi p,
    r = Re.Repeat lo hi (Re.Class p) ->
    Str.forallb p t = true
    /\ caps' = caps
    /\ lo <= String.length t
    /\ (forall h, hi = Some h -> String.length t <= h).
Proof.
  induction 1 as [c a prev rest caps Hc
                 |p0 a prev rest caps Hp
                 |r1 r2 prev t1 t2 rest caps caps1 caps2 H1 IH1 H2 IH2
                 |r1 r2 prev t rest caps caps' H IH
                 |r1 r2 prev t rest caps caps' H IH
                 |hi0 r prev rest caps
                 |lo0 hi0 r prev t1 t2 rest caps caps1 caps2 Hhi Ht H1 IH1 H2 IH2
                 |i r prev t rest caps caps' H IH
                 |prev rest caps Hb];
    intros lo hi p E; try discriminate.
  - inversion E. subst. simpl. repeat split; try lia; intros h _; lia.
  - inversion E. subst. clear IH1.
    apply matches_class in H1 as (a & -> & Hp & ->).
    destruct (IH2 _ _ _ eq_refl) as (Hall & -> & Hlo & Hhi').
    cbn [append Str.forallb String.length]. rewrite Hp, Hall.
    repeat split; try lia.
    intros h ->. destruct h as [|h]; [now elim Hhi|].
    specialize (Hhi' h eq_refl). lia.
Qed.

Lemma matches_plus_class (ic : bool) (p : ascii -> bool) (prev : option ascii)
    (t rest : string) (caps caps' : Re.captures) :
  matches ic (Re.plus (Re.Class p)) prev t rest caps caps' ->
  exists a t', t = String a t' /\ p a = true /\ Str.forallb p t' = true /\ caps' = caps.
Proof.
  intro H.
  destruct (matches_repeat_class H eq_refl) as (Hall & -> & Hlo & _).
  destruct t as [|a t']; [simpl in Hlo; lia|].
  cbn [Str.forallb] in Hall. apply andb_true_iff in Hall as [Ha Ht].
  eauto 6.
Qed.

Lemma matches_capitalized (ic : bool) (prev : option ascii) (t rest : string)
    (caps caps' : Re.captures) :
  matches ic Patterns.capitalized prev t rest caps caps' ->
  capitalized_start t /\ caps' = caps.
Proof.
  unfold Patterns.capitalized, Patterns.AZ, Patterns.az. intro H. inv H.
  match goal with
  | H1 : matches _ (Re.Class _) _ _ _ _ _, H2 : matches _ (Re.plus _) _ _ _ _ _ |- _ =>
      apply matches_class in H1 as (a & -> & Ha & ->);
      apply matches_plus_class in H2 as (b & t' & -> & Hb & _ & ->)
  end.
  split; [|reflexivity]. exists a, b, t'. auto.
Qed.

Lemma capitalized_start_append (t1 t2 : string) :
  capitalized_start t1 -> capitalized_start (t1 ++ t2).
Proof.
  intros (a & b & rest & -> & Ha & Hb). exists a, b, (rest ++ t2). auto.
Qed.

Lemma matches_capitalized_phrase (ic : bool) (prev : option ascii) (t rest : string)
    (caps caps' : Re.captures) :
  matches ic Patterns.capitalized_phrase prev t rest caps caps' ->
  capitalized_start t.
Proof.
  unfold Patterns.capitalized_phrase. intro H. inv H.
  match goal with
  | H1 : matches _ Patterns.capitalized _ _ _ _ _ |- _ =>
      apply matches_capitalized in H1 as [Hc _]
  end.
  apply capitalized_start_append, Hc.
Qed.

Lemma matches_boundary (ic : bool) (prev : option ascii) (t rest : string)
    (caps caps' : Re.captures) :
  matches ic Re.Boundary prev t rest caps caps' -> t = EmptyString /\ caps' = caps.
Proof. intro H. inv H. auto. Qed.

(** A match of the name pattern: group 1 is the match, a capitalized
    word (or two). *)
Lemma matches_name_pattern (prev : option ascii) (t rest : string)
    (caps : Re.captures) :
  matches false Patterns.name_pattern prev t rest [] caps ->
  Re.group caps 1 = t /\ capitalized_start t.
Proof.
  unfold Patterns.name_pattern. cbn [Re.seq]. intro H. inv H.
  match goal with
  | H1 : matches _ Re.Boundary _ _ _ _ _ |- _ =>
      apply matches_boundary in H1 as [-> ->]
  end.
  match goal with H2 : matches _ (Re.Cat _ _) _ _ _ _ _ |- _ => inv H2 end.
  match goal with
  | H1 : matches _ Re.Boundary _ _ _ _ _ |- _ =>
      apply matches_boundary in H1 as [-> ->]
  end.
  match goal with H2 : matches _ (Re.Group _ _) _ _ _ _ _ |- _ => inv H2 end.
  match goal with H2 : matches _ (Re.Cat _ _) _ _ _ _ _ |- _ => inv H2 end.
  match goal with
  | H1 : matches _ Patterns.capitalized _ _ _ _ _ |- _ =>
      apply matches_capitalized in H1 as [Hc _]
  end.
  cbn [append Re.group Nat.eqb]. rewrite append_empty_r.
  split; [reflexivity | apply capitalized_start_append, Hc].
Qed.

Lemma name_pattern_results (question n : string) :
  In n (Re.findall_str false Patterns.name_pattern question) ->
  capitalized_start n /\ fragment n question.
Proof.
  intro H. split; [|apply findall_str_fragments in H; exact H].
  unfold Re.findall_str in H. apply in_map_iff in H as ([whole caps] & E & Hin).
  change (Re.group caps 1 = n) in E.
  apply Soundness.scan_sound in Hin as (before & rest & _ & Hm).
  apply matches_name_pattern in Hm as [Hg Hc]. congruence.
Qed.

(** X22: every candidate name taken from a question is a piece of the
    question that starts with an upper-case letter followed by a
    lower-case one, and is not a stoplist word; so the subject that the
    answers display is never empty. *)
Theorem names_are_capitalized_words (question : string) :
  (forall n, In n (extract_names question) ->
             capitalized_start n
             /\ fragment n question
             /\ Str.mem n common_words = false)
  /\ name_display (extract_names question) <> EmptyString.
Proof.
  assert (H : forall n, In n (extract_names question) ->
                        capitalized_start n
                        /\ fragment n question
                        /\ Str.mem n common_words = false).
  { intros n Hn. apply extract_names_spec in Hn as [Hin Hstop].
    apply name_pattern_results in Hin as [Hc Hf]. auto. }
  split; [exact H|].
  destruct (extract_names question) as [|n names]; [discriminate|].
  destruct (H n (or_introl eq_refl)) as ((a & b & rest & -> & _) & _).
  discriminate.
Qed.

Lemma matches_lit_exact (c : ascii) (prev : option ascii) (t rest : string)
    (caps caps' : Re.captures) :
  matches false (Re.Lit c) prev t rest caps caps' ->
  t = String c EmptyString /\ caps' = caps.
Proof.
  intro H. inv H.
  match goal with E : Re.chr_eq false _ _ = true |- _ =>
    unfold Re.chr_eq in E; apply Ascii.eqb_eq in E; subst
  end.
  auto.
Qed.

(** A literal word, matched with case, is matched by itself only. *)
Lemma matches_word_exact (w : string) :
  w <> EmptyString ->
  forall prev t rest caps caps',
    matches false (Re.word w) prev t rest caps caps' -> t = w /\ caps' = caps.
Proof.
  induction w as [|c w IH]; intro Hne; [now elim Hne|].
  intros prev t rest caps caps' H.
  destruct w as [|c' w'].
  - cbn [Re.word] in H. apply matches_lit_exact in H. exact H.
  - change (Re.word (String c (String c' w')))
      with (Re.Cat (Re.Lit c) (Re.word (String c' w'))) in H.
    inversion H as [ | |r1 r2 p0 t1 t2 rest0 c0 c1 c2 Hm1 Hm2| | | | | | ]; subst.
    apply matches_lit_exact in Hm1 as [-> ->].
    apply IH in Hm2 as [-> ->]; [|discriminate].
    auto.
Qed.

Ltac inv_cat H H1 H2 :=
  inversion H as [ | |? ? ? ? ? ? ? ? ? H1 H2| | | | | | ]; subst; clear H.

Ltac inv_group H H1 :=
  inversion H as [ | | | | | | |? ? ? ? ? ? ? H1| ]; subst; clear H.

(** A match of the car-number pattern: digits (group 1), optional
    whitespace, then "car". *)
Lemma matches_car_number (prev : option ascii) (t rest : string)
    (caps : Re.captures) :
  matches false Patterns.car_number prev t rest [] caps ->
  exists digits spaces,
    Re.group caps 1 = digits
    /\ digits <> EmptyString
    /\ Str.forallb Chr.is_digit digits = true
    /\ Str.forallb Chr.is_space spaces = true
    /\ t = digits ++ spaces ++ "car".
Proof.
  unfold Patterns.car_number, Patterns.digit, Patterns.space, Re.star.
  cbn [Re.seq]. intro H.
  inv_cat H Hb H1. apply matches_boundary in Hb as [-> ->].
  inv_cat H1 Hg H2. inv_group Hg Hd.
  apply matches_plus_class in Hd as (a & t' & -> & Ha & Ht' & ->).
  inv_cat H2 Hs Hw.
  destruct (matches_repeat_class Hs eq_refl) as (Hsp & -> & _ & _).
  destruct (@matches_word_exact "car" ltac:(discriminate) _ _ _ _ _ Hw) as [-> ->].
  match goal with
  | |- context [String a t' ++ ?ts ++ "car"] => exists (String a t'), ts
  end.
  cbn [append Re.group Nat.eqb Str.forallb]. rewrite Ha, Ht'.
  repeat split; [discriminate | exact Hsp].
Qed.

Lemma int_of_digits_nonneg (s : string) :
  Str.forallb Chr.is_digit s = true -> (0 <= Str.int_of_digits s)%Z.
Proof.
  unfold Str.int_of_digits.
  assert (H : forall acc, (0 <= acc)%Z ->
                          Str.forallb Chr.is_digit s = true ->
                          (0 <= Str.int_of_digits_acc acc s)%Z).
  { induction s as [|c s IH]; intros acc Hacc Hd; [exact Hacc|].
    cbn [Str.forallb] in Hd. apply andb_true_iff in Hd as [Hc Hs].
    cbn [Str.int_of_digits_acc]. apply IH; [|exact Hs].
    unfold Chr.is_digit, Chr.between in Hc. apply andb_true_iff in Hc as [Hlo _].
    apply N.leb_le in Hlo. unfold Str.digit_val. lia. }
  apply H. lia.
Qed.

(** X23: a number that the car intent reads from a message is written
    there: it is the value of a non-empty run of digits that stands in
    the lower-cased message right before optional whitespace and "car";
    it is never negative. *)
Theorem stated_number_is_written (msg : pyval) (n : Z) :
  stated_number msg = Some n ->
  (0 <= n)%Z
  /\ exists text digits spaces,
       car_text msg = Some text
       /\ n = Str.int_of_digits digits
       /\ digits <> EmptyString
       /\ Str.forallb Chr.is_digit digits = true
       /\ Str.forallb Chr.is_space spaces = true
       /\ fragment (digits ++ spaces ++ "car") text.
Proof.
  unfold stated_number. intro H.
  destruct (car_text msg) as [text|]; [|discriminate].
  destruct (Re.findall_str false Patterns.car_number text) as [|number more] eqn:E;
    [discriminate|].
  inversion H. subst n. clear H.
  assert (Hin : In number (Re.findall_str false Patterns.car_number text))
    by (rewrite E; now left).
  unfold Re.findall_str in Hin.
  apply in_map_iff in Hin as ([whole caps] & Eg & Hin).
  change (Re.group caps 1 = number) in Eg.
  apply Soundness.scan_sound in Hin as (before & rest & Ht & Hm).
  apply matches_car_number in Hm as (digits & spaces & Hg & Hne & Hd & Hs & Hw).
  rewrite Hg in Eg. subst number.
  split; [apply int_of_digits_nonneg, Hd|].
  exists text, digits, spaces. repeat split; auto.
  rewrite Ht, Hw. apply fragment_middle.
Qed.

Lemma stated_number_is_written_witness :
  (0 <= 12)%Z
  /\ exists text digits spaces,
       car_text (PDict [("message", PStr "We own 12  CARS")]) = Some text
       /\ 12%Z = Str.int_of_digits digits
       /\ digits <> EmptyString
       /\ Str.forallb Chr.is_digit digits = true
       /\ Str.forallb Chr.is_space spaces = true
       /\ fragment (digits ++ spaces ++ "car") text.
Proof.
  apply stated_number_is_written. vm_compute. reflexivity.
Defined.

(** A pattern without groups leaves the captures as they are. *)
Lemma matches_no_groups (ic : bool) (r : Re.regex) (prev : option ascii)
    (t rest : string) (caps caps' : Re.captures) :
  matches ic r prev t rest caps caps' -> Re.ngroups r = 0 -> caps' = caps.
Proof.
  induction 1 as [c a prev rest caps Hc
                 |p a prev rest caps Hp
                 |r1 r2 prev t1 t2 rest caps caps1 caps2 H1 IH1 H2 IH2
                 |r1 r2 prev t rest caps caps' H IH
                 |r1 r2 prev t rest caps caps' H IH
                 |hi r prev rest caps
                 |lo hi r prev t1 t2 rest caps caps1 caps2 Hhi Ht H1 IH1 H2 IH2
                 |i r prev t rest caps caps' H IH
                 |prev rest caps Hb];
    cbn [Re.ngroups]; intro Hn; try reflexivity; try discriminate.
  - rewrite IH2, IH1 by lia. reflexivity.
  - apply IH. lia.
  - apply IH. lia.
  - rewrite IH2, IH1 by assumption. reflexivity.
Qed.

(** X24: every restaurant candidate taken from a message is a piece of
    the message as it is written; it is a quoted text that mentions
    "restaurant", or it starts with an upper-case letter followed by a
    lower-case one. *)
Theorem restaurant_candidates_are_fragments (message_text c : string) :
  In c (restaurant_candidates message_text) ->
  fragment c message_text
  /\ (capitalized_start c \/ Str.contains "restaurant" (Str.lower c) = true).
Proof.
  unfold restaurant_candidates. intro H.
  apply in_app_or in H as [H|H]; [|apply in_app_or in H as [H|H]].
  - split; [apply findall_str_fragments in H; exact H|]. left.
    unfold Re.findall_str in H. apply in_map_iff in H as ([whole caps] & E & Hin).
    change (Re.group caps 1 = c) in E.
    apply Soundness.scan_sound in Hin as (before & rest & _ & Hm).
    unfold Patterns.restaurant_pattern in Hm. cbn [Re.seq] in Hm.
    inv_cat Hm Hg Htail. inv_group Hg Hp.
    apply matches_no_groups in Htail; [|reflexivity]. subst.
    apply matches_capitalized_phrase in Hp.
    cbn [Re.group Nat.eqb]. exact Hp.
  - apply filter_In in H as [H Hq].
    split; [apply findall_str_fragments in H; exact H | now right].
  - apply filter_In in H as [H _].
    split; [apply findall_str_fragments in H; exact H|]. left.
    unfold Re.findall_str in H. apply in_map_iff in H as ([whole caps] & E & Hin).
    change (Re.group caps 1 = c) in E.
    apply Soundness.scan_sound in Hin as (before & rest & _ & Hm).
    unfold Patterns.restaurant_name_pattern in Hm. inv_group Hm Hp.
    apply matches_capitalized_phrase in Hp.
    cbn [Re.group Nat.eqb]. exact Hp.
Qed.

Lemma restaurant_candidates_are_fragments_witness :
  fragment "Le Petit Cafe" "We love Le Petit Cafe restaurant"
  /\ (capitalized_start "Le Petit Cafe"
      \/ Str.contains "restaurant" (Str.lower "Le Petit Cafe") = true).
Proof.
  apply restaurant_candidates_are_fragments. vm_compute. auto.
Defined.

(** ** Where the order of a set matters *)

(** X25: the order in which a set is iterated reaches the answer only
    through the restaurant intent: for a question that mentions "trip",
    "london" or "car", or neither "restaurant" nor "favorite", any two
    iteration orders give the same result. *)
Theorem answer_is_fixed_outside_restaurants
    (order1 order2 : list string -> list string)
    (question : string) (messages : list pyval) :
  Str.contains "trip" (Str.lower question)
  || Str.contains "london" (Str.lower question)
  || Str.contains "car" (Str.lower question)
  || negb (Str.contains "restaurant" (Str.lower question)
           || Str.contains "favorite" (Str.lower question)) = true ->
  answer_question_simple order1 question messages
  = answer_question_simple order2 question messages.
Proof.
  unfold answer_question_simple. intro H.
  destruct (relevant_messages _ _) as [rel|]; cbn [bind]; [|reflexivity].
  destruct (Str.contains "trip" _ || Str.contains "london" _); [reflexivity|].
  cbn [orb] in H.
  destruct (Str.contains "car" (Str.lower question)); [reflexivity|].
  cbn [orb] in H.
  destruct (Str.contains "cars" _); [reflexivity|]. cbn [orb].
  destruct (Str.contains "restaurant" _ || Str.contains "favorite" _);
    [discriminate | reflexivity].
Qed.

Lemma answer_is_fixed_outside_restaurants_witness :
  answer_question_simple listed_order "Which restaurant for the London trip?"
    [PDict [("message", PStr "London, Nobu restaurant, Friday")]]
  = answer_question_simple (fun l => rev (listed_order l))
      "Which restaurant for the London trip?"
      [PDict [("message", PStr "London, Nobu restaurant, Friday")]].
Proof.
  apply answer_is_fixed_outside_restaurants. vm_compute. reflexivity.
Defined.

(** X26: when the collected candidates hold at most five different
    names, the restaurant answer lists all of them, each once: two
    iteration orders can only differ in the order of the names. *)
Theorem few_restaurants_are_all_listed (set_iter : list string -> list string)
    (who : string) (relevant : list pyval) (candidates : list string) :
  set_iter_spec set_iter ->
  restaurants_from relevant = Ok candidates ->
  candidates <> [] ->
  List.length (nodup string_dec candidates) <= 5 ->
  exists names,
    restaurant_answer set_iter who relevant
    = Ok (who ++ "'s favorite restaurants include: " ++ Str.join ", " names ++ ".")
    /\ Permutation names (nodup string_dec candidates).
Proof.
  intros Hset Hfrom Hne Hfew.
  exists (set_iter candidates).
  assert (Hp : Permutation (set_iter candidates) (nodup string_dec candidates)).
  { destruct (Hset candidates) as [Hnd Hin].
    apply NoDup_Permutation; [exact Hnd | apply NoDup_nodup|].
    intro x. rewrite Hin, nodup_In. reflexivity. }
  split; [|exact Hp].
  unfold restaurant_answer. rewrite Hfrom. cbn [bind].
  destruct candidates as [|c cs]; [now elim Hne|].
  rewrite firstn_all2; [reflexivity|].
  rewrite (Permutation_length Hp). exact Hfew.
Qed.

Lemma few_restaurants_are_all_listed_witness :
  exists names,
    restaurant_answer listed_order "Amira"
      [PDict [("message", PStr "Try Nobu restaurant")]]
    = Ok ("Amira" ++ "'s favorite restaurants include: " ++ Str.join ", " names ++ ".")
    /\ Permutation names
         (nodup string_dec (restaurant_candidates "Try Nobu restaurant" ++ [])%list).
Proof.
  apply few_restaurants_are_all_listed.
  - apply listed_order_spec.
  - reflexivity.
  - vm_compute. discriminate.
  - vm_compute. lia.
Defined.

(** ** When no car is found *)






(** ** Start-up *)

(** X28: the fetch at start-up never fails the start: when it succeeds
    with a payload that is not null, the first request is served from
    the cache without a fetch; when it fails, the cache stays unset and
    the first question that is not blank fetches again. *)
Theorem startup_warms_the_cache (set_iter : list string -> list string)
    (data : pyval) (reply : option pyval) (question : string) (f : fetcher) :
  is_none (cache f) = true ->
  asks_something question = true ->
  (is_none (payload data) = false ->
   snd (ask_question set_iter reply question (startup_event (Some data) f))
   = {| cache := payload data; requests_sent := S (requests_sent f) |})
  /\ startup_event None f
     = {| cache := cache f; requests_sent := S (requests_sent f) |}
  /\ snd (ask_question set_iter (Some data) question (startup_event None f))
     = {| cache := payload data; requests_sent := S (S (requests_sent f)) |}.
Proof.
  intros Hc Hq. unfold startup_event.
  rewrite !fetch_messages_first by (rewrite Hc; reflexivity). cbn [snd].
  split; [|split; [reflexivity|]].
  - intro Hp. rewrite ask_question_asks by exact Hq.
    rewrite fetch_messages_cached by exact Hp. cbn [cache].
    destruct (negb _); [reflexivity|].
    destruct (answer_question _ _ _); reflexivity.
  - rewrite ask_question_asks by exact Hq.
    rewrite fetch_messages_first by (cbn [cache]; rewrite Hc; reflexivity).
    cbn [cache requests_sent].
    destruct (negb _); [reflexivity|].
    destruct (answer_question _ _ _); reflexivity.
Qed.

Lemma startup_warms_the_cache_witness :
  startup_event None {| cache := PNone; requests_sent := 0 |}
  = {| cache := PNone; requests_sent := 1 |}.
Proof.
  apply (proj1 (proj2 (@startup_warms_the_cache listed_order PNone None "?"
                         {| cache := PNone; requests_sent := 0 |} eq_refl eq_refl))).
Defined.
